(** * simple_malloc: an implicit-free-list allocator with boundary tags

    A shallow embedding of [simple_malloc.c] and the properties its
    specification states about it.

    Conventions of the embedding.
    - Addresses and machine integers are [Z].  [size_t] is taken as 64 bits
      wide (LP64, the glibc target the source is written for), [unsigned int]
      as 32 bits; every place where the C arithmetic can wrap is written out
      with [to_size] / [to_uint].
    - Memory is a finite map from byte addresses to 32-bit words.  All the
      allocator's accesses are at word offsets from the first break, so words
      never overlap.  Never-written words read as 0, like fresh pages.
    - An access outside the current break is undefined behaviour in C; here it
      stops the computation with [Fault].
    - [sbrk] is the environment: a program break that can move between a lower
      bound [lo] and a limit [lim].
    - To its user a block is an array of bytes ([main] fills one and prints
      it).  A byte is read and written inside the word that holds it, in
      little-endian order. *)

From Stdlib Require Import Ascii String ZArith Lia Bool List.
From stdpp Require Import base tactics option list gmap.

Open Scope Z_scope.

(** ** Constants and the block codec *)

Definition WSIZE : Z := 4.
Definition DSIZE : Z := 8.
Definition CHUNKSIZE : Z := Z.shiftl 1 12.

Definition NULL : Z := 0.
(** [(void * )-1], the failure value of [sbrk]. *)
Definition SBRK_FAILED : Z := -1.

Definition UINT_MOD : Z := 2 ^ 32.
Definition SIZE_MOD : Z := 2 ^ 64.

(** Conversion to [unsigned int] and to [size_t]. *)
Definition to_uint (v : Z) : Z := v mod UINT_MOD.
Definition to_size (v : Z) : Z := v mod SIZE_MOD.
(** Conversion of a [size_t] to [intptr_t] (two's complement). *)
Definition to_intptr (v : Z) : Z :=
  let u := to_size v in if decide (u < 2 ^ 63) then u else u - SIZE_MOD.

(** [#define PACK(size, alloc) ((size) | (alloc))] *)
Definition PACK (size alloc : Z) : Z := Z.lor size alloc.

(** The word-level parts of [GET_SIZE] and [GET_ALLOC]:
    [GET(p) & ~0x7] and [GET(p) & 0x1] on an [unsigned int]. *)
Definition size_bits (w : Z) : Z := Z.land w (to_uint (Z.lnot 7)).
Definition alloc_bit (w : Z) : Z := Z.land w 1.

(** ** Heap state and the computation monad *)

Record state : Type := mkState {
  mem : gmap Z Z;      (* words, by byte address *)
  lo : Z;              (* lowest position of the program break *)
  brk : Z;             (* current program break *)
  lim : Z;             (* highest position the environment grants *)
  heap_ptr : Z         (* the global [heap_ptr] *)
}.

Definition set_mem (m : gmap Z Z) (s : state) : state :=
  mkState m (lo s) (brk s) (lim s) (heap_ptr s).
Definition set_brk (b : Z) (s : state) : state :=
  mkState (mem s) (lo s) b (lim s) (heap_ptr s).
Definition set_heap_ptr (p : Z) (s : state) : state :=
  mkState (mem s) (lo s) (brk s) (lim s) p.

Inductive result (A : Type) : Type :=
  | Done (a : A) (s : state)
  | Fault        (* access outside the break *)
  | Timeout.     (* loop fuel ran out *)
Arguments Done {A} a s.
Arguments Fault {A}.
Arguments Timeout {A}.

Definition M (A : Type) : Type := state → result A.

#[global] Instance M_ret : MRet M := λ A a s, Done a s.
#[global] Instance M_bind : MBind M := λ A B f c s,
  match c s with
  | Done a s' => f a s'
  | Fault => Fault
  | Timeout => Timeout
  end.

Definition fault {A} : M A := λ _, Fault.
Definition timeout {A} : M A := λ _, Timeout.
Definition get_heap_ptr : M Z := λ s, Done (heap_ptr s) s.
Definition put_heap_ptr (p : Z) : M unit := λ s, Done tt (set_heap_ptr p s).

Definition word (m : gmap Z Z) (p : Z) : Z := default 0 (m !! p).

Definition in_heap (s : state) (p : Z) : Prop := lo s ≤ p ∧ p + WSIZE ≤ brk s.

(** [#define GET(p) ( *(unsigned int * )(p))] *)
Definition GET (p : Z) : M Z := λ s,
  if decide (in_heap s p) then Done (word (mem s) p) s else Fault.

(** [#define PUT(p, val) ( *(unsigned int * )(p) = (val))] *)
Definition PUT (p val : Z) : M unit := λ s,
  if decide (in_heap s p) then Done tt (set_mem (<[p := to_uint val]> (mem s)) s)
  else Fault.

Definition GET_SIZE (p : Z) : M Z := w ← GET p; mret (size_bits w).
Definition GET_ALLOC (p : Z) : M Z := w ← GET p; mret (alloc_bit w).

Definition HDRP (bp : Z) : Z := bp - WSIZE.
Definition FTRP (bp : Z) : M Z :=
  size ← GET_SIZE (HDRP bp); mret (bp + size - DSIZE).
Definition NEXT_BLKP (bp : Z) : M Z :=
  size ← GET_SIZE (bp - WSIZE); mret (bp + size).
Definition PREV_BLKP (bp : Z) : M Z :=
  size ← GET_SIZE (bp - DSIZE); mret (bp - size).

(** The environment: [sbrk(increment)] moves the break by [increment]
    (an [intptr_t]) and returns the old break, or fails with [(void * )-1]
    when the new break would leave [lo .. lim].  For a decrement that would
    take the break below [lo] this answer is a simplification (Linux leaves
    the break in place and returns it); the allocator asks for a decrement
    only when the size arithmetic of a request wraps, and the claims and
    properties below hand [sbrk] increments of zero or more. *)
Definition sbrk (increment : Z) : M Z := λ s,
  let incr := to_intptr increment in
  if decide (lo s ≤ brk s + incr ∧ brk s + incr ≤ lim s)
  then Done (brk s) (set_brk (brk s + incr) s)
  else Done SBRK_FAILED s.

(** ** The allocator *)

Definition coalesce (bp : Z) : M Z :=
  pb ← PREV_BLKP bp; pf ← FTRP pb; prev_alloc ← GET_ALLOC pf;
  nb ← NEXT_BLKP bp; next_alloc ← GET_ALLOC (HDRP nb);
  size ← GET_SIZE (HDRP bp);
  if bool_decide (prev_alloc ≠ 0) && bool_decide (next_alloc ≠ 0) then
    mret bp
  else if bool_decide (prev_alloc ≠ 0) && bool_decide (next_alloc = 0) then
    nb ← NEXT_BLKP bp; nsz ← GET_SIZE (HDRP nb);
    let size := to_size (size + nsz) in
    PUT (HDRP bp) (PACK size 0);;
    f ← FTRP bp; PUT f (PACK size 0);;
    mret bp
  else if bool_decide (prev_alloc = 0) && bool_decide (next_alloc ≠ 0) then
    pb ← PREV_BLKP bp; psz ← GET_SIZE (HDRP pb);
    let size := to_size (size + psz) in
    f ← FTRP bp; PUT f (PACK size 0);;
    pb ← PREV_BLKP bp; PUT (HDRP pb) (PACK size 0);;
    PREV_BLKP bp
  else
    pb ← PREV_BLKP bp; psz ← GET_SIZE (HDRP pb);
    nb ← NEXT_BLKP bp; nf ← FTRP nb; nsz ← GET_SIZE nf;
    let size := to_size (size + to_uint (psz + nsz)) in
    pb ← PREV_BLKP bp; PUT (HDRP pb) (PACK size 0);;
    nb ← NEXT_BLKP bp; nf ← FTRP nb; PUT nf (PACK size 0);;
    PREV_BLKP bp.

Definition mm_free (bp : Z) : M unit :=
  size ← GET_SIZE (HDRP bp);
  PUT (HDRP bp) (PACK size 0);;
  f ← FTRP bp; PUT f (PACK size 0);;
  coalesce bp;;
  mret tt.

(** The byte count [extend_heap] computes from [words]: rounded up to an
    even number of words. *)
Definition extend_bytes (words : Z) : Z :=
  if bool_decide (words mod 2 ≠ 0)
  then to_size (to_size (words + 1) * WSIZE)
  else to_size (words * WSIZE).

Definition extend_heap (words : Z) : M Z :=
  let size := extend_bytes words in
  bp ← sbrk size;
  if bool_decide (bp = SBRK_FAILED) then mret NULL
  else
    PUT (HDRP bp) (PACK size 0);;
    f ← FTRP bp; PUT f (PACK size 0);;
    nb ← NEXT_BLKP bp; PUT (HDRP nb) (PACK 0 1);;
    coalesce bp.

Definition mm_init : M Z :=
  hp ← sbrk (4 * WSIZE); put_heap_ptr hp;;
  hp ← get_heap_ptr;
  if bool_decide (hp = SBRK_FAILED) then mret (-1)
  else
    hp ← get_heap_ptr; PUT hp 0;;
    hp ← get_heap_ptr; PUT (hp + WSIZE) (PACK DSIZE 1);;
    hp ← get_heap_ptr; PUT (hp + 2 * WSIZE) (PACK DSIZE 1);;
    hp ← get_heap_ptr; PUT (hp + 3 * WSIZE) (PACK 0 1);;
    hp ← get_heap_ptr; put_heap_ptr (hp + 2 * WSIZE);;
    extended_heap_ptr ← extend_heap (CHUNKSIZE / WSIZE);
    if bool_decide (extended_heap_ptr = NULL) then mret (-1) else mret 0.

Definition place (bp requested_size : Z) : M unit :=
  free_size ← GET_SIZE (HDRP bp);
  if bool_decide (2 * DSIZE ≤ to_size (free_size - requested_size)) then
    PUT (HDRP bp) (PACK requested_size 1);;
    f ← FTRP bp; PUT f (PACK requested_size 1);;
    bp ← NEXT_BLKP bp;
    PUT (HDRP bp) (PACK (to_size (free_size - requested_size)) 0);;
    f ← FTRP bp; PUT f (PACK (to_size (free_size - requested_size)) 0)
  else
    PUT (HDRP bp) (PACK free_size 1);;
    f ← FTRP bp; PUT f (PACK free_size 1).

(** Loops.  [iterate fuel body x] runs [body] from [x] until it returns
    ([inr]) or [fuel] iterations are done ([inl], with the loop state
    reached).  The fuel is a binary number, so that a bound as large as the
    heap costs nothing. *)
Fixpoint iterate {X R} (fuel : positive) (body : X → M (X + R)) (x : X)
    : M (X + R) :=
  match fuel with
  | xH => body x
  | xO fuel =>
      r ← iterate fuel body x;
      match r with
      | inl x' => iterate fuel body x'
      | inr v => mret (inr v)
      end
  | xI fuel =>
      r ← body x;
      match r with
      | inl x' =>
          r ← iterate fuel body x';
          match r with
          | inl x'' => iterate fuel body x''
          | inr v => mret (inr v)
          end
      | inr v => mret (inr v)
      end
  end.

Definition loop {X R} (fuel : positive) (body : X → M (X + R)) (x : X) : M R :=
  r ← iterate fuel body x;
  match r with
  | inl _ => timeout
  | inr v => mret v
  end.

(** One iteration of the [for] loop of [find_fit] at [bp]: [inr] is a
    [return], [inl] the next [bp]. *)
Definition find_fit_step (size bp : Z) : M (Z + Z) :=
  sz ← GET_SIZE (HDRP bp);
  if bool_decide (0 < sz) then
    alloc ← GET_ALLOC (HDRP bp); sz ← GET_SIZE (HDRP bp);
    if bool_decide (alloc = 0) && bool_decide (size ≤ sz) then mret (inr bp)
    else bp ← NEXT_BLKP bp; mret (inl bp)
  else mret (inr NULL).

(** Every iteration moves [bp] up by at least [DSIZE] and reads below the
    break, so a scan from [bp] never uses up [loop_fuel s bp] iterations
    (see [find_fit_no_timeout]). *)
Definition loop_fuel (s : state) (bp : Z) : positive :=
  Z.to_pos (brk s + DSIZE - bp + 1).

Definition find_fit (size : Z) : M Z := λ s,
  loop (loop_fuel s (heap_ptr s)) (find_fit_step size) (heap_ptr s) s.

(** The adjusted block size computed at the head of [mm_malloc]. *)
Definition adjusted_size (size : Z) : Z :=
  if bool_decide (size ≤ DSIZE) then 2 * DSIZE
  else
    let new_size := to_size (DSIZE + size) in
    let new_size := to_size (new_size + DSIZE - 1) / DSIZE in
    to_size (new_size * DSIZE).

(** The number of words [mm_malloc] asks [extend_heap] for. *)
Definition extend_words (new_size : Z) : Z :=
  if bool_decide (CHUNKSIZE < new_size) then to_size (new_size / WSIZE + 1)
  else CHUNKSIZE / WSIZE.

Definition mm_malloc (size : Z) : M Z :=
  if bool_decide (size = 0) then mret NULL
  else
    let new_size := adjusted_size size in
    bp ← find_fit new_size;
    if bool_decide (bp ≠ NULL) then place bp new_size;; mret bp
    else
      extended_heap_ptr ← extend_heap (extend_words new_size);
      if bool_decide (extended_heap_ptr = NULL) then mret NULL
      else place extended_heap_ptr new_size;; mret extended_heap_ptr.

(** ** The example program *)

(** To its user a block is an array of bytes.  Memory holds 32-bit words:
    byte [i] of the array at the word address [ptr] is byte [i mod WSIZE],
    in little-endian order, of the word at [ptr + WSIZE * (i / WSIZE)]. *)
Definition char_word (ptr i : Z) : Z := ptr + WSIZE * (i / WSIZE).

(** Byte [k] of the word [w], and [w] with its byte [k] replaced by the
    [char] value of [c]. *)
Definition get_byte (w k : Z) : Z := (w / 256 ^ k) mod 256.
Definition set_byte (w k c : Z) : Z := w + (c mod 256 - get_byte w k) * 256 ^ k.

(** [((char * )ptr)[i]] as a value and as the target of an assignment.  Like
    every access, it faults outside the break. *)
Definition GET_CHAR (ptr i : Z) : M Z :=
  w ← GET (char_word ptr i); mret (get_byte w (i mod WSIZE)).
Definition PUT_CHAR (ptr i c : Z) : M unit :=
  w ← GET (char_word ptr i);
  PUT (char_word ptr i) (set_byte w (i mod WSIZE) c).

(** [for (int i = from; i < from + n; i++) body], with the value the loop
    carries from one iteration to the next. *)
Fixpoint for_loop {S} (n : nat) (i : Z) (body : Z → S → M S) (acc : S) : M S :=
  match n with
  | O => mret acc
  | S n => acc ← body i acc; for_loop n (i + 1) body acc
  end.

Definition char_code (c : ascii) : Z := Z.of_N (N_of_ascii c).

(** [main].  The standard output is the list of bytes that the [printf]
    calls write, in order; the computation returns it with the exit status.
    As in the source, the result of [mm_init] is not looked at, nor is [ptr]
    compared with [NULL]. *)
Definition main : M (list Z * Z) :=
  mm_init;;
  ptr ← mm_malloc 48;
  for_loop 48 0 (λ i _, PUT_CHAR ptr i (char_code "a" + i mod 26)) tt;;
  out ← for_loop 48 0 (λ i out, c ← GET_CHAR ptr i; mret (out ++ [c])) [];
  let out := out ++ [char_code "010"] in
  mm_free ptr;;
  mret (out, 0).

(** A state before [mm_init]: no word written yet, the break at its first
    position [base], and [heap_ptr] still [NULL]. *)
Definition boot (base limit : Z) : state := mkState ∅ base base limit NULL.

(** * The vocabulary of the specification *)

(** The word that encodes a block of size [size] with allocation flag [a]. *)
Definition tag (size : Z) (a : bool) : Z := size + Z.b2z a.

Definition valid_size (size : Z) : Prop := 0 ≤ size < UINT_MOD ∧ size mod 8 = 0.

(** What [coalesce bp] returns and leaves in memory when the block at [bp]
    has size [sz], its predecessor has size [s1] and flag [a1], and its
    successor's header holds size [s2] and flag [a2]. *)
Definition coalesced (m : gmap Z Z) (bp s1 : Z) (a1 : bool) (sz s2 : Z) (a2 : bool)
    : Z * gmap Z Z :=
  match a1, a2 with
  | true, true => (bp, m)
  | true, false =>
      (bp, <[bp + sz + s2 - 8 := tag (sz + s2) false]>
             (<[bp - 4 := tag (sz + s2) false]> m))
  | false, true =>
      (bp - s1, <[bp - s1 - 4 := tag (s1 + sz) false]>
                  (<[bp + sz - 8 := tag (s1 + sz) false]> m))
  | false, false =>
      (bp - s1, <[bp + sz + s2 - 8 := tag (s1 + sz + s2) false]>
                  (<[bp - s1 - 4 := tag (s1 + sz + s2) false]> m))
  end.

(** A block as the boundary tags describe it: its size and whether it is
    allocated. *)
Abbreviation block := (Z * bool)%type.

Fixpoint span (bs : list block) : Z :=
  match bs with
  | [] => 0
  | b :: bs => b.1 + span bs
  end.

(** Header and footer of the block with payload address [bp] both hold the
    tag of [b]. *)
Definition tagged (m : gmap Z Z) (bp : Z) (b : block) : Prop :=
  word m (bp - 4) = tag b.1 b.2 ∧ word m (bp + b.1 - 8) = tag b.1 b.2.

(** Memory from payload address [bp] on holds the blocks [bs], gapless. *)
Fixpoint blocks (m : gmap Z Z) (bp : Z) (bs : list block) : Prop :=
  match bs with
  | [] => True
  | b :: bs => 8 ≤ b.1 ∧ b.1 mod 8 = 0 ∧ tagged m bp b ∧ blocks m (bp + b.1) bs
  end.

Fixpoint no_adj_free (bs : list block) : bool :=
  match bs with
  | b1 :: bs' =>
      match bs' with
      | b2 :: _ => (b1.2 || b2.2) && no_adj_free bs'
      | [] => true
      end
  | [] => true
  end.

(** The shape of a heap between two calls: the chain [bs] starts with the
    prologue at [heap_ptr], ends at the break, and the epilogue header sits
    in the last word below the break.  The heap stays below 4 GiB, so every
    size fits a header word. *)
Record heap_shape (s : state) (bs : list block) : Prop := {
  shape_lo : 0 ≤ lo s ∧ lo s ≤ heap_ptr s - DSIZE;
  shape_lim : brk s ≤ lim s ∧ lim s - (heap_ptr s - DSIZE) < UINT_MOD;
  shape_prologue : ∃ tl, bs = (DSIZE, true) :: tl;
  shape_blocks : blocks (mem s) (heap_ptr s) bs;
  shape_end : heap_ptr s + span bs = brk s;
  shape_epilogue : word (mem s) (brk s - WSIZE) = tag 0 true
}.

(** Every block behind the prologue has at least the minimum block size. *)
Definition min_ok (bs : list block) : Prop :=
  Forall (λ b : block, 2 * DSIZE ≤ b.1) (tail bs).

(** The heap invariant: the shape, the minimum block size, and no two
    neighbours both free. *)
Record heap_ok (s : state) (bs : list block) : Prop := {
  ok_shape : heap_shape s bs;
  ok_min : min_ok bs;
  ok_naf : no_adj_free bs = true
}.

(** The chain after coalescing a free block of size [sz] whose predecessor
    is [p] and whose successors are [post]. *)
Definition merged (p : block) (sz : Z) (post : list block) : list block :=
  match p.2, post with
  | true, (s2, false) :: t => p :: (sz + s2, false) :: t
  | true, _ => p :: (sz, false) :: post
  | false, (s2, false) :: t => (p.1 + sz + s2, false) :: t
  | false, _ => (p.1 + sz, false) :: post
  end.

(** The chain after [coalesce] on a block [b] of either flag: nothing changes
    between two allocated neighbours, otherwise the free neighbours and [b]
    become one free block. *)
Definition coalesced_chain (p b : block) (post : list block) : list block :=
  match p.2, post with
  | true, [] => p :: b :: post
  | true, (_, true) :: _ => p :: b :: post
  | _, _ => merged p b.1 post
  end.

(** The size of the first block of [post] when it is free, else 0: the
    bytes a block gains from its successor when it is coalesced. *)
Definition free_head (post : list block) : Z :=
  match post with
  | (s2, false) :: _ => s2
  | _ => 0
  end.

(** The blocks [place] leaves where a free block of size [free_size] was. *)
Definition placed (free_size requested_size : Z) : list block :=
  if bool_decide (2 * DSIZE ≤ free_size - requested_size)
  then [(requested_size, true); (free_size - requested_size, false)]
  else [(free_size, true)].

(** The first block of the chain [bs], laid out from payload address [bp],
    that is free and of size at least [size]; [NULL] when there is none. *)
Fixpoint first_fit (size bp : Z) (bs : list block) : Z :=
  match bs with
  | [] => NULL
  | b :: bs =>
      if negb b.2 && bool_decide (size ≤ b.1) then bp
      else first_fit size (bp + b.1) bs
  end.

(** The loop with its fuel in unary, for proofs by induction. *)
Fixpoint iterate_nat {X R} (n : nat) (body : X → M (X + R)) (x : X)
    : M (X + R) :=
  match n with
  | O => mret (inl x)
  | S n =>
      r ← body x;
      match r with
      | inl x' => iterate_nat n body x'
      | inr v => mret (inr v)
      end
  end.

(** The heap right after [mm_init] has written the sentinels. *)
Definition sentinels (s0 : state) : state :=
  let b := brk s0 in
  mkState (<[b + 12 := tag 0 true]> (<[b + 8 := tag 8 true]>
             (<[b + 4 := tag 8 true]> (<[b := 0]> (mem s0)))))
          (lo s0) (b + 16) (lim s0) (b + 8).

(** The heap after a successful [mm_init]: the sentinels, with the chunk as
    one free block between prologue and epilogue. *)
Definition initial_heap (s0 : state) : state :=
  let b := brk s0 in
  mkState (<[b + 16 + 4096 - 4 := tag 0 true]>
             (<[b + 16 + 4096 - 8 := tag 4096 false]>
                (<[b + 12 := tag 4096 false]> (mem (sentinels s0)))))
          (lo s0) (b + 16 + 4096) (lim s0) (b + 8).

(** The largest request for which the byte count handed to [sbrk],
    the adjusted size plus one double word, is still a non-negative
    [intptr_t]. *)
Definition REQUEST_MAX : Z := 2 ^ 63 - 24.

(** Payload addresses of the allocated blocks of the chain [bs] laid out
    from [bp]. *)
Fixpoint allocated (bp : Z) (bs : list block) : list Z :=
  match bs with
  | [] => []
  | b :: bs => (if b.2 then [bp] else []) ++ allocated (bp + b.1) bs
  end.

(** The chain [bs], laid out from [bp], has the block [b] at payload address
    [q]. *)
Definition block_at (bp : Z) (bs : list block) (q : Z) (b : block) : Prop :=
  ∃ pre post, bs = pre ++ b :: post ∧ q = bp + span pre.

(** The memory [m'] holds the same words as [m] from address [a] up to,
    not including, [b]. *)
Definition same_words (m m' : gmap Z Z) (a b : Z) : Prop :=
  ∀ q, a ≤ q < b → word m' q = word m q.

(** The three ways [mm_malloc] can go on a heap that satisfies the
    invariant, for a request in range. *)
Inductive malloc_outcome (s : state) (bs : list block) (n : Z)
    : Z → state → list block → Prop :=
  | malloc_fit pre fs post m' :
      bs = pre ++ (fs, false) :: post →
      first_fit (adjusted_size n) (heap_ptr s) bs = heap_ptr s + span pre →
      adjusted_size n ≤ fs →
      malloc_outcome s bs n (heap_ptr s + span pre) (set_mem m' s)
        (pre ++ placed fs (adjusted_size n) ++ post)
  | malloc_no_memory :
      first_fit (adjusted_size n) (heap_ptr s) bs = NULL →
      lim s < brk s + extend_bytes (extend_words (adjusted_size n)) →
      malloc_outcome s bs n NULL s bs
  | malloc_grow pre fs m' :
      first_fit (adjusted_size n) (heap_ptr s) bs = NULL →
      brk s + extend_bytes (extend_words (adjusted_size n)) ≤ lim s →
      adjusted_size n ≤ fs → pre ≠ [] →
      (∀ q, q ∈ allocated (heap_ptr s) bs → q ∈ allocated (heap_ptr s) pre) →
      malloc_outcome s bs n (heap_ptr s + span pre)
        (set_mem m' (set_brk (brk s + extend_bytes (extend_words (adjusted_size n))) s))
        (pre ++ placed fs (adjusted_size n)).

(** The chain of blocks as a scan over the headers sees it, from the
    prologue at [heap_ptr] up to and including the first block of size zero.
    This is an observer for stating properties; the allocator has no such
    function, but [find_fit] walks the heap the same way. *)
Definition heap_walk_step (x : Z * list block) : M (Z * list block + list block) :=
  sz ← GET_SIZE (HDRP x.1); alloc ← GET_ALLOC (HDRP x.1);
  let b := (sz, bool_decide (alloc ≠ 0)) in
  if bool_decide (0 < sz) then nb ← NEXT_BLKP x.1; mret (inl (nb, b :: x.2))
  else mret (inr (reverse (b :: x.2))).

Definition heap_walk : M (list block) := λ s,
  loop (loop_fuel s (heap_ptr s)) heap_walk_step (heap_ptr s, []) s.

(** The environment at start: the break is at a non-negative address, and
    less than 4 GiB can be granted above it, so that every block size fits
    a 32-bit header word. *)
Definition env_ok (s0 : state) : Prop :=
  0 ≤ lo s0 ∧ lo s0 ≤ brk s0 ∧ lim s0 - brk s0 < UINT_MOD.

(** Heaps reachable from the state [s0] by a successful [mm_init] followed by
    any calls of [mm_malloc], with requests up to [REQUEST_MAX], and of
    [mm_free] on pointers that [mm_malloc] returned and that were not freed
    since, and by stores of the caller into the payload of such a block.
    The set collects these live pointers. *)
Inductive reachable (s0 : state) : state → gset Z → Prop :=
  | reach_init s :
      mm_init s0 = Done 0 s → reachable s0 s ∅
  | reach_malloc s live n p s' :
      reachable s0 s live → 0 ≤ n ≤ REQUEST_MAX →
      mm_malloc n s = Done p s' →
      reachable s0 s' (if decide (p = NULL) then live else {[p]} ∪ live)
  | reach_free s live p s' :
      reachable s0 s live → p ∈ live →
      mm_free p s = Done tt s' →
      reachable s0 s' (live ∖ {[p]})
  | reach_store s live p size k v s' :
      reachable s0 s live → p ∈ live →
      GET_SIZE (HDRP p) s = Done size s →
      0 ≤ k → k mod WSIZE = 0 → k + WSIZE ≤ size - DSIZE →
      PUT (p + k) v s = Done tt s' →
      reachable s0 s' live.

(** Every live pointer is the payload address of an allocated block behind
    the prologue. *)
Definition live_ok (s : state) (bs : list block) (live : gset Z) : Prop :=
  ∀ q, q ∈ live → q ∈ allocated (heap_ptr s) bs ∧ q ≠ heap_ptr s.

(** The state [s'] differs from [s] in its memory at most. *)
Definition same_env (s s' : state) : Prop :=
  lo s' = lo s ∧ brk s' = brk s ∧ lim s' = lim s ∧ heap_ptr s' = heap_ptr s.

(** A computation that, when it returns, has changed memory at most. *)
Definition mem_only {A} (c : M A) : Prop :=
  ∀ s a s', c s = Done a s' → same_env s s'.

(** Byte [i] of the array at [ptr], read off a memory. *)
Definition char_of (m : gmap Z Z) (ptr i : Z) : Z :=
  get_byte (word m (char_word ptr i)) (i mod WSIZE).

(** The bytes of a text. *)
Definition text_bytes (t : string) : list Z := char_code <$> list_ascii_of_string t.

(** A small concrete environment for examples: the break starts at the
    aligned address 4096 and may grow up to 65536. *)
Definition demo_boot : state := boot 4096 65536.

(** [demo_boot] after [mm_init]. *)
Definition demo_heap : state :=
  match mm_init demo_boot with
  | Done _ s => s
  | _ => demo_boot
  end.

(** [demo_heap] after [mm_malloc 48]: the chunk is split into an allocated
    block of 56 bytes and a free block of 4040 bytes. *)
Definition demo_heap1 : state :=
  match mm_malloc 48 demo_heap with
  | Done _ s => s
  | _ => demo_heap
  end.

(** [demo_heap1] after the block is released again. *)
Definition demo_heap2 : state :=
  match mm_free 4112 demo_heap1 with
  | Done _ s => s
  | _ => demo_heap1
  end.

(** [demo_heap1] after [mm_malloc 100]: a second block, of 112 bytes. *)
Definition demo_heap3 : state :=
  match mm_malloc 100 demo_heap1 with
  | Done _ s => s
  | _ => demo_heap1
  end.

(** * Lemmas about the allocator *)

(** ** The codec on words *)

Ltac Zify.zify_post_hook ::= Z.div_mod_to_equations.

Lemma size_bits_eq w : size_bits w = 8 * ((w mod 2 ^ 32) / 8).
Proof.
  unfold size_bits.
  replace (to_uint (Z.lnot 7)) with (Z.ldiff (Z.ones 32) (Z.ones 3)) by reflexivity.
  rewrite Z.ldiff_land, Z.land_assoc, <- Z.ldiff_land.
  rewrite Z.land_ones, Z.ldiff_ones_r by lia.
  rewrite Z.shiftr_div_pow2, Z.shiftl_mul_pow2 by lia.
  change (2 ^ 3) with 8. lia.
Qed.

Lemma alloc_bit_eq w : alloc_bit w = w mod 2.
Proof. unfold alloc_bit. change 1 with (Z.ones 1). by rewrite Z.land_ones. Qed.

Lemma PACK_tag size (a : bool) : size mod 8 = 0 → PACK size (Z.b2z a) = tag size a.
Proof.
  intros Hs. unfold PACK, tag.
  assert (Z.land size (Z.b2z a) = 0) as H0.
  { destruct a; simpl; [| apply Z.land_0_r].
    change 1 with (Z.ones 1). rewrite Z.land_ones by lia.
    change (2 ^ 1) with 2. lia. }
  rewrite <- Z.lxor_lor by done. symmetry. by apply Z.add_nocarry_lxor.
Qed.

Lemma tag_range size a : valid_size size → 0 ≤ tag size a < UINT_MOD.
Proof. unfold valid_size, tag, UINT_MOD. destruct a; simpl; lia. Qed.

Lemma size_bits_tag size a : valid_size size → size_bits (tag size a) = size.
Proof.
  unfold valid_size, UINT_MOD, tag. intros [Hr Hm]. rewrite size_bits_eq.
  destruct a; simpl; lia.
Qed.

Lemma alloc_bit_tag size a : size mod 8 = 0 → alloc_bit (tag size a) = Z.b2z a.
Proof. unfold tag. intros Hm. rewrite alloc_bit_eq. destruct a; simpl; lia. Qed.

Lemma to_uint_PACK size (a : bool) :
  valid_size size → to_uint (PACK size (Z.b2z a)) = tag size a.
Proof.
  intros [Hr Hm]. rewrite PACK_tag by done. unfold to_uint.
  pose proof (tag_range size a (conj Hr Hm)). unfold UINT_MOD in *. lia.
Qed.

Lemma to_uint_PACK_0 size : valid_size size → to_uint (PACK size 0) = tag size false.
Proof. apply (to_uint_PACK size false). Qed.

Lemma to_uint_PACK_1 size : valid_size size → to_uint (PACK size 1) = tag size true.
Proof. apply (to_uint_PACK size true). Qed.

Lemma size_bits_range w : valid_size (size_bits w).
Proof. rewrite size_bits_eq. unfold valid_size, UINT_MOD. lia. Qed.

Lemma to_size_small v : 0 ≤ v < 2 ^ 64 → to_size v = v.
Proof. intros. unfold to_size, SIZE_MOD. by apply Z.mod_small. Qed.

Lemma to_uint_small v : 0 ≤ v < 2 ^ 32 → to_uint v = v.
Proof. intros. unfold to_uint, UINT_MOD. by apply Z.mod_small. Qed.

(** ** Running computations *)

Lemma bind_Done {A B} (c : M A) (f : A → M B) s a s1 :
  c s = Done a s1 → (c ≫= f) s = f a s1.
Proof. unfold mbind, M_bind. by intros ->. Qed.

Lemma bind_Fault {A B} (c : M A) (f : A → M B) s :
  c s = Fault → (c ≫= f) s = Fault.
Proof. unfold mbind, M_bind. by intros ->. Qed.

Lemma bind_Timeout {A B} (c : M A) (f : A → M B) s :
  c s = Timeout → (c ≫= f) s = Timeout.
Proof. unfold mbind, M_bind. by intros ->. Qed.

Lemma PUT_fault p v s : ¬ in_heap s p → PUT p v s = Fault.
Proof. intros. unfold PUT. by rewrite decide_False. Qed.

Lemma set_mem_id s : set_mem (mem s) s = s.
Proof. by destruct s. Qed.

Lemma word_insert_eq m p q v : p = q → word (<[p := v]> m) q = v.
Proof. intros ->. unfold word. by rewrite lookup_insert_eq. Qed.

Lemma word_insert_ne m p q v : p ≠ q → word (<[p := v]> m) q = word m q.
Proof. intros. unfold word. by rewrite lookup_insert_ne. Qed.

Lemma GET_run p s : in_heap s p → GET p s = Done (word (mem s) p) s.
Proof. intros. unfold GET. by rewrite decide_True. Qed.

Lemma PUT_run p val v s :
  in_heap s p → to_uint val = v →
  PUT p val s = Done tt (set_mem (<[p := v]> (mem s)) s).
Proof. intros ? <-. unfold PUT. by rewrite decide_True. Qed.

Lemma GET_SIZE_run p s v :
  in_heap s p → size_bits (word (mem s) p) = v → GET_SIZE p s = Done v s.
Proof.
  intros Hp <-. unfold GET_SIZE. by rewrite (bind_Done _ _ _ _ _ (GET_run _ _ Hp)).
Qed.

Lemma GET_ALLOC_run p s v :
  in_heap s p → alloc_bit (word (mem s) p) = v → GET_ALLOC p s = Done v s.
Proof.
  intros Hp <-. unfold GET_ALLOC. by rewrite (bind_Done _ _ _ _ _ (GET_run _ _ Hp)).
Qed.

Lemma FTRP_run bp s v :
  in_heap s (bp - 4) → size_bits (word (mem s) (bp - 4)) = v →
  FTRP bp s = Done (bp + v - 8) s.
Proof.
  intros Hp Hv. unfold FTRP, HDRP, WSIZE, DSIZE.
  by rewrite (bind_Done _ _ _ _ _ (GET_SIZE_run _ _ _ Hp Hv)).
Qed.

Lemma NEXT_BLKP_run bp s v :
  in_heap s (bp - 4) → size_bits (word (mem s) (bp - 4)) = v →
  NEXT_BLKP bp s = Done (bp + v) s.
Proof.
  intros Hp Hv. unfold NEXT_BLKP, WSIZE.
  by rewrite (bind_Done _ _ _ _ _ (GET_SIZE_run _ _ _ Hp Hv)).
Qed.

Lemma PREV_BLKP_run bp s v :
  in_heap s (bp - 8) → size_bits (word (mem s) (bp - 8)) = v →
  PREV_BLKP bp s = Done (bp - v) s.
Proof.
  intros Hp Hv. unfold PREV_BLKP, DSIZE.
  by rewrite (bind_Done _ _ _ _ _ (GET_SIZE_run _ _ _ Hp Hv)).
Qed.

(** Tactics for symbolic execution.  [inb] proves that an address is inside
    the break; [rd] evaluates the word read at an address from the tagging
    facts in the context; [step lem] runs the computation at the head of the
    goal with the run lemma [lem]; [put] runs a [PUT] at the head. *)
Ltac proj :=
  unfold set_mem, set_brk, set_heap_ptr; cbn [mem lo brk lim heap_ptr].

Ltac addr := unfold HDRP, WSIZE, DSIZE in *; lia.

Ltac inb := unfold in_heap in *; proj; addr.

Ltac valid := unfold valid_size, UINT_MOD in *; lia.

Ltac rd_word :=
  repeat first
    [ rewrite word_insert_eq by addr | rewrite word_insert_ne by addr ];
  try match goal with
  | H : word ?m ?q = _ |- context [word ?m ?p] =>
      replace p with q by addr; rewrite H
  end.

Ltac rd :=
  proj; rd_word;
  first
    [ rewrite size_bits_tag by valid; reflexivity
    | rewrite alloc_bit_tag by valid; reflexivity
    | reflexivity ].

Ltac flags :=
  change (Z.b2z true) with 1; change (Z.b2z false) with 0;
  change (bool_decide (1 ≠ 0)) with true; change (bool_decide (0 ≠ 0)) with false;
  change (bool_decide (1 = 0)) with false; change (bool_decide (0 = 0)) with true;
  cbn [andb negb orb].

Ltac step lem :=
  erewrite (bind_Done _ _ _ _ _); [ cbv beta | eapply lem; [ inb | rd ] ].

Ltac put :=
  erewrite (bind_Done _ _ _ _ _);
  [ cbv beta
  | eapply PUT_run;
    [ inb | first [ apply to_uint_PACK_0; valid | apply to_uint_PACK_1; valid
                  | reflexivity ] ] ].

Ltac same_state :=
  unfold mret, M_ret, set_mem, set_brk, set_heap_ptr, HDRP, WSIZE, DSIZE;
  cbn [mem lo brk lim heap_ptr fst snd];
  repeat match goal with
  | |- Done _ _ = Done _ _ => f_equal
  | |- mkState _ _ _ _ _ = mkState _ _ _ _ _ => f_equal
  | |- <[_ := _]> _ = <[_ := _]> _ => f_equal
  | |- tag _ _ = tag _ _ => f_equal
  | |- @eq Z _ _ => lia
  end; try done.

(** ** The coalescer on a tagged neighbourhood *)

Lemma coalesce_run s bp s1 a1 sz a0 s2 a2 :
  lo s ≤ bp - s1 - 4 → bp + sz + s2 ≤ brk s →
  8 ≤ s1 → s1 mod 8 = 0 → 8 ≤ sz → sz mod 8 = 0 → 0 ≤ s2 → s2 mod 8 = 0 →
  s1 + sz + s2 < 2 ^ 32 →
  word (mem s) (bp - s1 - 4) = tag s1 a1 →
  word (mem s) (bp - 8) = tag s1 a1 →
  word (mem s) (bp - 4) = tag sz a0 →
  word (mem s) (bp + sz - 4) = tag s2 a2 →
  (a2 = false → 8 ≤ s2 ∧ word (mem s) (bp + sz + s2 - 8) = tag s2 false) →
  coalesce bp s =
    Done (coalesced (mem s) bp s1 a1 sz s2 a2).1
         (set_mem (coalesced (mem s) bp s1 a1 sz s2 a2).2 s).
Proof.
  intros Hlo Hhi ? ? ? ? ? ? Hfit Hph Hpf Hh Hnh Hnf.
  unfold coalesce.
  step PREV_BLKP_run. step FTRP_run. step GET_ALLOC_run.
  step NEXT_BLKP_run. step GET_ALLOC_run. step GET_SIZE_run.
  destruct a1, a2; flags.
  - simpl. by rewrite set_mem_id.
  - destruct Hnf as [? Hnf]; [done |].
    step NEXT_BLKP_run. step GET_SIZE_run.
    rewrite to_size_small by lia.
    put. step FTRP_run. put. unfold coalesced. same_state.
  - step PREV_BLKP_run. step GET_SIZE_run.
    rewrite to_size_small by lia.
    step FTRP_run. put. step PREV_BLKP_run. put.
    erewrite PREV_BLKP_run; [| inb | rd]. unfold coalesced. same_state.
  - destruct Hnf as [? Hnf]; [done |].
    step PREV_BLKP_run. step GET_SIZE_run.
    step NEXT_BLKP_run. step FTRP_run. step GET_SIZE_run.
    rewrite (to_uint_small (s1 + s2)), to_size_small by lia.
    step PREV_BLKP_run. put. step NEXT_BLKP_run. step FTRP_run. put.
    erewrite PREV_BLKP_run; [| inb | rd]. unfold coalesced. same_state.
Qed.

(** ** Heaps as chains of blocks *)

Lemma span_app bs1 bs2 : span (bs1 ++ bs2) = span bs1 + span bs2.
Proof. induction bs1 as [| b bs1 IH]; simpl; lia. Qed.

Lemma blocks_span_nonneg m bp bs : blocks m bp bs → 0 ≤ span bs.
Proof.
  revert bp. induction bs as [| b bs IH]; simpl; intros bp; [lia |].
  intros (? & ? & ? & Hbs). apply IH in Hbs. lia.
Qed.

Lemma blocks_app m bp bs1 bs2 :
  blocks m bp (bs1 ++ bs2) ↔ blocks m bp bs1 ∧ blocks m (bp + span bs1) bs2.
Proof.
  revert bp. induction bs1 as [| b bs1 IH]; simpl; intros bp.
  - rewrite Z.add_0_r. tauto.
  - rewrite IH, Z.add_assoc. tauto.
Qed.

(** A write outside the tags of a chain leaves the chain as it is. *)
Lemma blocks_insert m bp bs p v :
  blocks m bp bs → p < bp - 4 ∨ bp + span bs - 4 ≤ p →
  blocks (<[p := v]> m) bp bs.
Proof.
  revert bp. induction bs as [| b bs IH]; simpl; intros bp; [done |].
  intros (? & ? & [Hh Hf] & Hbs) Hp.
  pose proof (blocks_span_nonneg _ _ _ Hbs).
  split_and!; try done.
  - split; rewrite word_insert_ne by lia; done.
  - apply IH; [done | lia].
Qed.

(** ** Blocks of a chain, by address *)

Lemma block_at_cons bp c l q b :
  block_at bp (c :: l) q b ↔ q = bp ∧ b = c ∨ block_at (bp + c.1) l q b.
Proof.
  split.
  - intros ([| c' pre] & post & Heq & ->); simpl in Heq; injection Heq as -> ->.
    + left. simpl. split; [lia | done].
    + right. exists pre, post. simpl. split; [done | lia].
  - intros [[-> ->] | (pre & post & -> & ->)].
    + exists [], l. simpl. split; [done | lia].
    + exists (c :: pre), post. simpl. split; [done | lia].
Qed.

Lemma block_at_app bp l1 l2 q b :
  block_at bp (l1 ++ l2) q b ↔
  block_at bp l1 q b ∨ block_at (bp + span l1) l2 q b.
Proof.
  revert bp. induction l1 as [| c l1 IH]; intros bp; simpl.
  - rewrite Z.add_0_r. split; [by right | intros [(pre & ? & ? & _) | ?]; [| done]].
    by destruct pre.
  - rewrite !block_at_cons, IH, Z.add_assoc. tauto.
Qed.

Lemma block_at_eq bp bp' bs q b :
  bp = bp' → block_at bp bs q b → block_at bp' bs q b.
Proof. by intros ->. Qed.

Lemma block_at_bounds m bp bs q b :
  blocks m bp bs → block_at bp bs q b →
  bp ≤ q ∧ q + b.1 ≤ bp + span bs ∧ 8 ≤ b.1 ∧ b.1 mod 8 = 0 ∧ tagged m q b.
Proof.
  revert bp. induction bs as [| c bs IH]; intros bp Hbs.
  - intros (pre & ? & ? & _). by destruct pre.
  - destruct Hbs as (? & ? & ? & Hbs). pose proof (blocks_span_nonneg _ _ _ Hbs).
    intros [[-> ->] | Hat]%block_at_cons; simpl.
    + split_and!; try done; lia.
    + destruct (IH _ Hbs Hat) as (? & ? & ? & ? & ?). split_and!; try done; lia.
Qed.

Lemma block_at_disjoint m bp bs q1 b1 q2 b2 :
  blocks m bp bs → block_at bp bs q1 b1 → block_at bp bs q2 b2 →
  q1 = q2 ∧ b1 = b2 ∨ q1 + b1.1 ≤ q2 ∨ q2 + b2.1 ≤ q1.
Proof.
  revert bp. induction bs as [| c bs IH]; intros bp Hbs.
  - intros (pre & ? & ? & _). by destruct pre.
  - destruct Hbs as (? & ? & ? & Hbs).
    intros [[-> ->] | Ha]%block_at_cons [[-> ->] | Hb]%block_at_cons.
    + by left.
    + destruct (block_at_bounds _ _ _ _ _ Hbs Hb). right; left. lia.
    + destruct (block_at_bounds _ _ _ _ _ Hbs Ha). right; right. lia.
    + by apply (IH _ Hbs).
Qed.

Lemma block_at_elem c l q b : block_at c l q b → b ∈ l.
Proof. intros (pre & post & -> & _). apply elem_of_app. right. by left. Qed.

Lemma no_adj_free_app bs1 b1 b2 bs2 :
  no_adj_free (bs1 ++ b1 :: b2 :: bs2) =
  no_adj_free (bs1 ++ [b1]) && (b1.2 || b2.2) && no_adj_free (b2 :: bs2).
Proof.
  induction bs1 as [| b bs1 IH].
  - reflexivity.
  - destruct bs1 as [| b' bs1].
    + change (no_adj_free ([b] ++ b1 :: b2 :: bs2))
        with ((b.2 || b1.2) && no_adj_free (b1 :: b2 :: bs2)).
      change (no_adj_free ([b] ++ [b1])) with ((b.2 || b1.2) && true).
      change (no_adj_free (b1 :: b2 :: bs2))
        with ((b1.2 || b2.2) && no_adj_free (b2 :: bs2)).
      by rewrite andb_true_r, andb_assoc.
    + change (no_adj_free ((b :: b' :: bs1) ++ b1 :: b2 :: bs2))
        with ((b.2 || b'.2) && no_adj_free ((b' :: bs1) ++ b1 :: b2 :: bs2)).
      change (no_adj_free ((b :: b' :: bs1) ++ [b1]))
        with ((b.2 || b'.2) && no_adj_free ((b' :: bs1) ++ [b1])).
      rewrite IH. by rewrite !andb_assoc.
Qed.

Lemma no_adj_free_snoc bs b1 b2 :
  no_adj_free (bs ++ [b1; b2]) = no_adj_free (bs ++ [b1]) && (b1.2 || b2.2).
Proof. rewrite no_adj_free_app. simpl. by rewrite andb_true_r. Qed.

(** ** Coalescing in a chain *)

Lemma coalesced_chain_free p sz post :
  coalesced_chain p (sz, false) post = merged p sz post.
Proof. unfold coalesced_chain, merged. by destruct p as [s1 [|]], post as [| [s2 [|]] t]. Qed.

Ltac same_word H := rewrite <- H; f_equal; lia.

Lemma blocks_eq m bp bp' bs : bp = bp' → blocks m bp bs → blocks m bp' bs.
Proof. by intros ->. Qed.

(** [chain] proves that a memory built by writes holds a chain, from the
    chains and tags known for the memory before the writes. *)
Ltac chain :=
  proj; unfold HDRP, WSIZE, DSIZE;
  repeat match goal with
  | |- _ ∧ _ => split
  | |- blocks _ _ ((_ :: _) ++ _) => cbn [app]
  | |- blocks _ _ (_ ++ _) => apply blocks_app; cbn [span fst snd]
  | |- blocks _ _ (_ :: _) => cbn [blocks fst snd]
  | |- blocks _ _ [] => exact I
  | |- True => exact I
  | |- blocks (<[_ := _]> _) _ _ => apply blocks_insert; [| lia]
  | |- blocks _ _ _ => first [ assumption | eapply blocks_eq; [| eassumption]; lia ]
  | |- tagged _ _ _ => split; cbn [fst snd]
  | |- word _ _ = _ => rd_word; first [ reflexivity | f_equal; lia ]
  | |- @eq Z _ _ => lia
  | |- Z.le _ _ => lia
  | |- Z.lt _ _ => lia
  end.

Lemma coalesce_chain s c pre p sz a0 post :
  lo s ≤ c - 4 →
  blocks (mem s) c (pre ++ p :: (sz, a0) :: post) →
  c + span (pre ++ p :: (sz, a0) :: post) = brk s →
  span (pre ++ p :: (sz, a0) :: post) < 2 ^ 32 →
  word (mem s) (brk s - 4) = tag 0 true →
  ∃ m',
    coalesce (c + span pre + p.1) s =
      Done (c + span pre + (if p.2 then p.1 else 0)) (set_mem m' s) ∧
    blocks m' c (pre ++ coalesced_chain p (sz, a0) post) ∧
    word m' (brk s - 4) = tag 0 true ∧
    (p.2 = true → (post = [] ∨ ∃ s2 t, post = (s2, true) :: t) → m' = mem s) ∧
    (∀ q, q < c + span pre + (if p.2 then p.1 else 0) - 4 ∨
          c + span pre + p.1 + sz + free_head post - 4 ≤ q →
          word m' q = word (mem s) q).
Proof.
  intros Hlo Hbs Hend Hfit Hepi.
  rewrite span_app in Hend, Hfit. simpl in Hend, Hfit.
  apply blocks_app in Hbs as [Hpre Hbs].
  pose proof (blocks_span_nonneg _ _ _ Hpre) as Hpre0.
  destruct p as [s1 a1].
  simpl in Hbs. destruct Hbs as (? & ? & [Hph Hpf] & ? & ? & [Hh Hf] & Hpost).
  pose proof (blocks_span_nonneg _ _ _ Hpost) as Hpost0.
  simpl in *.
  set (bp := c + span pre + s1) in *.
  assert (∃ s2 a2, 0 ≤ s2 ∧ s2 mod 8 = 0 ∧ s2 ≤ span post ∧
            word (mem s) (bp + sz - 4) = tag s2 a2 ∧
            (a2 = false → 8 ≤ s2 ∧
               word (mem s) (bp + sz + s2 - 8) = tag s2 false) ∧
            (post = [] ∧ s2 = 0 ∧ a2 = true ∨
             ∃ t, post = (s2, a2) :: t ∧ 8 ≤ s2))
    as (s2 & a2 & ? & ? & ? & Hnh & Hnf & Hcase).
  { destruct post as [| [s2 a2] t].
    - exists 0, true. simpl in *. split_and!; try done; try lia.
      + same_word Hepi.
      + by left.
    - exists s2, a2. simpl in Hpost. destruct Hpost as (? & ? & [Hnh Hnf] & Ht).
      apply blocks_span_nonneg in Ht. simpl in *.
      split_and!; try done; try lia.
      + intros ->. split; [done |]. same_word Hnf.
      + right. by exists t. }
  exists (coalesced (mem s) bp s1 a1 sz s2 a2).2.
  split.
  { rewrite (coalesce_run s bp s1 a1 sz a0 s2 a2);
      [ | first [ done | subst bp; lia | subst bp; same_word Hph ] .. ].
    f_equal. unfold coalesced. destruct a1, a2; simpl; subst bp; lia. }
  assert (c + span pre - 4 < bp - 4) by (subst bp; lia).
  unfold coalesced, coalesced_chain, merged.
  destruct a1, a2; simpl fst; simpl snd;
    destruct Hcase as [(-> & -> & ?) | (t & -> & ?)]; try done;
    simpl in Hend, Hfit; subst bp;
    try (destruct Hpost as (_ & _ & [Hnh' Hnf'] & Ht);
         pose proof (blocks_span_nonneg _ _ _ Ht); cbn [fst snd] in *);
    (split_and!;
     [ chain | chain
     | try done; intros _ [? | (? & ? & ?)]; done
     | intros q Hq; cbn [free_head] in Hq;
       rewrite ?word_insert_ne by lia; reflexivity ]).
Qed.

Lemma no_adj_free_flags bs bs' :
  bs.*2 = bs'.*2 → no_adj_free bs = no_adj_free bs'.
Proof.
  revert bs'. induction bs as [| b bs IH]; intros [| b' bs'] Heq; try done.
  simpl in Heq. injection Heq as Hb Hbs.
  destruct bs as [| c bs], bs' as [| c' bs']; try done.
  change (no_adj_free (b :: c :: bs)) with ((b.2 || c.2) && no_adj_free (c :: bs)).
  change (no_adj_free (b' :: c' :: bs'))
    with ((b'.2 || c'.2) && no_adj_free (c' :: bs')).
  rewrite (IH (c' :: bs') Hbs). simpl in Hbs. injection Hbs as Hc _.
  by rewrite Hb, Hc.
Qed.

Lemma no_adj_free_cons b bs :
  no_adj_free (b :: bs) = true → no_adj_free bs = true.
Proof. destruct bs as [| c bs]; [done |]. simpl. by intros [_ ?]%andb_prop. Qed.

Lemma no_adj_free_split bs1 bs2 :
  no_adj_free (bs1 ++ bs2) = true →
  no_adj_free bs1 = true ∧ no_adj_free bs2 = true.
Proof.
  induction bs1 as [| b bs1 IH]; [done |].
  intros H. pose proof (no_adj_free_cons _ _ H) as H'.
  apply IH in H' as [H1 H2]. split; [| done].
  destruct bs1 as [| c bs1]; [done |].
  simpl in H. apply andb_prop in H as [Hb _].
  change (no_adj_free (b :: c :: bs1)) with ((b.2 || c.2) && no_adj_free (c :: bs1)).
  by rewrite Hb, H1.
Qed.

(** Coalescing a block whose neighbourhood is otherwise free of adjacent
    free blocks leaves no two adjacent free blocks. *)
Lemma no_adj_free_merged pre p sz post :
  no_adj_free (pre ++ [p]) = true → no_adj_free post = true →
  no_adj_free (pre ++ merged p sz post) = true.
Proof.
  intros Hpre Hpost. unfold merged.
  destruct p as [s1 [|]], post as [| [s2 [|]] t]; cbn [fst snd].
  - rewrite no_adj_free_snoc, Hpre. done.
  - rewrite no_adj_free_app, Hpre. cbn [fst snd orb andb].
    change (no_adj_free ((sz, false) :: (s2, true) :: t))
      with ((false || true) && no_adj_free ((s2, true) :: t)).
    by rewrite Hpost.
  - rewrite no_adj_free_app, Hpre. cbn [fst snd orb andb].
    destruct t as [| [s3 a3] t]; [done |].
    change (no_adj_free ((s2, false) :: (s3, a3) :: t))
      with ((false || a3) && no_adj_free ((s3, a3) :: t)) in Hpost.
    apply andb_prop in Hpost as [Ha Ht]. simpl in Ha. subst a3.
    change (no_adj_free ((sz + s2, false) :: (s3, true) :: t))
      with ((false || true) && no_adj_free ((s3, true) :: t)).
    by rewrite Ht.
  - by rewrite <- (no_adj_free_flags (pre ++ [(s1, false)]))
      by (by rewrite !fmap_app).
  - rewrite no_adj_free_app, Hpost.
    rewrite <- (no_adj_free_flags (pre ++ [(s1, false)]))
      by (by rewrite !fmap_app).
    by rewrite Hpre.
  - destruct t as [| [s3 a3] t].
    + by rewrite <- (no_adj_free_flags (pre ++ [(s1, false)]))
        by (by rewrite !fmap_app).
    + change (no_adj_free ((s2, false) :: (s3, a3) :: t))
        with ((false || a3) && no_adj_free ((s3, a3) :: t)) in Hpost.
      apply andb_prop in Hpost as [Ha Ht]. simpl in Ha. subst a3.
      rewrite no_adj_free_app, Ht.
      rewrite <- (no_adj_free_flags (pre ++ [(s1, false)]))
        by (by rewrite !fmap_app).
      by rewrite Hpre.
Qed.

(** ** The operations on a heap of known shape *)

Lemma heap_shape_span s bs : heap_shape s bs → 8 ≤ span bs < 2 ^ 32.
Proof.
  intros [Hlo Hlim [tl ->] Hbs Hend _]. unfold UINT_MOD, DSIZE in *.
  simpl in Hbs. destruct Hbs as (_ & _ & _ & Htl).
  apply blocks_span_nonneg in Htl. simpl in *. lia.
Qed.

Lemma set_mem_set_mem m1 m2 s : set_mem m2 (set_mem m1 s) = set_mem m2 s.
Proof. reflexivity. Qed.

(** Only the memory changes under [set_mem]. *)
Lemma heap_shape_update s m' bs bs' :
  heap_shape s bs →
  (∃ tl, bs' = (DSIZE, true) :: tl) → span bs' = span bs →
  blocks m' (heap_ptr s) bs' →
  word m' (brk s - 4) = tag 0 true →
  heap_shape (set_mem m' s) bs'.
Proof. intros [] ? Hsp ??. split; proj; try done. by rewrite Hsp. Qed.

Lemma coalesced_chain_prologue pre p b post :
  (∃ tl, pre ++ p :: b :: post = (DSIZE, true) :: tl) →
  ∃ tl, pre ++ coalesced_chain p b post = (DSIZE, true) :: tl.
Proof.
  intros [tl Heq]. destruct pre as [| q pre].
  - simpl in Heq. injection Heq as -> _. unfold coalesced_chain, merged. simpl.
    destruct post as [| [s2 [|]] t]; eauto.
  - simpl in Heq. injection Heq as -> _. simpl. eauto.
Qed.

Lemma span_coalesced_chain p b post :
  span (coalesced_chain p b post) = p.1 + b.1 + span post.
Proof.
  unfold coalesced_chain, merged.
  destruct p as [s1 [|]], b as [sz a0], post as [| [s2 [|]] t]; simpl; lia.
Qed.

Lemma coalesce_shape_frame s pre p sz a0 post :
  heap_shape s (pre ++ p :: (sz, a0) :: post) →
  ∃ m',
    coalesce (heap_ptr s + span pre + p.1) s =
      Done (heap_ptr s + span pre + (if p.2 then p.1 else 0)) (set_mem m' s) ∧
    heap_shape (set_mem m' s) (pre ++ coalesced_chain p (sz, a0) post) ∧
    (p.2 = true → (post = [] ∨ ∃ s2 t, post = (s2, true) :: t) → m' = mem s) ∧
    (∀ q, q < heap_ptr s + span pre + (if p.2 then p.1 else 0) - 4 ∨
          heap_ptr s + span pre + p.1 + sz + free_head post - 4 ≤ q →
          word m' q = word (mem s) q).
Proof.
  intros Hs. pose proof (heap_shape_span _ _ Hs) as Hspan.
  destruct Hs as [Hlo Hlim Hpro Hbs Hend Hepi]. unfold DSIZE, WSIZE in *.
  destruct (coalesce_chain s (heap_ptr s) pre p sz a0 post)
    as (m' & Hrun & Hbs' & Hepi' & Hsame & Hframe); try done; try lia.
  exists m'. split; [done |]. split; [| done].
  split; proj; unfold DSIZE, WSIZE; try done.
  - by apply coalesced_chain_prologue.
  - rewrite <- Hend, !span_app, span_coalesced_chain. simpl. lia.
Qed.

Lemma coalesce_shape_any s pre p sz a0 post :
  heap_shape s (pre ++ p :: (sz, a0) :: post) →
  ∃ m',
    coalesce (heap_ptr s + span pre + p.1) s =
      Done (heap_ptr s + span pre + (if p.2 then p.1 else 0)) (set_mem m' s) ∧
    heap_shape (set_mem m' s) (pre ++ coalesced_chain p (sz, a0) post) ∧
    (p.2 = true → (post = [] ∨ ∃ s2 t, post = (s2, true) :: t) → m' = mem s).
Proof.
  intros Hs.
  destruct (coalesce_shape_frame s pre p sz a0 post Hs) as (m' & ? & ? & ? & _).
  by exists m'.
Qed.

Lemma mm_free_shape_frame s pre p sz post :
  heap_shape s (pre ++ p :: (sz, true) :: post) →
  ∃ m',
    mm_free (heap_ptr s + span pre + p.1) s = Done tt (set_mem m' s) ∧
    heap_shape (set_mem m' s) (pre ++ merged p sz post) ∧
    (∀ q, q < heap_ptr s + span pre + (if p.2 then p.1 else 0) - 4 ∨
          heap_ptr s + span pre + p.1 + sz + free_head post - 4 ≤ q →
          word m' q = word (mem s) q).
Proof.
  intros Hs. pose proof (heap_shape_span _ _ Hs) as Hspan.
  pose proof Hs as [Hlo Hlim Hpro Hbs Hend Hepi]. unfold DSIZE, WSIZE in *.
  rewrite span_app in Hend, Hspan. simpl in Hend, Hspan.
  apply blocks_app in Hbs as [Hpre Hbs].
  pose proof (blocks_span_nonneg _ _ _ Hpre) as Hpre0.
  destruct p as [s1 a1].
  destruct Hbs as (? & ? & [Hph Hpf] & ? & ? & [Hh Hf] & Hpost).
  pose proof (blocks_span_nonneg _ _ _ Hpost) as Hpost0.
  cbn [fst snd] in *.
  set (bp := heap_ptr s + span pre + s1) in *.
  unfold mm_free.
  step GET_SIZE_run. put. step FTRP_run. put.
  match goal with |- context [mbind _ (coalesce bp) ?s1] => set (sf := s1) end.
  destruct (coalesce_shape_frame sf pre (s1, a1) sz false post)
    as (m' & Hrun & Hs' & _ & Hframe).
  { subst sf. rewrite set_mem_set_mem.
    apply (heap_shape_update s _ _ _ Hs).
    - destruct Hpro as [tl Hpro]. unfold DSIZE.
      destruct pre; simpl in *; injection Hpro; intros; subst; eauto.
    - by rewrite !span_app.
    - subst bp. chain.
    - proj. unfold HDRP, WSIZE. rewrite !word_insert_ne by (subst bp; lia). done. }
  rewrite coalesced_chain_free in Hs'.
  change (heap_ptr sf) with (heap_ptr s) in Hrun, Hframe. cbn [fst snd] in Hrun, Hframe.
  fold bp in Hrun, Hframe.
  erewrite (bind_Done _ _ _ _ _ Hrun).
  exists m'. split; [by subst sf; rewrite !set_mem_set_mem |].
  split; [by subst sf; rewrite !set_mem_set_mem in Hs' |].
  intros q Hq. rewrite (Hframe q Hq). subst sf. proj. unfold HDRP, WSIZE.
  assert (0 ≤ free_head post).
  { destruct post as [| [s2 [|]] t]; simpl in *; lia. }
  rewrite !word_insert_ne by (subst bp; destruct a1; lia). done.
Qed.

Lemma span_placed fs asize : span (placed fs asize) = fs.
Proof. unfold placed. case_bool_decide; simpl; lia. Qed.

Lemma place_shape_frame s pre fs post asize :
  heap_shape s (pre ++ (fs, false) :: post) →
  8 ≤ asize ≤ fs → asize mod 8 = 0 →
  ∃ m',
    place (heap_ptr s + span pre) asize s = Done tt (set_mem m' s) ∧
    heap_shape (set_mem m' s) (pre ++ placed fs asize ++ post) ∧
    (∀ q, q < heap_ptr s + span pre - 4 ∨ heap_ptr s + span pre + fs - 4 ≤ q →
          word m' q = word (mem s) q).
Proof.
  intros Hs Hsz Hmod. pose proof (heap_shape_span _ _ Hs) as Hspan.
  pose proof Hs as [Hlo Hlim Hpro Hbs Hend Hepi]. unfold DSIZE, WSIZE in *.
  rewrite span_app in Hend, Hspan. simpl in Hend, Hspan.
  apply blocks_app in Hbs as [Hpre Hbs].
  pose proof (blocks_span_nonneg _ _ _ Hpre) as Hpre0.
  destruct Hbs as (? & ? & [Hh Hf] & Hpost).
  pose proof (blocks_span_nonneg _ _ _ Hpost) as Hpost0.
  cbn [fst snd] in *.
  assert (Hpro' : ∀ l, ∃ tl, pre ++ l = (8, true) :: tl).
  { destruct Hpro as [tl Hpro]. intros l.
    destruct pre; simpl in *; [done |]. injection Hpro; intros; subst; eauto. }
  assert (8 ≤ span pre).
  { destruct Hpro as [tl Hpro].
    destruct pre as [| q pre']; simpl in *; [done |].
    injection Hpro as -> _. simpl in Hpre.
    destruct Hpre as (_ & _ & _ & Hpre). apply blocks_span_nonneg in Hpre.
    simpl. lia. }
  unfold place. step GET_SIZE_run.
  rewrite to_size_small by lia.
  unfold placed, DSIZE. case_bool_decide.
  - put. step FTRP_run. put. step NEXT_BLKP_run. put. step FTRP_run.
    eexists. split.
    { erewrite PUT_run; [ | inb | apply to_uint_PACK_0; valid ].
      rewrite !set_mem_set_mem. reflexivity. }
    split.
    + apply (heap_shape_update s _ _ _ Hs);
        [ apply Hpro' | rewrite !span_app; simpl; lia | chain
        | proj; unfold HDRP, WSIZE; rewrite !word_insert_ne by lia; done ].
    + intros q Hq. proj. unfold HDRP, WSIZE. rewrite !word_insert_ne by lia. done.
  - put. step FTRP_run.
    eexists. split.
    { erewrite PUT_run; [ | inb | apply to_uint_PACK_1; valid ].
      rewrite !set_mem_set_mem. reflexivity. }
    split.
    + apply (heap_shape_update s _ _ _ Hs);
        [ apply Hpro' | rewrite !span_app; simpl; lia | chain
        | proj; unfold HDRP, WSIZE; rewrite !word_insert_ne by lia; done ].
    + intros q Hq. proj. unfold HDRP, WSIZE. rewrite !word_insert_ne by lia. done.
Qed.

Lemma place_shape s pre fs post asize :
  heap_shape s (pre ++ (fs, false) :: post) →
  8 ≤ asize ≤ fs → asize mod 8 = 0 →
  ∃ m',
    place (heap_ptr s + span pre) asize s = Done tt (set_mem m' s) ∧
    heap_shape (set_mem m' s) (pre ++ placed fs asize ++ post).
Proof.
  intros Hs Hsz Hmod.
  destruct (place_shape_frame s pre fs post asize Hs Hsz Hmod) as (m' & ? & ? & _).
  by exists m'.
Qed.

(** ** First fit *)

Lemma blocks_length m bp bs : blocks m bp bs → 8 * Z.of_nat (length bs) ≤ span bs.
Proof.
  revert bp. induction bs as [| b bs IH]; simpl; intros bp; [lia |].
  intros (? & ? & ? & Hbs). apply IH in Hbs. lia.
Qed.

Lemma iterate_nat_add {X R} (body : X → M (X + R)) n m : ∀ x s,
  iterate_nat (n + m) body x s =
  (r ← iterate_nat n body x;
   match r with
   | inl x' => iterate_nat m body x'
   | inr v => mret (inr v)
   end) s.
Proof.
  induction n as [| n IH]; intros x s; [done |].
  cbn [iterate_nat Nat.add]. unfold mbind, M_bind in *.
  destruct (body x s) as [[x' | v] s1 | |]; [apply IH | done ..].
Qed.

Lemma iterate_unary {X R} (body : X → M (X + R)) fuel : ∀ x s,
  iterate fuel body x s = iterate_nat (Pos.to_nat fuel) body x s.
Proof.
  induction fuel as [fuel IH | fuel IH |]; intros x s.
  - rewrite Pos2Nat.inj_xI. replace (S (2 * Pos.to_nat fuel))
      with (S (Pos.to_nat fuel + Pos.to_nat fuel)) by lia.
    cbn [iterate iterate_nat]. unfold mbind, M_bind.
    destruct (body x s) as [[x' | v] s1 | |]; [| done ..].
    rewrite iterate_nat_add. unfold mbind, M_bind. rewrite IH.
    destruct (iterate_nat _ body x' s1) as [[x'' | v] s2 | |]; [apply IH | done ..].
  - rewrite Pos2Nat.inj_xO. replace (2 * Pos.to_nat fuel)%nat
      with (Pos.to_nat fuel + Pos.to_nat fuel)%nat by lia.
    cbn [iterate]. rewrite iterate_nat_add. unfold mbind, M_bind. rewrite IH.
    destruct (iterate_nat _ body x s) as [[x' | v] s1 | |]; [apply IH | done ..].
  - cbn [iterate]. change (Pos.to_nat 1) with 1%nat. cbn [iterate_nat].
    unfold mbind, M_bind. by destruct (body x s) as [[x' | v] s1 | |].
Qed.

Lemma loop_unary {X R} (body : X → M (X + R)) fuel x s v s' :
  iterate_nat (Pos.to_nat fuel) body x s = Done (inr v) s' →
  loop fuel body x s = Done v s'.
Proof.
  intros H. unfold loop.
  by rewrite (bind_Done _ _ _ _ _ (eq_trans (iterate_unary body fuel x s) H)).
Qed.

Lemma loop_fuel_enough s bp :
  (Z.to_nat (brk s + 8 - bp) < Pos.to_nat (loop_fuel s bp))%nat.
Proof. unfold loop_fuel, DSIZE. lia. Qed.

Lemma find_fit_step_block s size bp sz a :
  in_heap s (bp - 4) → 8 ≤ sz < 2 ^ 32 → sz mod 8 = 0 →
  word (mem s) (bp - 4) = tag sz a →
  find_fit_step size bp s =
    Done (if negb a && bool_decide (size ≤ sz) then inr bp else inl (bp + sz)) s.
Proof.
  intros Hin Hsz Hm Hw. unfold find_fit_step.
  step GET_SIZE_run. rewrite bool_decide_true by lia.
  step GET_ALLOC_run. step GET_SIZE_run.
  destruct a; flags.
  - by step NEXT_BLKP_run.
  - case_bool_decide; cbn [andb]; [done |]. by step NEXT_BLKP_run.
Qed.

Lemma find_fit_step_epilogue s size bp :
  in_heap s (bp - 4) → word (mem s) (bp - 4) = tag 0 true →
  find_fit_step size bp s = Done (inr NULL) s.
Proof.
  intros Hin Hw. unfold find_fit_step.
  step GET_SIZE_run. by rewrite bool_decide_false by lia.
Qed.

Lemma find_fit_iterate_chain s size bs : ∀ n bp,
  (length bs < n)%nat →
  lo s ≤ bp - 4 →
  blocks (mem s) bp bs → bp + span bs = brk s → span bs < 2 ^ 32 →
  word (mem s) (brk s - 4) = tag 0 true →
  iterate_nat n (find_fit_step size) bp s = Done (inr (first_fit size bp bs)) s.
Proof.
  induction bs as [| [sz a] bs IH]; intros n bp Hfuel Hlo Hbs Hend Hfit Hepi;
    (destruct n as [| n]; [simpl in Hfuel; lia |]); simpl in Hend, Hfit;
    cbn [iterate_nat first_fit fst snd].
  - assert (Hw : word (mem s) (bp - 4) = tag 0 true) by same_word Hepi.
    by rewrite (bind_Done _ _ _ _ _ (find_fit_step_epilogue s size bp ltac:(inb) Hw)).
  - destruct Hbs as (? & ? & [Hh Hf] & Hbs).
    pose proof (blocks_span_nonneg _ _ _ Hbs). cbn [fst snd] in *.
    rewrite (bind_Done _ _ _ _ _ (find_fit_step_block s size bp sz a
               ltac:(inb) ltac:(lia) ltac:(done) Hh)).
    destruct (negb a && bool_decide (size ≤ sz)); [done |].
    apply IH; try done; try lia. simpl in Hfuel. lia.
Qed.

Lemma find_fit_shape s bs size :
  heap_shape s bs → find_fit size s = Done (first_fit size (heap_ptr s) bs) s.
Proof.
  intros Hs. pose proof (heap_shape_span _ _ Hs) as Hspan.
  destruct Hs as [Hlo Hlim Hpro Hbs Hend Hepi]. unfold DSIZE, WSIZE in *.
  unfold find_fit. apply loop_unary.
  apply find_fit_iterate_chain; try done; try lia.
  apply blocks_length in Hbs. pose proof (loop_fuel_enough s (heap_ptr s)). lia.
Qed.

(** The loop of [find_fit] never runs out of the fuel [find_fit] gives it,
    whatever the memory holds: it ends by a [return] or by a fault. *)
Lemma find_fit_iterate_returns s size : ∀ n bp,
  (Z.to_nat (brk s + 8 - bp) < n)%nat →
  (∃ r, iterate_nat n (find_fit_step size) bp s = Done (inr r) s) ∨
  iterate_nat n (find_fit_step size) bp s = Fault.
Proof.
  induction n as [| n IH]; intros bp Hfuel; [lia |].
  cbn [iterate_nat].
  destruct (decide (in_heap s (bp - 4))) as [Hin | Hout].
  - pose proof (size_bits_range (word (mem s) (bp - 4))) as [Hr Hm].
    assert (Hstep : find_fit_step size bp s = Done (inr NULL) s ∨
                    find_fit_step size bp s = Done (inr bp) s ∨
                    ∃ sz, 8 ≤ sz ∧ find_fit_step size bp s = Done (inl (bp + sz)) s).
    { unfold find_fit_step, HDRP, WSIZE.
      rewrite (bind_Done _ _ _ _ _ (GET_SIZE_run _ _ _ Hin eq_refl)).
      case_bool_decide; [| by left].
      rewrite (bind_Done _ _ _ _ _ (GET_ALLOC_run _ _ _ Hin eq_refl)).
      rewrite (bind_Done _ _ _ _ _ (GET_SIZE_run _ _ _ Hin eq_refl)).
      destruct (_ && _); [by right; left |].
      rewrite (bind_Done _ _ _ _ _ (NEXT_BLKP_run _ _ _ Hin eq_refl)).
      right; right. eexists. split; [| reflexivity]. lia. }
    destruct Hstep as [Hstep | [Hstep | (sz & Hsz & Hstep)]];
      rewrite (bind_Done _ _ _ _ _ Hstep); [left; eauto | left; eauto |].
    apply IH. unfold in_heap, WSIZE in Hin. lia.
  - right. apply bind_Fault. unfold find_fit_step.
    apply bind_Fault. unfold GET_SIZE. apply bind_Fault.
    unfold GET, HDRP, WSIZE. by rewrite decide_False.
Qed.

Lemma find_fit_no_timeout s size : find_fit size s ≠ Timeout.
Proof.
  unfold find_fit, loop, mbind, M_bind. rewrite iterate_unary.
  destruct (find_fit_iterate_returns s size _ (heap_ptr s)
              (loop_fuel_enough s (heap_ptr s))) as [[r ->] | ->]; done.
Qed.

(** What [first_fit] finds, in terms of the chain. *)
Lemma first_fit_found size bp bs :
  (∀ b, b ∈ bs → 0 < b.1) → 0 < bp →
  first_fit size bp bs ≠ NULL →
  ∃ pre fs post,
    bs = pre ++ (fs, false) :: post ∧ first_fit size bp bs = bp + span pre ∧
    size ≤ fs ∧ Forall (λ b : block, b.2 = true ∨ b.1 < size) pre.
Proof.
  revert bp. induction bs as [| [sz a] bs IH]; intros bp Hpos Hbp; [done |].
  cbn [first_fit fst snd]. destruct a; cbn [negb andb].
  - intros Hne. destruct (IH (bp + sz)) as (pre & fs & post & -> & Heq & ? & ?);
      [ intros; apply Hpos; by right
      | specialize (Hpos (sz, true)); simpl in Hpos;
        assert (0 < sz) by (apply Hpos; by left); lia
      | done | ].
    exists ((sz, true) :: pre), fs, post. rewrite Heq. simpl.
    split_and!; try done; try lia. constructor; [by left | done].
  - case_bool_decide.
    + intros _. exists [], sz, bs. simpl. split_and!; try done; lia.
    + intros Hne. destruct (IH (bp + sz)) as (pre & fs & post & -> & Heq & ? & ?);
        [ intros; apply Hpos; by right
        | specialize (Hpos (sz, false)); simpl in Hpos;
          assert (0 < sz) by (apply Hpos; by left); lia
        | done | ].
      exists ((sz, false) :: pre), fs, post. rewrite Heq. simpl.
      split_and!; try done; try lia. constructor; [right; simpl; lia | done].
Qed.

Lemma first_fit_none size bp bs :
  first_fit size bp bs = NULL → 0 < bp → (∀ b, b ∈ bs → 0 < b.1) →
  Forall (λ b : block, b.2 = true ∨ b.1 < size) bs.
Proof.
  revert bp. induction bs as [| [sz a] bs IH]; intros bp Heq Hbp Hpos; [done |].
  assert (0 < sz) by (apply (Hpos (sz, a)); by left).
  cbn [first_fit fst snd] in Heq. destruct a; cbn [negb andb] in Heq.
  - constructor; [by left |]. apply (IH (bp + sz)); [done | lia |].
    intros; apply Hpos; by right.
  - case_bool_decide; [unfold NULL in *; lia |].
    constructor; [right; simpl; lia |]. apply (IH (bp + sz)); [done | lia |].
    intros; apply Hpos; by right.
Qed.

(** ** Growing the heap *)

Lemma to_intptr_small v : 0 ≤ v < 2 ^ 63 → to_intptr v = v.
Proof.
  intros. unfold to_intptr. rewrite to_size_small by lia. by rewrite decide_True by lia.
Qed.

Lemma sbrk_ok s size :
  0 ≤ size < 2 ^ 63 → lo s ≤ brk s → brk s + size ≤ lim s →
  sbrk size s = Done (brk s) (set_brk (brk s + size) s).
Proof.
  intros. unfold sbrk. rewrite to_intptr_small by done.
  by rewrite decide_True by lia.
Qed.

Lemma sbrk_fail s size :
  ¬ (lo s ≤ brk s + to_intptr size ∧ brk s + to_intptr size ≤ lim s) →
  sbrk size s = Done SBRK_FAILED s.
Proof. intros. unfold sbrk. by rewrite decide_False. Qed.

Lemma extend_heap_fail s words :
  ¬ (lo s ≤ brk s + to_intptr (extend_bytes words) ∧
     brk s + to_intptr (extend_bytes words) ≤ lim s) →
  extend_heap words s = Done NULL s.
Proof.
  intros Hno. unfold extend_heap.
  rewrite (bind_Done _ _ _ _ _ (sbrk_fail _ _ Hno)). done.
Qed.

Lemma extend_heap_shape_frame s pre p words size :
  heap_shape s (pre ++ [p]) →
  extend_bytes words = size → 8 ≤ size → size mod 8 = 0 →
  brk s + size ≤ lim s →
  ∃ m',
    extend_heap words s =
      Done (heap_ptr s + span pre + (if p.2 then p.1 else 0))
           (set_mem m' (set_brk (brk s + size) s)) ∧
    heap_shape (set_mem m' (set_brk (brk s + size) s)) (pre ++ merged p size []) ∧
    (∀ q, q < heap_ptr s + span pre + (if p.2 then p.1 else 0) - 4 →
          word m' q = word (mem s) q).
Proof.
  intros Hs Hsize H8 Hmod Hroom. pose proof (heap_shape_span _ _ Hs) as Hspan.
  pose proof Hs as [Hlo Hlim Hpro Hbs Hend Hepi].
  unfold DSIZE, WSIZE, UINT_MOD in *.
  rewrite span_app in Hend, Hspan. simpl in Hend, Hspan.
  pose proof Hbs as Hbs0.
  apply blocks_app in Hbs as [Hpre Hbs].
  pose proof (blocks_span_nonneg _ _ _ Hpre) as Hpre0.
  destruct p as [s1 a1].
  destruct Hbs as (? & ? & [Hph Hpf] & _). cbn [fst snd] in *.
  unfold extend_heap. rewrite Hsize.
  rewrite (bind_Done _ _ _ _ _ (sbrk_ok s size ltac:(lia) ltac:(lia) Hroom)).
  rewrite bool_decide_false by (unfold SBRK_FAILED; lia).
  put. step FTRP_run. put. step NEXT_BLKP_run. put.
  rewrite !set_mem_set_mem.
  match goal with |- context [coalesce (brk s) ?s1] => set (sf := s1) end.
  destruct (coalesce_shape_frame sf pre (s1, a1) size false [])
    as (m' & Hrun & Hs' & _ & Hframe).
  { subst sf. split; proj; unfold DSIZE, WSIZE, UINT_MOD; try done; try lia.
    - destruct Hpro as [tl Hpro].
      destruct pre; simpl in *; injection Hpro; intros; subst; eauto.
    - chain.
    - rewrite !span_app. simpl. lia.
    - unfold HDRP, WSIZE. rewrite word_insert_eq by lia. done. }
  rewrite coalesced_chain_free in Hs'.
  change (heap_ptr sf) with (heap_ptr s) in Hrun, Hframe. cbn [fst snd] in Hrun, Hframe.
  replace (heap_ptr s + span pre + s1) with (brk s) in Hrun by lia.
  rewrite Hrun.
  exists m'. split; [by subst sf; rewrite !set_mem_set_mem |].
  split; [by subst sf; rewrite !set_mem_set_mem in Hs' |].
  intros q Hq. rewrite (Hframe q (or_introl Hq)). subst sf. proj. unfold HDRP, WSIZE.
  rewrite !word_insert_ne by (destruct a1; lia). done.
Qed.

Lemma extend_heap_shape s pre p words size :
  heap_shape s (pre ++ [p]) →
  extend_bytes words = size → 8 ≤ size → size mod 8 = 0 →
  brk s + size ≤ lim s →
  ∃ m',
    extend_heap words s =
      Done (heap_ptr s + span pre + (if p.2 then p.1 else 0))
           (set_mem m' (set_brk (brk s + size) s)) ∧
    heap_shape (set_mem m' (set_brk (brk s + size) s)) (pre ++ merged p size []).
Proof.
  intros Hs Hsize H8 Hmod Hroom.
  destruct (extend_heap_shape_frame s pre p words size Hs Hsize H8 Hmod Hroom)
    as (m' & ? & ? & _).
  by exists m'.
Qed.

(** ** Initialisation *)

Lemma sentinels_shape s0 :
  0 ≤ lo s0 ≤ brk s0 → brk s0 + 16 ≤ lim s0 → lim s0 - brk s0 < 2 ^ 32 →
  heap_shape (sentinels s0) [(DSIZE, true)].
Proof.
  intros. unfold sentinels, DSIZE.
  split; cbn [mem lo brk lim heap_ptr]; unfold DSIZE, WSIZE, UINT_MOD;
    try lia; eauto.
  - chain.
  - simpl. lia.
  - rewrite word_insert_eq by lia. done.
Qed.

Lemma mm_init_no_memory s0 :
  lo s0 ≤ brk s0 → lim s0 < brk s0 + 16 →
  mm_init s0 = Done (-1) (set_heap_ptr SBRK_FAILED s0).
Proof.
  intros. unfold mm_init.
  assert (Hf : sbrk (4 * WSIZE) s0 = Done SBRK_FAILED s0).
  { apply sbrk_fail. change (to_intptr (4 * WSIZE)) with 16. lia. }
  rewrite (bind_Done _ _ _ _ _ Hf). done.
Qed.

(** [mm_init] up to the call of [extend_heap]. *)
Lemma mm_init_sentinels s0 :
  0 ≤ lo s0 ≤ brk s0 → brk s0 + 16 ≤ lim s0 →
  mm_init s0 =
  (extended_heap_ptr ← extend_heap (CHUNKSIZE / WSIZE);
   if bool_decide (extended_heap_ptr = NULL) then mret (-1) else mret 0)
    (sentinels s0).
Proof.
  intros. unfold mm_init.
  rewrite (bind_Done _ _ _ _ _ (sbrk_ok s0 (4 * WSIZE) ltac:(unfold WSIZE; lia)
                                   ltac:(lia) ltac:(unfold WSIZE; lia))).
  unfold put_heap_ptr, get_heap_ptr.
  do 2 (erewrite (bind_Done _ _ _ _ _); [| reflexivity]).
  cbn [heap_ptr set_heap_ptr set_brk].
  rewrite bool_decide_false by (unfold SBRK_FAILED; lia).
  erewrite (bind_Done _ _ _ _ _); [| reflexivity]. put.
  erewrite (bind_Done _ _ _ _ _); [| reflexivity]. put.
  erewrite (bind_Done _ _ _ _ _); [| reflexivity]. put.
  erewrite (bind_Done _ _ _ _ _); [| reflexivity]. put.
  do 2 (erewrite (bind_Done _ _ _ _ _); [| reflexivity]).
  f_equal; unfold sentinels, set_mem, set_heap_ptr, WSIZE, DSIZE;
    cbn [mem lo brk lim heap_ptr]; change (to_uint 0) with 0;
    repeat (f_equal; try lia).
Qed.

Lemma extend_bytes_chunk : extend_bytes (CHUNKSIZE / WSIZE) = 4096.
Proof. reflexivity. Qed.

Lemma mm_init_no_chunk s0 :
  0 ≤ lo s0 ≤ brk s0 → brk s0 + 16 ≤ lim s0 → lim s0 < brk s0 + 16 + 4096 →
  mm_init s0 = Done (-1) (sentinels s0).
Proof.
  intros. rewrite mm_init_sentinels by done.
  rewrite (bind_Done _ _ _ _ _ (extend_heap_fail (sentinels s0) _
    ltac:(rewrite extend_bytes_chunk; change (to_intptr 4096) with 4096;
          unfold sentinels; cbn [lo brk lim]; lia))).
  done.
Qed.

Lemma mm_init_shape s0 :
  0 ≤ lo s0 ≤ brk s0 → brk s0 + 16 + 4096 ≤ lim s0 → lim s0 - brk s0 < 2 ^ 32 →
  ∃ m',
    mm_init s0 =
      Done 0 (mkState m' (lo s0) (brk s0 + 16 + 4096) (lim s0) (brk s0 + 8)) ∧
    heap_shape (mkState m' (lo s0) (brk s0 + 16 + 4096) (lim s0) (brk s0 + 8))
      [(DSIZE, true); (CHUNKSIZE, false)].
Proof.
  intros. rewrite mm_init_sentinels by lia.
  destruct (extend_heap_shape (sentinels s0) [] (DSIZE, true)
              (CHUNKSIZE / WSIZE) 4096) as (m' & Hrun & Hs');
    [ apply sentinels_shape; lia | reflexivity | lia | reflexivity
    | unfold sentinels; cbn [lo brk lim]; lia | ].
  exists m'. rewrite (bind_Done _ _ _ _ _ Hrun).
  cbn [fst snd span] in *. unfold sentinels in *. cbn [heap_ptr brk] in *.
  rewrite bool_decide_false by (unfold NULL, DSIZE; lia).
  split; [done |]. exact Hs'.
Qed.

(** ** Request sizes *)

Lemma adjusted_size_sane n :
  0 < n ≤ REQUEST_MAX →
  adjusted_size n = Z.max (2 * DSIZE) (DSIZE * ((n + DSIZE + (DSIZE - 1)) / DSIZE)) ∧
  16 ≤ adjusted_size n ∧ adjusted_size n mod 8 = 0 ∧
  n + 8 ≤ adjusted_size n ∧ adjusted_size n < 2 ^ 63 - 8.
Proof.
  unfold REQUEST_MAX, adjusted_size, to_size, SIZE_MOD, DSIZE. intros Hn.
  case_bool_decide.
  - lia.
  - rewrite (Z.mod_small (8 + n)) by lia.
    rewrite (Z.mod_small (8 + n + 8 - 1)) by lia.
    rewrite Z.mod_small by lia. lia.
Qed.

(** The bytes by which [mm_malloc] grows the heap for an adjusted size. *)
Lemma extend_bytes_words a :
  16 ≤ a < 2 ^ 63 - 8 → a mod 8 = 0 →
  extend_bytes (extend_words a) = if bool_decide (CHUNKSIZE < a) then a + 8 else CHUNKSIZE.
Proof.
  intros Ha Hm. unfold extend_words. case_bool_decide; [| reflexivity].
  unfold extend_bytes, to_size, SIZE_MOD, WSIZE.
  rewrite (Z.mod_small (a / 4 + 1)) by lia.
  rewrite bool_decide_true by lia.
  rewrite (Z.mod_small (a / 4 + 1 + 1)) by lia.
  rewrite Z.mod_small by lia. lia.
Qed.

(** ** Allocated blocks of a chain *)

Lemma allocated_app bp bs1 bs2 :
  allocated bp (bs1 ++ bs2) = allocated bp bs1 ++ allocated (bp + span bs1) bs2.
Proof.
  revert bp. induction bs1 as [| b bs1 IH]; simpl; intros bp.
  - by rewrite Z.add_0_r.
  - by rewrite IH, Z.add_assoc, app_assoc.
Qed.

Lemma elem_of_allocated q bp bs :
  q ∈ allocated bp bs ↔
  ∃ pre sz post, bs = pre ++ (sz, true) :: post ∧ q = bp + span pre.
Proof.
  revert bp. induction bs as [| [sz a] bs IH]; intros bp; simpl.
  - split; [by intros ?%elem_of_nil |]. intros (pre & ? & ? & Heq & _).
    by destruct pre.
  - rewrite elem_of_app, IH. split.
    + intros [Hq | (pre & sz' & post & -> & ->)].
      * destruct a; [| by apply elem_of_nil in Hq].
        apply list_elem_of_singleton in Hq as ->.
        exists [], sz, bs. simpl. split; [done | lia].
      * exists ((sz, a) :: pre), sz', post. simpl. split; [done | lia].
    + intros (pre & sz' & post & Heq & ->). destruct pre as [| b pre].
      * simpl in Heq. injection Heq; intros; subst. left. simpl.
        rewrite Z.add_0_r. by apply list_elem_of_singleton.
      * simpl in Heq. injection Heq; intros; subst. right.
        exists pre, sz', post. simpl. split; [done | lia].
Qed.

Lemma elem_of_allocated_at q bp bs :
  q ∈ allocated bp bs ↔ ∃ sz, block_at bp bs q (sz, true).
Proof.
  rewrite elem_of_allocated. unfold block_at. split.
  - intros (pre & sz & post & ? & ?). by exists sz, pre, post.
  - intros (sz & pre & post & ? & ?). by exists pre, sz, post.
Qed.

Lemma allocated_merged c pre p sz post q :
  q ∈ allocated c (pre ++ p :: (sz, true) :: post) →
  q ≠ c + span pre + p.1 →
  q ∈ allocated c (pre ++ merged p sz post).
Proof.
  rewrite !allocated_app. rewrite !elem_of_app.
  intros [Hq | Hq] Hne; [by left | right].
  revert Hq. unfold merged.
  destruct p as [s1 [|]], post as [| [s2 [|]] t]; cbn [allocated fst snd app];
    rewrite ?elem_of_cons, ?elem_of_app, ?elem_of_cons; cbn [fst snd] in *;
    rewrite ?Z.add_assoc; intros; destruct_or?; eauto; try lia.
Qed.

Lemma allocated_placed c pre fs asize post q :
  q ∈ allocated c (pre ++ (fs, false) :: post) ∨ q = c + span pre →
  q ∈ allocated c (pre ++ placed fs asize ++ post).
Proof.
  rewrite !allocated_app. rewrite !elem_of_app. rewrite span_placed.
  unfold placed. case_bool_decide; cbn [allocated fst snd app];
    rewrite ?elem_of_cons, ?elem_of_app;
    replace (c + span pre + asize + (fs - asize)) with (c + span pre + fs) by lia;
    intros; destruct_or?; eauto.
Qed.

(** ** Allocated blocks before and after an operation *)

(** An allocated block other than the released one is a block of the chain
    after coalescing, and lies outside the free block that results. *)
Lemma block_at_merged m c pre p sz post q b :
  blocks m c (pre ++ p :: (sz, true) :: post) →
  block_at c (pre ++ p :: (sz, true) :: post) q (b, true) →
  q ≠ c + span pre + p.1 →
  block_at c (pre ++ merged p sz post) q (b, true) ∧
  (q + b ≤ c + span pre + (if p.2 then p.1 else 0) ∨
   c + span pre + p.1 + sz + free_head post ≤ q).
Proof.
  intros Hbs Hat Hne.
  apply blocks_app in Hbs as [Hpre Hbs].
  destruct p as [s1 a1]. destruct Hbs as (? & ? & _ & ? & ? & _ & Hpost).
  cbn [fst snd] in *.
  apply block_at_app in Hat as [Hat | Hat].
  { destruct (block_at_bounds _ _ _ _ _ Hpre Hat) as (_ & ? & _).
    split; [apply block_at_app; by left |]. left. simpl in *. destruct a1; lia. }
  rewrite block_at_app. unfold merged. cbn [fst snd].
  apply block_at_cons in Hat as [[-> [= -> <-]] | Hat].
  { split; [| left; simpl; lia]. right.
    destruct post as [| [s2 [|]] t]; apply block_at_cons; by left. }
  apply block_at_cons in Hat as [[-> _] | Hat]; [simpl in Hne; lia |].
  cbn [fst snd] in Hat.
  destruct (block_at_bounds _ _ _ _ _ Hpost Hat) as (? & _).
  destruct post as [| [s2 a2] t]; [by destruct Hat as ([|??] & ? & ? & _) |].
  destruct Hpost as (? & ? & _ & Ht). cbn [fst snd] in *.
  apply block_at_cons in Hat as [[-> [= -> <-]] | Hat].
  { split; [| right; simpl; lia]. right.
    destruct a1; rewrite !block_at_cons; cbn [fst snd].
    - right; right; left. split; [lia | done].
    - right; left. split; [lia | done]. }
  cbn [fst snd] in Hat.
  destruct (block_at_bounds _ _ _ _ _ Ht Hat) as (? & _).
  split; [| right; destruct a2; simpl; lia]. right.
  destruct a1, a2; rewrite !block_at_cons; cbn [fst snd]; repeat right;
    (eapply block_at_eq; [| exact Hat]); lia.
Qed.

(** An allocated block of the chain after coalescing was an allocated block
    before, and is not the one that was released. *)
Lemma block_at_merged_inv m c pre p sz post q b :
  blocks m c (pre ++ p :: (sz, true) :: post) →
  block_at c (pre ++ merged p sz post) q (b, true) →
  block_at c (pre ++ p :: (sz, true) :: post) q (b, true) ∧
  q ≠ c + span pre + p.1.
Proof.
  intros Hbs Hat.
  apply blocks_app in Hbs as [Hpre Hbs].
  destruct p as [s1 a1]. destruct Hbs as (? & ? & _ & ? & ? & _ & Hpost).
  cbn [fst snd] in *.
  rewrite block_at_app, !block_at_cons. cbn [fst snd].
  apply block_at_app in Hat as [Hat | Hat].
  { destruct (block_at_bounds _ _ _ _ _ Hpre Hat) as (_ & ? & ? & _).
    split; [by left |]. simpl in *. lia. }
  revert Hat. unfold merged. cbn [fst snd].
  destruct a1, post as [| [s2 [|]] t]; rewrite ?block_at_cons; cbn [fst snd];
    try (destruct Hpost as (? & ? & _ & Ht); cbn [fst snd] in * );
    intros Hat; destruct_or?; destruct_and?; simplify_eq;
    try (by destruct Hat as ([|??] & ? & ? & _));
    try match goal with
    | Ht : blocks m ?X t, H : block_at ?Y t _ _ |- _ =>
        let Heq := fresh in
        assert (Y = X) as Heq by lia;
        pose proof (proj1 (block_at_bounds _ _ _ _ _ Ht
                             (block_at_eq _ _ _ _ _ Heq H)))
    end;
    (split; [| lia]);
    first [ by right; left; split; [lia |]
          | by do 3 right; left; split; [lia |]
          | do 4 right; eapply block_at_eq; [| eassumption]; lia ].
Qed.

(** The released block lies inside a free block of the chain after
    coalescing. *)
Lemma merged_free_block c pre p sz post :
  block_at c (pre ++ merged p sz post)
    (c + span pre + (if p.2 then p.1 else 0))
    ((if p.2 then 0 else p.1) + sz + free_head post, false).
Proof.
  apply block_at_app. right. unfold merged.
  destruct p as [s1 [|]], post as [| [s2 [|]] t]; cbn [fst snd free_head];
    rewrite !block_at_cons; cbn [fst snd];
    first [ left; split; [lia | f_equal; lia]
          | right; left; split; [lia | f_equal; lia] ].
Qed.

Lemma block_at_placed m c pre fs a post q b :
  blocks m c (pre ++ (fs, false) :: post) →
  block_at c (pre ++ (fs, false) :: post) q (b, true) →
  block_at c (pre ++ placed fs a ++ post) q (b, true) ∧
  (q + b ≤ c + span pre ∨ c + span pre + fs ≤ q).
Proof.
  intros Hbs Hat. apply blocks_app in Hbs as [Hpre (_ & _ & _ & Hpost)].
  cbn [fst snd] in *. rewrite !block_at_app, span_placed.
  apply block_at_app in Hat as [Hat | Hat].
  { destruct (block_at_bounds _ _ _ _ _ Hpre Hat) as (_ & ? & _).
    split; [by left | left; simpl in *; lia]. }
  apply block_at_cons in Hat as [[_ [=]] | Hat]. cbn [fst snd] in Hat.
  destruct (block_at_bounds _ _ _ _ _ Hpost Hat) as (? & _).
  split; [by right; right | right; lia].
Qed.

(** An allocated block of the chain after placement is the placed block or
    was an allocated block before. *)
Lemma block_at_placed_inv c pre fs a post q b :
  block_at c (pre ++ placed fs a ++ post) q (b, true) →
  q = c + span pre ∨ block_at c (pre ++ (fs, false) :: post) q (b, true).
Proof.
  rewrite !block_at_app, block_at_cons, span_placed. cbn [fst snd].
  intros [Hat | [Hat | Hat]]; [by right; left | | by right; right; right].
  left. revert Hat. unfold placed.
  case_bool_decide; rewrite ?block_at_cons; cbn [fst snd];
    intros Hat; destruct_or?; destruct_and?; simplify_eq; try done;
    by destruct Hat as ([|??] & ? & ? & _).
Qed.

Lemma placed_block c pre fs a post :
  a ≤ fs →
  ∃ b, block_at c (pre ++ placed fs a ++ post) (c + span pre) (b, true) ∧
       a ≤ b < a + 2 * DSIZE ∧ b ≤ fs.
Proof.
  intros Ha. unfold placed, DSIZE. case_bool_decide.
  - exists a. split; [| lia]. apply block_at_app. right.
    apply block_at_cons. by left.
  - exists fs. split; [| lia]. apply block_at_app. right.
    apply block_at_cons. by left.
Qed.

(** An allocated block separates the chain for [no_adj_free]. *)
Lemma no_adj_free_alloc bs1 x bs2 :
  no_adj_free (bs1 ++ (x, true) :: bs2) = no_adj_free bs1 && no_adj_free bs2.
Proof.
  induction bs1 as [| b bs1 IH].
  - destruct bs2 as [| c bs2]; [done |]. reflexivity.
  - destruct bs1 as [| b' bs1].
    + change (no_adj_free ([b] ++ (x, true) :: bs2))
        with ((b.2 || true) && no_adj_free ([] ++ (x, true) :: bs2)).
      rewrite IH. by rewrite orb_true_r.
    + change (no_adj_free ((b :: b' :: bs1) ++ (x, true) :: bs2))
        with ((b.2 || b'.2) && no_adj_free ((b' :: bs1) ++ (x, true) :: bs2)).
      change (no_adj_free (b :: b' :: bs1))
        with ((b.2 || b'.2) && no_adj_free (b' :: bs1)).
      rewrite IH. by rewrite andb_assoc.
Qed.

Lemma no_adj_free_placed pre fs asize post :
  no_adj_free (pre ++ (fs, false) :: post) = true →
  no_adj_free (pre ++ placed fs asize ++ post) = true.
Proof.
  intros H. apply no_adj_free_split in H as [Hpre Hpost].
  unfold placed. case_bool_decide; cbn [app].
  - rewrite no_adj_free_alloc, Hpre.
    by rewrite (no_adj_free_flags _ ((fs, false) :: post)).
  - rewrite no_adj_free_alloc, Hpre. by apply no_adj_free_cons in Hpost.
Qed.

Lemma min_ok_merged pre p sz a post :
  (∃ tl, pre ++ p :: (sz, a) :: post = (DSIZE, true) :: tl) →
  min_ok (pre ++ p :: (sz, a) :: post) → min_ok (pre ++ merged p sz post).
Proof.
  unfold min_ok, DSIZE. intros [tl Heq].
  destruct pre as [| q pre]; simpl in Heq; injection Heq as -> _; cbn [app tail].
  - unfold merged. cbn [fst snd].
    destruct post as [| [s2 [|]] t]; cbn [tail]; rewrite ?Forall_cons; cbn [fst snd];
      intros; destruct_and?; split_and?; try done; lia.
  - rewrite !Forall_app. unfold merged. destruct p as [s1 [|]]; cbn [fst snd];
      destruct post as [| [s2 [|]] t]; rewrite ?Forall_cons; cbn [fst snd];
      intros; destruct_and?; split_and?; try done; lia.
Qed.

Lemma min_ok_placed pre fs asize post :
  pre ≠ [] → 16 ≤ asize →
  min_ok (pre ++ (fs, false) :: post) → min_ok (pre ++ placed fs asize ++ post).
Proof.
  unfold min_ok, DSIZE. intros Hpre Ha.
  destruct pre as [| q pre]; [done |]. cbn [app tail].
  rewrite !Forall_app. unfold placed, DSIZE.
  case_bool_decide; rewrite ?Forall_cons; cbn [fst snd];
    intros; destruct_and?; split_and?; try done; lia.
Qed.

(** ** The operations preserve the heap invariant *)

Lemma mm_free_ok_at s pre p sz post :
  heap_ok s (pre ++ p :: (sz, true) :: post) →
  ∃ m',
    mm_free (heap_ptr s + span pre + p.1) s = Done tt (set_mem m' s) ∧
    heap_ok (set_mem m' s) (pre ++ merged p sz post) ∧
    (∀ r, r < heap_ptr s + span pre + (if p.2 then p.1 else 0) - 4 ∨
          heap_ptr s + span pre + p.1 + sz + free_head post - 4 ≤ r →
          word m' r = word (mem s) r).
Proof.
  intros [Hs Hmin Hnaf].
  destruct (mm_free_shape_frame s pre p sz post Hs) as (m' & Hrun & Hs' & Hfr).
  exists m'. split_and!; try done.
  split; [done | |].
  - eapply min_ok_merged; [| done]. by destruct Hs.
  - replace (pre ++ p :: (sz, true) :: post)
      with ((pre ++ [p]) ++ (sz, true) :: post) in Hnaf
      by (by rewrite <- app_assoc).
    rewrite no_adj_free_alloc in Hnaf. apply andb_prop in Hnaf as [??].
    by apply no_adj_free_merged.
Qed.

Lemma mm_free_ok_frame s bs q :
  heap_ok s bs → q ∈ allocated (heap_ptr s) bs → q ≠ heap_ptr s →
  ∃ m' pre p sz post,
    bs = pre ++ p :: (sz, true) :: post ∧ q = heap_ptr s + span pre + p.1 ∧
    mm_free q s = Done tt (set_mem m' s) ∧
    heap_ok (set_mem m' s) (pre ++ merged p sz post) ∧
    (∀ r, r < heap_ptr s + span pre + (if p.2 then p.1 else 0) - 4 ∨
          heap_ptr s + span pre + p.1 + sz + free_head post - 4 ≤ r →
          word m' r = word (mem s) r).
Proof.
  intros Hok Hq Hne.
  apply elem_of_allocated in Hq as (pre0 & sz & post & -> & ->).
  destruct (exists_last (l := pre0)) as (pre & p & ->).
  { intros ->. simpl in Hne. lia. }
  rewrite <- app_assoc in *. cbn [app] in *.
  destruct (mm_free_ok_at s pre p sz post Hok) as (m' & Hrun & Hok' & Hfr).
  exists m', pre, p, sz, post. rewrite span_app. simpl.
  split_and!; try done; try lia.
  rewrite <- Hrun. f_equal. lia.
Qed.

Lemma mm_free_ok s bs q :
  heap_ok s bs → q ∈ allocated (heap_ptr s) bs → q ≠ heap_ptr s →
  ∃ m' pre p sz post,
    bs = pre ++ p :: (sz, true) :: post ∧ q = heap_ptr s + span pre + p.1 ∧
    mm_free q s = Done tt (set_mem m' s) ∧
    heap_ok (set_mem m' s) (pre ++ merged p sz post).
Proof.
  intros Hok Hq Hne.
  destruct (mm_free_ok_frame s bs q Hok Hq Hne)
    as (m' & pre & p & sz & post & ? & ? & ? & ? & _).
  by exists m', pre, p, sz, post.
Qed.

Lemma blocks_pos m bp bs b : blocks m bp bs → b ∈ bs → 0 < b.1.
Proof.
  revert bp. induction bs as [| c bs IH]; intros bp; [by intros _ ?%elem_of_nil |].
  intros (? & ? & ? & Hbs) [-> | Hin]%elem_of_cons; [lia | eauto].
Qed.

Lemma heap_shape_nonempty s pre fs post :
  heap_shape s (pre ++ (fs, false) :: post) → pre ≠ [].
Proof. intros [_ _ [tl Heq] _ _ _] ->. discriminate. Qed.

(** The three ways [mm_malloc] goes for a request in range, on a heap that
    satisfies the invariant: a block fits and is placed; nothing fits and
    the environment refuses the extension; nothing fits and the heap grows
    by a free block, joined to a free last block, in which the request is
    placed.  In each case the words outside the free block that is used
    stay as they are. *)
Lemma mm_malloc_cases s bs n :
  heap_ok s bs → 0 < n ≤ REQUEST_MAX →
  let a := adjusted_size n in
  let ext := extend_bytes (extend_words a) in
  (∃ pre fs post m',
     bs = pre ++ (fs, false) :: post ∧
     first_fit a (heap_ptr s) bs = heap_ptr s + span pre ∧ a ≤ fs ∧
     Forall (λ b : block, b.2 = true ∨ b.1 < a) pre ∧
     mm_malloc n s = Done (heap_ptr s + span pre) (set_mem m' s) ∧
     heap_ok (set_mem m' s) (pre ++ placed fs a ++ post) ∧
     (∀ q, q < heap_ptr s + span pre - 4 ∨ heap_ptr s + span pre + fs - 4 ≤ q →
           word m' q = word (mem s) q)) ∨
  (first_fit a (heap_ptr s) bs = NULL ∧ lim s < brk s + ext ∧
   mm_malloc n s = Done NULL s) ∨
  (first_fit a (heap_ptr s) bs = NULL ∧ brk s + ext ≤ lim s ∧
   ∃ pre0 p0 m',
     bs = pre0 ++ [p0] ∧
     let pre := if p0.2 then pre0 ++ [p0] else pre0 in
     let fs := if p0.2 then ext else p0.1 + ext in
     a ≤ fs ∧
     mm_malloc n s =
       Done (heap_ptr s + span pre) (set_mem m' (set_brk (brk s + ext) s)) ∧
     heap_ok (set_mem m' (set_brk (brk s + ext) s)) (pre ++ placed fs a) ∧
     (∀ q, q < heap_ptr s + span pre - 4 → word m' q = word (mem s) q)).
Proof.
  intros [Hs Hmin Hnaf] Hn a ext.
  destruct (adjusted_size_sane n Hn) as (_ & Ha16 & Ham & Han & Hahi).
  pose proof (extend_bytes_words _ (conj Ha16 Hahi) Ham) as Hext.
  fold a in Ha16, Ham, Han, Hahi, Hext. fold ext in Hext.
  pose proof Hs as [Hlo Hlim Hpro Hbs Hend Hepi].
  unfold DSIZE, WSIZE, UINT_MOD in *.
  assert (Hhp : 0 < heap_ptr s) by lia.
  unfold mm_malloc. rewrite bool_decide_false by lia. fold a.
  rewrite (bind_Done _ _ _ _ _ (find_fit_shape s bs a Hs)).
  destruct (decide (first_fit a (heap_ptr s) bs = NULL)) as [Hnone | Hsome].
  - right. rewrite Hnone. rewrite bool_decide_false by (intros []; done).
    fold ext.
    assert (16 ≤ ext < 2 ^ 63 ∧ ext mod 8 = 0 ∧ a ≤ ext) as (? & ? & ?).
    { clearbody ext a. change CHUNKSIZE with 4096 in Hext. case_bool_decide; lia. }
    destruct (decide (brk s + ext ≤ lim s)) as [Hroom | Hfull].
    + right. split; [done |]. split; [done |].
      destruct (exists_last (l := bs)) as (pre0 & p & ->).
      { destruct Hpro as [tl ->]. done. }
      destruct (extend_heap_shape_frame s pre0 p (extend_words a) ext Hs)
        as (m1 & Hrun & Hs1 & Hfr1); try done; try lia.
      rewrite (bind_Done _ _ _ _ _ Hrun).
      assert (Hpre0 : 0 ≤ span pre0).
      { apply blocks_app in Hbs as [Hbs _]. by apply blocks_span_nonneg in Hbs. }
      assert (Hp : 8 ≤ p.1).
      { apply blocks_app in Hbs as [_ Hbs]. simpl in Hbs. lia. }
      rewrite bool_decide_false by (unfold NULL; destruct p.2; lia).
      exists pre0, p.
      set (pre := if p.2 then pre0 ++ [p] else pre0).
      set (fs := if p.2 then ext else p.1 + ext).
      assert (Hm : pre0 ++ merged p ext [] = pre ++ [(fs, false)]).
      { subst pre fs. unfold merged. destruct p as [s1 [|]]; simpl; [| done].
        by rewrite <- app_assoc. }
      assert (Hr : heap_ptr s + span pre0 + (if p.2 then p.1 else 0)
                   = heap_ptr s + span pre).
      { subst pre. destruct p as [s1 [|]]; simpl; rewrite ?span_app; simpl; lia. }
      rewrite Hm in Hs1. rewrite Hr in *.
      destruct (place_shape_frame _ pre fs [] a Hs1) as (m2 & Hrun2 & Hs2 & Hfr2);
        [ subst fs; destruct p.2; lia | done | ].
      change (heap_ptr (set_mem m1 (set_brk (brk s + ext) s))) with (heap_ptr s)
        in Hrun2, Hfr2.
      change (mem (set_mem m1 (set_brk (brk s + ext) s))) with m1 in Hfr2.
      rewrite (bind_Done _ _ _ _ _ Hrun2). rewrite set_mem_set_mem in *.
      rewrite app_nil_r in Hs2.
      exists m2. split; [done |].
      split; [subst fs; destruct p.2; lia |].
      split; [done |]. split.
      * split; [done | |].
        -- rewrite <- (app_nil_r (placed fs a)).
           apply min_ok_placed; [by eapply heap_shape_nonempty | lia |].
           rewrite <- Hm. eapply (min_ok_merged _ _ _ false).
           ++ destruct Hpro as [tl Hpro]. unfold DSIZE.
              destruct pre0; simpl in *; injection Hpro; intros; subst; eauto.
           ++ unfold min_ok, DSIZE in *.
              destruct pre0 as [| q0 pre0]; cbn [app tail] in *.
              ** repeat constructor. simpl. lia.
              ** rewrite Forall_app in *. destruct Hmin as [? Hp'].
                 split; [done |]. apply Forall_cons in Hp' as [? _].
                 repeat constructor; simpl; lia.
        -- rewrite <- (app_nil_r (placed fs a)). apply no_adj_free_placed.
           rewrite <- Hm. by apply no_adj_free_merged.
      * intros q Hq. rewrite (Hfr2 q (or_introl Hq)). by apply Hfr1.
    + left. split; [done |]. split; [lia |].
      assert (Hfail : extend_heap (extend_words a) s = Done NULL s).
      { apply extend_heap_fail. fold ext. rewrite to_intptr_small by lia. lia. }
      rewrite (bind_Done _ _ _ _ _ Hfail).
      by rewrite bool_decide_true by done.
  - left. rewrite bool_decide_true by done.
    destruct (first_fit_found a (heap_ptr s) bs) as (pre & fs & post & -> & Hr & ? & ?);
      [ intros b Hb; eapply blocks_pos; eauto | done | done | ].
    rewrite Hr.
    destruct (place_shape_frame s pre fs post a Hs) as (m' & Hrun & Hs' & Hfr);
      [lia | done |].
    rewrite (bind_Done _ _ _ _ _ Hrun).
    exists pre, fs, post, m'. split_and!; try done.
    split; [done | |].
    + apply min_ok_placed; [by eapply heap_shape_nonempty | lia | done].
    + by apply no_adj_free_placed.
Qed.

Lemma mm_malloc_ok s bs n :
  heap_ok s bs → 0 < n ≤ REQUEST_MAX →
  ∃ p s' bs',
    mm_malloc n s = Done p s' ∧ malloc_outcome s bs n p s' bs' ∧ heap_ok s' bs'.
Proof.
  intros Hok Hn.
  destruct (mm_malloc_cases s bs n Hok Hn)
    as [(pre & fs & post & m' & -> & Hff & Hfs & _ & Hrun & Hok' & _)
       | [(Hff & Hfull & Hrun)
         | (Hff & Hroom & pre0 & p0 & m' & -> & Hfs & Hrun & Hok' & _)]].
  - eexists _, _, _. split; [done |]. split; [| done].
    by apply (malloc_fit s _ n pre fs post m').
  - eexists _, _, _. split; [done |]. split; [| done].
    by apply malloc_no_memory.
  - cbv zeta in Hfs, Hrun, Hok'.
    eexists _, _, _. split; [done |]. split; [| done].
    apply (malloc_grow s _ n _ _ m'); try done.
    + destruct (ok_shape _ _ Hok) as [_ _ [tl Htl] _ _ _].
      destruct p0 as [? [|]]; cbn [snd] in *; [by destruct pre0 |].
      intros ->. simpl in Htl. by injection Htl.
    + intros q. destruct p0 as [s1 [|]]; cbn [snd]; [done |].
      rewrite allocated_app. cbn [allocated snd app].
      rewrite app_nil_r. tauto.
Qed.

(** ** Observing the heap *)

Lemma heap_walk_iterate_chain s bs : ∀ n bp acc,
  (length bs < n)%nat →
  lo s ≤ bp - 4 →
  blocks (mem s) bp bs → bp + span bs = brk s → span bs < 2 ^ 32 →
  word (mem s) (brk s - 4) = tag 0 true →
  iterate_nat n heap_walk_step (bp, acc) s =
    Done (inr (reverse acc ++ bs ++ [(0, true)])) s.
Proof.
  induction bs as [| [sz a] bs IH]; intros n bp acc Hfuel Hlo Hbs Hend Hfit Hepi;
    (destruct n as [| n]; [simpl in Hfuel; lia |]); simpl in Hend, Hfit;
    cbn [iterate_nat].
  - assert (Hw : word (mem s) (bp - 4) = tag 0 true) by same_word Hepi.
    assert (Hstep : heap_walk_step (bp, acc) s
                    = Done (inr (reverse ((0, true) :: acc))) s).
    { unfold heap_walk_step. cbn [fst snd].
      step GET_SIZE_run. step GET_ALLOC_run. by rewrite bool_decide_false by lia. }
    rewrite (bind_Done _ _ _ _ _ Hstep). by rewrite reverse_cons.
  - destruct Hbs as (? & ? & [Hh Hf] & Hbs).
    pose proof (blocks_span_nonneg _ _ _ Hbs). cbn [fst snd] in *.
    assert (Hstep : heap_walk_step (bp, acc) s
                    = Done (inl (bp + sz, (sz, a) :: acc)) s).
    { unfold heap_walk_step. cbn [fst snd].
      step GET_SIZE_run. step GET_ALLOC_run. rewrite bool_decide_true by lia.
      step NEXT_BLKP_run. by destruct a. }
    rewrite (bind_Done _ _ _ _ _ Hstep).
    rewrite IH; try done; try lia; [| simpl in Hfuel; lia].
    by rewrite reverse_cons, <- app_assoc.
Qed.

Lemma heap_walk_shape s bs :
  heap_shape s bs → heap_walk s = Done (bs ++ [(0, true)]) s.
Proof.
  intros Hs. pose proof (heap_shape_span _ _ Hs) as Hspan.
  destruct Hs as [Hlo Hlim Hpro Hbs Hend Hepi]. unfold DSIZE, WSIZE in *.
  unfold heap_walk. apply loop_unary.
  rewrite (heap_walk_iterate_chain s bs); try done; try lia.
  apply blocks_length in Hbs. pose proof (loop_fuel_enough s (heap_ptr s)). lia.
Qed.

Lemma no_adj_free_epilogue bs :
  no_adj_free (bs ++ [(0, true)]) = no_adj_free bs.
Proof. rewrite no_adj_free_alloc. simpl. by rewrite andb_true_r. Qed.

(** ** Reachable heaps *)

Lemma blocks_span_mod m bp bs : blocks m bp bs → span bs mod 8 = 0.
Proof.
  revert bp. induction bs as [| b bs IH]; simpl; intros bp; [done |].
  intros (? & ? & ? & Hbs). apply IH in Hbs. lia.
Qed.

Lemma blocks_span_nonempty m bp bs : blocks m bp bs → bs ≠ [] → 8 ≤ span bs.
Proof.
  destruct bs as [| b bs]; [done |]. simpl.
  intros (? & ? & ? & Hbs) _. apply blocks_span_nonneg in Hbs. lia.
Qed.

Lemma mm_malloc_zero s : mm_malloc 0 s = Done NULL s.
Proof. reflexivity. Qed.

(** The state fields an outcome of [mm_malloc] leaves alone, and where the
    returned block lies. *)
Lemma malloc_outcome_facts s bs n p s' bs' :
  heap_ok s bs → malloc_outcome s bs n p s' bs' → heap_ok s' bs' →
  let ext := extend_bytes (extend_words (adjusted_size n)) in
  heap_ptr s' = heap_ptr s ∧ lo s' = lo s ∧ lim s' = lim s ∧
  brk s ≤ brk s' ∧
  (∀ q, q ∈ allocated (heap_ptr s) bs → q ∈ allocated (heap_ptr s) bs') ∧
  (first_fit (adjusted_size n) (heap_ptr s) bs = NULL ∧ lim s < brk s + ext ∧
   p = NULL ∧ s' = s ∧ bs' = bs ∨
   heap_ptr s + DSIZE ≤ p ∧ p ∈ allocated (heap_ptr s) bs' ∧
   (∃ pre sz post, bs' = pre ++ (sz, true) :: post ∧ p = heap_ptr s + span pre ∧
                   adjusted_size n ≤ sz) ∧
   (first_fit (adjusted_size n) (heap_ptr s) bs = p ∧ brk s' = brk s ∨
    first_fit (adjusted_size n) (heap_ptr s) bs = NULL ∧ brk s + ext ≤ lim s ∧
    brk s' = brk s + ext)).
Proof.
  intros [Hs _ _] Hout [Hs' _ _] ext.
  destruct Hout as [pre fs post m' -> Hff Hfs | Hff Hfull
                   | pre fs m' Hff Hroom Hfs Hne Hsub].
  - pose proof (heap_shape_nonempty _ _ _ _ Hs) as Hne.
    destruct Hs as [_ _ _ Hbs _ _]. apply blocks_app in Hbs as [Hpre _].
    pose proof (blocks_span_nonempty _ _ _ Hpre Hne).
    split_and!; try done.
    + intros q Hq. apply allocated_placed. by left.
    + right. unfold DSIZE.
      split_and!; [lia | apply allocated_placed; by right | | by left].
      unfold placed. case_bool_decide.
      * exists pre, (adjusted_size n), ((fs - adjusted_size n, false) :: post).
        split_and!; try done; lia.
      * exists pre, fs, post. by split_and!.
  - split_and!; try done; try lia. by left.
  - destruct Hs' as [_ _ _ Hbs' _ _]. apply blocks_app in Hbs' as [Hpre _].
    pose proof (blocks_span_nonempty _ _ _ Hpre Hne).
    assert (0 ≤ ext).
    { subst ext. unfold extend_bytes, to_size, SIZE_MOD. case_bool_decide; lia. }
    split_and!; try done; proj; try (subst ext; lia).
    + intros q Hq. rewrite allocated_app, elem_of_app. left. by apply Hsub.
    + right. unfold DSIZE. split_and!; [lia | | | by right].
      * rewrite <- (app_nil_r (placed _ _)). apply allocated_placed. by right.
      * unfold placed. case_bool_decide.
        -- exists pre, (adjusted_size n), [(fs - adjusted_size n, false)].
           split_and!; try done; lia.
        -- exists pre, fs, []. by split_and!.
Qed.

Lemma mm_init_ok s0 s :
  env_ok s0 → mm_init s0 = Done 0 s →
  heap_ok s [(DSIZE, true); (CHUNKSIZE, false)] ∧
  heap_ptr s = brk s0 + DSIZE ∧ lo s = lo s0 ∧ lim s = lim s0 ∧
  brk s = brk s0 + 2 * DSIZE + CHUNKSIZE.
Proof.
  intros (? & ? & Hcap) Hrun. unfold UINT_MOD in Hcap.
  destruct (decide (lim s0 < brk s0 + 16)).
  { rewrite mm_init_no_memory in Hrun by lia. discriminate. }
  destruct (decide (lim s0 < brk s0 + 16 + 4096)).
  { rewrite mm_init_no_chunk in Hrun by lia. discriminate. }
  destruct (mm_init_shape s0) as (m' & Hrun' & Hs); try lia.
  rewrite Hrun' in Hrun. injection Hrun as <-.
  split_and!; try done.
  split; [done | |].
  - unfold min_ok. change CHUNKSIZE with 4096. repeat constructor. simpl. unfold DSIZE. lia.
  - reflexivity.
Qed.

(** The heap invariant holds in every reachable heap; the live pointers are
    exactly its allocated blocks behind the prologue; and the heap holds at
    least the first chunk. *)
Lemma reachable_invariant_exact s0 s live :
  env_ok s0 → reachable s0 s live →
  ∃ bs, heap_ok s bs ∧ live_ok s bs live ∧
        heap_ptr s = brk s0 + DSIZE ∧ lo s = lo s0 ∧ lim s = lim s0 ∧
        (∀ q, q ∈ allocated (heap_ptr s) bs → q = heap_ptr s ∨ q ∈ live) ∧
        brk s0 + 2 * DSIZE + CHUNKSIZE ≤ brk s.
Proof.
  intros Henv Hreach.
  induction Hreach as [s Hinit | s live n p s' _ IH Hn Hrun | s live p s' _ IH Hp Hrun
                      | s live p size k v s' _ IH Hp Hsize Hk0 Hk4 Hk Hrun].
  - destruct (mm_init_ok s0 s Henv Hinit) as (Hok & ? & ? & ? & ?).
    exists [(DSIZE, true); (CHUNKSIZE, false)]. split_and!; try done; try lia.
    intros q Hq. left. cbn [allocated fst snd app] in Hq.
    by apply list_elem_of_singleton in Hq.
  - destruct IH as (bs & Hok & Hlive & Hhp & Hlo & Hlim & Hexact & Hbrk).
    destruct (decide (n = 0)) as [-> | Hn0].
    { rewrite mm_malloc_zero in Hrun. injection Hrun as <- <-.
      rewrite decide_True by done. by exists bs. }
    pose proof (shape_blocks _ _ (ok_shape _ _ Hok)) as Hbs.
    pose proof (shape_lo _ _ (ok_shape _ _ Hok)) as [Hlo0 Hlo1].
    unfold DSIZE in Hlo1.
    destruct (mm_malloc_cases s bs n Hok ltac:(lia))
      as [(pre & fs & post & m' & -> & _ & Hfs & _ & Hrun' & Hok' & _)
         | [(_ & _ & Hrun')
           | (_ & Hroom & pre0 & p0 & m' & -> & Hfs & Hrun' & Hok' & _)]];
      rewrite Hrun' in Hrun; injection Hrun as <- <-.
    + pose proof (heap_shape_nonempty _ _ _ _ (ok_shape _ _ Hok)) as Hne.
      apply blocks_app in Hbs as [Hpre _].
      pose proof (blocks_span_nonempty _ _ _ Hpre Hne).
      rewrite decide_False by (unfold NULL; lia).
      exists (pre ++ placed fs (adjusted_size n) ++ post).
      split_and!; try done.
      * intros q [->%elem_of_singleton | Hq]%elem_of_union.
        -- split; [apply allocated_placed; by right | proj; lia].
        -- destruct (Hlive q Hq). split; [apply allocated_placed; by left | done].
      * intros q [b Hq]%elem_of_allocated_at.
        apply block_at_placed_inv in Hq as [-> | Hq].
        -- right. apply elem_of_union_l, elem_of_singleton. done.
        -- destruct (Hexact q) as [? | ?]; [apply elem_of_allocated_at; eauto | by left |].
           right. by apply elem_of_union_r.
    + rewrite decide_True by done. by exists bs.
    + cbv zeta in Hfs, Hok'.
      set (ext := extend_bytes (extend_words (adjusted_size n))) in *.
      set (pre := if p0.2 then pre0 ++ [p0] else pre0) in *.
      set (fs := if p0.2 then ext else p0.1 + ext) in *.
      assert (Hne : pre ≠ []).
      { destruct (ok_shape _ _ Hok) as [_ _ [tl Htl] _ _ _]. subst pre.
        destruct p0 as [? [|]]; cbn [snd] in *; [by destruct pre0 |].
        intros ->. simpl in Htl. by injection Htl. }
      assert (Hpre : blocks (mem s) (heap_ptr s) pre).
      { subst pre. destruct p0.2; [done |]. by apply blocks_app in Hbs as [? _]. }
      pose proof (blocks_span_nonempty _ _ _ Hpre Hne).
      assert (0 ≤ ext).
      { subst ext. unfold extend_bytes, to_size, SIZE_MOD. case_bool_decide; lia. }
      rewrite decide_False by (unfold NULL; lia).
      assert (Hold : ∀ q, q ∈ allocated (heap_ptr s) (pre0 ++ [p0]) ↔
                          q ∈ allocated (heap_ptr s) pre).
      { intros q. subst pre. destruct p0 as [s1 [|]]; cbn [snd]; [done |].
        rewrite allocated_app. cbn [allocated snd app]. rewrite app_nil_r. tauto. }
      exists (pre ++ placed fs (adjusted_size n)).
      split_and!; try done; [| | proj; lia].
      * intros q [->%elem_of_singleton | Hq]%elem_of_union.
        -- split; [| proj; lia].
           rewrite <- (app_nil_r (placed _ _)). apply allocated_placed. by right.
        -- destruct (Hlive q Hq) as [Hq' ?]. split; [| done].
           rewrite allocated_app, elem_of_app. left. by apply Hold.
      * intros q [b Hq]%elem_of_allocated_at.
        rewrite <- (app_nil_r (placed _ _)) in Hq.
        apply block_at_placed_inv in Hq as [-> | Hq].
        -- right. apply elem_of_union_l, elem_of_singleton. done.
        -- apply block_at_app in Hq as [Hq | Hq].
           ++ destruct (Hexact q) as [? | ?]; [| by left |].
              ** apply Hold, elem_of_allocated_at. eauto.
              ** right. by apply elem_of_union_r.
           ++ apply block_at_cons in Hq as [[_ [=]] | Hq].
              by destruct Hq as ([|??] & ? & ? & _).
  - destruct IH as (bs & Hok & Hlive & Hhp & Hlo & Hlim & Hexact & Hbrk).
    destruct (Hlive p Hp) as [Hin Hne].
    pose proof (shape_blocks _ _ (ok_shape _ _ Hok)) as Hbs.
    destruct (mm_free_ok_frame s bs p Hok Hin Hne)
      as (m' & pre & b & sz & post & -> & Hpeq & Hrun' & Hok' & _).
    rewrite Hrun' in Hrun. injection Hrun as <-.
    exists (pre ++ merged b sz post). split_and!; try done.
    + intros q [Hq Hqp%not_elem_of_singleton]%elem_of_difference.
      destruct (Hlive q Hq). split; [| done].
      apply allocated_merged; [done |]. proj. lia.
    + intros q [b' Hq]%elem_of_allocated_at.
      destruct (block_at_merged_inv _ _ _ _ _ _ _ _ Hbs Hq) as [Hq' Hqp].
      destruct (Hexact q) as [? | ?]; [apply elem_of_allocated_at; eauto | by left |].
      right. apply elem_of_difference. split; [done |].
      apply not_elem_of_singleton. proj. lia.
  - destruct IH as (bs & Hok & Hlive & Hhp & Hlo & Hlim & Hexact & Hbrk).
    destruct (Hlive p Hp) as [Hin Hne].
    apply elem_of_allocated in Hin as (pre & sz & post & -> & ->).
    destruct Hok as [Hs Hmin Hnaf].
    pose proof (heap_shape_span _ _ Hs) as Hspan.
    pose proof Hs as [Hlo' _ Hpro Hbs Hend Hepi].
    rewrite span_app in Hend, Hspan.
    apply blocks_app in Hbs as [Hpre Hblk].
    pose proof (blocks_span_nonneg _ _ _ Hpre).
    destruct Hblk as (? & ? & [Hh Hf] & Hpost).
    pose proof (blocks_span_nonneg _ _ _ Hpost).
    unfold DSIZE, WSIZE in *. cbn [fst snd span] in *.
    assert (size = sz) as ->.
    { erewrite GET_SIZE_run in Hsize; [| inb | rd]. by injection Hsize. }
    erewrite PUT_run in Hrun; [| inb | reflexivity]. injection Hrun as <-.
    exists (pre ++ (sz, true) :: post). split_and!; try done.
    split; [| done | done].
    apply (heap_shape_update s _ _ _ Hs); [done | done | chain |].
    rewrite word_insert_ne by lia. done.
Qed.

Lemma reachable_invariant s0 s live :
  env_ok s0 → reachable s0 s live →
  ∃ bs, heap_ok s bs ∧ live_ok s bs live ∧
        heap_ptr s = brk s0 + DSIZE ∧ lo s = lo s0 ∧ lim s = lim s0.
Proof.
  intros Henv Hreach.
  destruct (reachable_invariant_exact _ _ _ Henv Hreach)
    as (bs & ? & ? & ? & ? & ? & _).
  by exists bs.
Qed.

(** In a reachable heap every request in range and every release of a live
    pointer runs to completion. *)
Lemma reachable_progress s0 s live :
  env_ok s0 → reachable s0 s live →
  (∀ n, 0 ≤ n ≤ REQUEST_MAX → ∃ p s', mm_malloc n s = Done p s') ∧
  (∀ p, p ∈ live → ∃ s', mm_free p s = Done tt s').
Proof.
  intros Henv Hreach.
  destruct (reachable_invariant _ _ _ Henv Hreach) as (bs & Hok & Hlive & _).
  split.
  - intros n Hn. destruct (decide (n = 0)) as [-> | Hn0].
    + eexists _, _. apply mm_malloc_zero.
    + destruct (mm_malloc_ok s bs n Hok ltac:(lia)) as (p & s' & _ & Hrun & _).
      eauto.
  - intros p Hp. destruct (Hlive p Hp) as [Hin Hne].
    destruct (mm_free_ok s bs p Hok Hin Hne) as (m' & _ & _ & _ & _ & _ & _ & Hrun & _).
    eauto.
Qed.

(** ** What a call leaves alone *)

(** The header of a block of a well-formed heap reads as its size and flag. *)
Lemma block_at_read s bs q b :
  heap_shape s bs → block_at (heap_ptr s) bs q b →
  GET_SIZE (HDRP q) s = Done b.1 s ∧ GET_ALLOC (HDRP q) s = Done (Z.b2z b.2) s.
Proof.
  intros Hs Hat. pose proof (heap_shape_span _ _ Hs) as Hspan.
  destruct Hs as [Hlo _ _ Hbs Hend _].
  destruct (block_at_bounds _ _ _ _ _ Hbs Hat) as (? & ? & ? & ? & [Hh _]).
  unfold DSIZE in *.
  split; [apply GET_SIZE_run | apply GET_ALLOC_run]; try inb;
    unfold HDRP, WSIZE; rewrite Hh.
  - apply size_bits_tag. valid.
  - by apply alloc_bit_tag.
Qed.

Lemma block_at_min s bs q b :
  heap_ok s bs → block_at (heap_ptr s) bs q b → q ≠ heap_ptr s → 2 * DSIZE ≤ b.1.
Proof.
  intros [[_ _ [tl ->] _ _ _] Hmin _] Hat Hne.
  apply block_at_cons in Hat as [[? _] | Hat]; [done |].
  unfold min_ok in Hmin. cbn [tail] in Hmin. rewrite Forall_forall in Hmin.
  apply Hmin. by eapply block_at_elem.
Qed.

(** [mm_malloc] changes no word of a block that is allocated. *)
Lemma mm_malloc_frame s bs n p s' q b :
  heap_ok s bs → 0 < n ≤ REQUEST_MAX → mm_malloc n s = Done p s' →
  block_at (heap_ptr s) bs q (b, true) →
  same_words (mem s) (mem s') (q - WSIZE) (q + b - WSIZE).
Proof.
  intros Hok Hn Hrun Hq.
  pose proof (shape_blocks _ _ (ok_shape _ _ Hok)) as Hbs.
  destruct (mm_malloc_cases s bs n Hok Hn)
    as [(pre & fs & post & m' & -> & _ & _ & _ & Hrun' & _ & Hfr)
       | [(_ & _ & Hrun')
         | (_ & _ & pre0 & p0 & m' & -> & _ & Hrun' & _ & Hfr)]];
    rewrite Hrun' in Hrun; injection Hrun as <- <-.
  - destruct (block_at_placed _ _ _ _ (adjusted_size n) _ _ _ Hbs Hq) as [_ Hout].
    intros r Hr. apply Hfr. unfold WSIZE in *. lia.
  - by intros r Hr.
  - cbv zeta in Hfr. intros r Hr. apply Hfr. unfold WSIZE in *.
    destruct p0 as [s1 [|]]; cbn [snd] in *.
    + destruct (block_at_bounds _ _ _ _ _ Hbs Hq) as (_ & ? & _). simpl in *. lia.
    + apply block_at_app in Hq as [Hq | Hq].
      * apply blocks_app in Hbs as [Hpre _].
        destruct (block_at_bounds _ _ _ _ _ Hpre Hq) as (_ & ? & _). simpl in *. lia.
      * apply block_at_cons in Hq as [[_ [=]] | Hq].
        by destruct Hq as ([|??] & ? & ? & _).
Qed.

(** [mm_free] changes no word of an allocated block other than the one it
    releases. *)
Lemma mm_free_frame s bs p s' q b :
  heap_ok s bs → p ∈ allocated (heap_ptr s) bs → p ≠ heap_ptr s →
  mm_free p s = Done tt s' →
  block_at (heap_ptr s) bs q (b, true) → q ≠ p →
  same_words (mem s) (mem s') (q - WSIZE) (q + b - WSIZE).
Proof.
  intros Hok Hp Hne Hrun Hq Hqp.
  pose proof (shape_blocks _ _ (ok_shape _ _ Hok)) as Hbs.
  destruct (mm_free_ok_frame s bs p Hok Hp Hne)
    as (m' & pre & b0 & sz & post & -> & -> & Hrun' & _ & Hfr).
  rewrite Hrun' in Hrun. injection Hrun as <-.
  destruct (block_at_merged _ _ _ _ _ _ _ _ Hbs Hq Hqp) as [_ Hout].
  intros r Hr. apply Hfr. unfold WSIZE in *. lia.
Qed.

(** ** A request and its release *)

(** Releasing the block that [place] made from a free block between two
    allocated neighbours gives the free block back. *)
Lemma placed_merged p fs a post :
  p.2 = true → a ≤ fs → no_adj_free ((fs, false) :: post) = true →
  ∃ b rest,
    placed fs a = (b, true) :: rest ∧
    merged p b (rest ++ post) = p :: (fs, false) :: post.
Proof.
  intros Hp Ha Hnaf. destruct p as [s1 a1]. simpl in Hp. subst a1.
  unfold placed. case_bool_decide.
  - eexists _, _. split; [reflexivity |]. unfold merged. cbn [fst snd app].
    do 2 f_equal. f_equal. lia.
  - eexists _, _. split; [reflexivity |]. unfold merged. cbn [fst snd app].
    destruct post as [| [s2 [|]] t]; try done.
Qed.

Lemma first_fit_app_unfit size bp pre l :
  Forall (λ b : block, b.2 = true ∨ b.1 < size) pre →
  first_fit size bp (pre ++ l) = first_fit size (bp + span pre) l.
Proof.
  revert bp. induction pre as [| [sz a] pre IH]; intros bp Hall; simpl.
  - by rewrite Z.add_0_r.
  - apply Forall_cons in Hall as [Hb Hall]. simpl in Hb.
    rewrite Z.add_assoc, <- IH by done.
    destruct Hb as [-> | ?]; [done |].
    rewrite bool_decide_false by lia. by rewrite andb_false_r.
Qed.

Lemma no_adj_free_last_alloc pre p b post :
  no_adj_free (pre ++ p :: (b, false) :: post) = true → p.2 = true.
Proof.
  rewrite no_adj_free_app. intros [[_ Hp]%andb_prop _]%andb_prop.
  by rewrite orb_false_r in Hp.
Qed.

(** A request that is granted and released again: the chain is the one
    from before the request, with the bytes the heap grew by as free space
    at its end, and the block that was handed out is the first fit again. *)
Lemma malloc_free_chain s bs n p s1 :
  heap_ok s bs → 0 < n ≤ REQUEST_MAX →
  mm_malloc n s = Done p s1 → p ≠ NULL →
  ∃ m2 bs2,
    mm_free p s1 = Done tt (set_mem m2 s1) ∧ heap_ok (set_mem m2 s1) bs2 ∧
    heap_ptr s1 = heap_ptr s ∧
    first_fit (adjusted_size n) (heap_ptr s) bs2 = p ∧
    (brk s1 = brk s ∧ bs2 = bs ∨
     brk s < brk s1 ∧
     ∃ pre0 p0, bs = pre0 ++ [p0] ∧ bs2 = pre0 ++ merged p0 (brk s1 - brk s) []).
Proof.
  intros Hok Hn Hrun Hp.
  pose proof (ok_shape _ _ Hok) as Hs. pose proof (ok_naf _ _ Hok) as Hnaf.
  destruct (mm_malloc_cases s bs n Hok Hn)
    as [(pre & fs & post & m' & -> & Hff & Hfs & _ & Hrun' & Hok' & _)
       | [(_ & _ & Hrun')
         | (Hff & _ & pre0 & p0 & m' & -> & Hfs & Hrun' & Hok' & _)]];
    rewrite Hrun' in Hrun; injection Hrun as <- <-; [| done |].
  - destruct (exists_last (l := pre)) as (pre' & p' & ->).
    { by eapply heap_shape_nonempty. }
    rewrite <- app_assoc in *. cbn [app] in *.
    pose proof (no_adj_free_last_alloc _ _ _ _ Hnaf) as Hp'.
    apply no_adj_free_split in Hnaf as [_ Hnaf]. apply no_adj_free_cons in Hnaf.
    destruct (placed_merged p' fs (adjusted_size n) post Hp' Hfs Hnaf)
      as (b & rest & Hpl & Hm).
    rewrite Hpl in Hok'. cbn [app] in Hok'.
    destruct (mm_free_ok_at _ pre' p' b (rest ++ post) Hok') as (m2 & Hfree & Hok2 & _).
    rewrite Hm in Hok2. rewrite span_app in *. cbn [span] in *.
    exists m2, (pre' ++ p' :: (fs, false) :: post).
    split_and!; try done.
    + rewrite <- Hfree. f_equal. proj. lia.
    + by left.
  - cbv zeta in Hfs, Hok'.
    set (a := adjusted_size n) in *.
    set (ext := extend_bytes (extend_words a)) in *.
    assert (Hext : 0 < ext).
    { destruct (adjusted_size_sane n Hn) as (_ & Ha16 & Ham & _ & Hahi).
      pose proof (extend_bytes_words _ (conj Ha16 Hahi) Ham) as Hext.
      fold a ext in Hext. change CHUNKSIZE with 4096 in Hext.
      clearbody ext a. case_bool_decide; lia. }
    assert (Hhp : 0 < heap_ptr s).
    { destruct Hs as [[] _ _ _ _ _]. unfold DSIZE in *. lia. }
    pose proof (shape_blocks _ _ Hs) as Hbs.
    assert (Hunfit : Forall (λ b : block, b.2 = true ∨ b.1 < a) (pre0 ++ [p0])).
    { eapply first_fit_none; [done | done |]. intros b; by eapply blocks_pos. }
    apply Forall_app in Hunfit as [Hunfit0 Hunfitp].
    destruct p0 as [s0 [|]]; cbn [fst snd] in *.
    + destruct (placed_merged (s0, true) ext a [] eq_refl Hfs eq_refl)
        as (b & rest & Hpl & Hm).
      rewrite Hpl in Hok'. rewrite app_nil_r in Hm.
      rewrite <- app_assoc in Hok'. cbn [app] in Hok'.
      destruct (mm_free_ok_at _ pre0 (s0, true) b rest Hok') as (m2 & Hfree & Hok2 & _).
      rewrite Hm in Hok2. rewrite span_app in *. cbn [span fst snd] in *.
      exists m2, (pre0 ++ [(s0, true); (ext, false)]).
      split_and!; try done.
      * rewrite <- Hfree. f_equal. proj. lia.
      * replace (pre0 ++ [(s0, true); (ext, false)])
          with ((pre0 ++ [(s0, true)]) ++ [(ext, false)]) by (by rewrite <- app_assoc).
        rewrite first_fit_app_unfit by (apply Forall_app; by split).
        cbn [first_fit fst snd negb andb]. rewrite bool_decide_true by done.
        rewrite span_app. simpl. lia.
      * right. proj. split; [lia |]. exists pre0, (s0, true). split; [done |].
        by replace (brk s + ext - brk s) with ext by lia.
    + destruct (exists_last (l := pre0)) as (pre' & p' & ->).
      { intros ->. by destruct Hs as [_ _ [tl [=]] _ _ _]. }
      rewrite <- app_assoc in *. cbn [app] in *.
      pose proof (no_adj_free_last_alloc _ _ _ _ Hnaf) as Hp'.
      destruct (placed_merged p' (s0 + ext) a [] Hp' Hfs eq_refl)
        as (b & rest & Hpl & Hm).
      rewrite Hpl in Hok'. rewrite app_nil_r in Hm. cbn [app] in Hok'.
      destruct (mm_free_ok_at _ pre' p' b rest Hok') as (m2 & Hfree & Hok2 & _).
      rewrite Hm in Hok2. rewrite span_app in *. cbn [span fst snd] in *.
      exists m2, (pre' ++ [p'; (s0 + ext, false)]).
      split_and!; try done.
      * rewrite <- Hfree. f_equal. proj. lia.
      * replace (pre' ++ [p'; (s0 + ext, false)])
          with ((pre' ++ [p']) ++ [(s0 + ext, false)]) by (by rewrite <- app_assoc).
        rewrite first_fit_app_unfit by done.
        cbn [first_fit fst snd negb andb]. rewrite bool_decide_true by done.
        rewrite span_app. simpl. lia.
      * right. proj. split; [lia |]. exists (pre' ++ [p']), (s0, false).
        rewrite <- !app_assoc. cbn [app]. split; [done |].
        by replace (brk s + ext - brk s) with ext by lia.
Qed.

(** ** Calls that change memory only *)

Lemma same_env_refl s : same_env s s.
Proof. by repeat split. Qed.

Lemma same_env_trans s1 s2 s3 : same_env s1 s2 → same_env s2 s3 → same_env s1 s3.
Proof. unfold same_env. intros (? & ? & ? & ?) (? & ? & ? & ?). split_and!; congruence. Qed.

Lemma mem_only_ret {A} (a : A) : mem_only (mret a).
Proof. intros s a' s' [= _ <-]. apply same_env_refl. Qed.

Lemma mem_only_bind {A B} (c : M A) (f : A → M B) :
  mem_only c → (∀ a, mem_only (f a)) → mem_only (c ≫= f).
Proof.
  intros Hc Hf s b s'. unfold mbind, M_bind.
  destruct (c s) as [a s1 | |] eqn:Hrun; [| done ..].
  intros Hrun'. eapply same_env_trans; [by eapply Hc | by eapply Hf].
Qed.

Lemma mem_only_GET p : mem_only (GET p).
Proof.
  intros s a s'. unfold GET. destruct (decide _); [| done].
  intros [= _ <-]. apply same_env_refl.
Qed.

Lemma mem_only_PUT p v : mem_only (PUT p v).
Proof.
  intros s a s'. unfold PUT. destruct (decide _); [| done].
  intros H. inversion H. by repeat split.
Qed.

Create HintDb mem_only discriminated.
#[local] Hint Resolve mem_only_ret mem_only_GET mem_only_PUT : mem_only.
#[local] Hint Extern 2 (mem_only (_ ≫= _)) =>
  apply mem_only_bind; [| intros ?] : mem_only.
#[local] Hint Extern 3 (mem_only (if ?b then _ else _)) => destruct b : mem_only.

Lemma mem_only_GET_SIZE p : mem_only (GET_SIZE p).
Proof. unfold GET_SIZE. auto with mem_only. Qed.

Lemma mem_only_GET_ALLOC p : mem_only (GET_ALLOC p).
Proof. unfold GET_ALLOC. auto with mem_only. Qed.

#[local] Hint Resolve mem_only_GET_SIZE mem_only_GET_ALLOC : mem_only.

Lemma mem_only_FTRP bp : mem_only (FTRP bp).
Proof. unfold FTRP. auto with mem_only. Qed.

Lemma mem_only_NEXT_BLKP bp : mem_only (NEXT_BLKP bp).
Proof. unfold NEXT_BLKP. auto with mem_only. Qed.

Lemma mem_only_PREV_BLKP bp : mem_only (PREV_BLKP bp).
Proof. unfold PREV_BLKP. auto with mem_only. Qed.

#[local] Hint Resolve mem_only_FTRP mem_only_NEXT_BLKP mem_only_PREV_BLKP : mem_only.

Lemma mem_only_coalesce bp : mem_only (coalesce bp).
Proof. unfold coalesce. auto 30 with mem_only. Qed.

#[local] Hint Resolve mem_only_coalesce : mem_only.

Lemma mem_only_mm_free bp : mem_only (mm_free bp).
Proof. unfold mm_free. auto 20 with mem_only. Qed.

(** ** [find_fit] on any memory *)

(** Whatever the memory holds, the scan of [find_fit] ends by a fault or by
    a [return] that leaves the state as it is, and what it returns is [NULL]
    or a block whose header says free and large enough. *)
Lemma find_fit_iterate_sound s size : ∀ n bp,
  (Z.to_nat (brk s + 8 - bp) < n)%nat →
  iterate_nat n (find_fit_step size) bp s = Fault ∨
  ∃ r, iterate_nat n (find_fit_step size) bp s = Done (inr r) s ∧
       (r = NULL ∨
        GET_ALLOC (HDRP r) s = Done 0 s ∧
        ∃ sz, GET_SIZE (HDRP r) s = Done sz s ∧ 0 < sz ∧ size ≤ sz).
Proof.
  induction n as [| n IH]; intros bp Hfuel; [lia |].
  cbn [iterate_nat].
  destruct (decide (in_heap s (bp - 4))) as [Hin | Hout].
  - pose proof (size_bits_range (word (mem s) (bp - 4))) as [Hr Hm].
    pose proof (GET_SIZE_run _ _ _ Hin eq_refl) as Hsz.
    pose proof (GET_ALLOC_run _ _ _ Hin eq_refl) as Hal.
    assert (Hstep : find_fit_step size bp s = Done (inr NULL) s ∨
              find_fit_step size bp s = Done (inr bp) s ∧
              GET_ALLOC (HDRP bp) s = Done 0 s ∧
              (∃ sz, GET_SIZE (HDRP bp) s = Done sz s ∧ 0 < sz ∧ size ≤ sz) ∨
              ∃ sz, 8 ≤ sz ∧ find_fit_step size bp s = Done (inl (bp + sz)) s).
    { unfold find_fit_step, HDRP, WSIZE.
      rewrite (bind_Done _ _ _ _ _ Hsz).
      case_bool_decide as Hpos; [| by left].
      rewrite (bind_Done _ _ _ _ _ Hal), (bind_Done _ _ _ _ _ Hsz).
      destruct (bool_decide (alloc_bit _ = 0) && bool_decide (size ≤ _)) eqn:Hfit.
      - right; left. split; [done |].
        apply andb_prop in Hfit as [Ha Hs]. apply bool_decide_eq_true in Ha, Hs.
        split; [by rewrite Hal, Ha | eauto].
      - rewrite (bind_Done _ _ _ _ _ (NEXT_BLKP_run _ _ _ Hin eq_refl)).
        right; right. eexists. split; [| reflexivity]. lia. }
    destruct Hstep as [Hstep | [(Hstep & ? & ?) | (sz & ? & Hstep)]];
      rewrite !(bind_Done _ _ _ _ _ Hstep).
    + right. exists NULL. split; [done | by left].
    + right. exists bp. split; [done | by right].
    + apply IH. unfold in_heap, WSIZE in Hin. lia.
  - left. apply bind_Fault. unfold find_fit_step.
    apply bind_Fault. unfold GET_SIZE. apply bind_Fault.
    unfold GET, HDRP, WSIZE. by rewrite decide_False.
Qed.

Lemma find_fit_sound s size :
  find_fit size s = Fault ∨
  ∃ r, find_fit size s = Done r s ∧
       (r = NULL ∨
        GET_ALLOC (HDRP r) s = Done 0 s ∧
        ∃ sz, GET_SIZE (HDRP r) s = Done sz s ∧ 0 < sz ∧ size ≤ sz).
Proof.
  unfold find_fit, loop.
  destruct (find_fit_iterate_sound s size _ (heap_ptr s)
              (loop_fuel_enough s (heap_ptr s))) as [Hf | (r & Hrun & Hr)].
  - left. apply bind_Fault. by rewrite iterate_unary.
  - right. exists r. split; [| done].
    by rewrite (bind_Done _ _ _ _ _ (eq_trans (iterate_unary _ _ _ _) Hrun)).
Qed.

Lemma iterate_Fault {X R} (body : X → M (X + R)) fuel x s :
  body x s = Fault → iterate fuel body x s = Fault.
Proof.
  revert x s. induction fuel as [fuel IH | fuel IH |]; intros x s Hf; cbn [iterate].
  - by apply bind_Fault.
  - by apply bind_Fault, IH.
  - done.
Qed.

Lemma find_fit_Fault s size :
  ¬ in_heap s (HDRP (heap_ptr s)) → find_fit size s = Fault.
Proof.
  intros Hout. unfold find_fit, loop. apply bind_Fault, iterate_Fault.
  unfold find_fit_step, GET_SIZE. do 2 apply bind_Fault.
  unfold GET. by rewrite decide_False.
Qed.

(** ** Characters in a block *)

Lemma get_set_byte w k k' c :
  0 ≤ k < 4 → 0 ≤ k' < 4 →
  get_byte (to_uint (set_byte w k c)) k' =
  if decide (k = k') then c mod 256 else get_byte w k'.
Proof.
  intros Hk Hk'. unfold to_uint, UINT_MOD, set_byte, get_byte.
  assert (k = 0 ∨ k = 1 ∨ k = 2 ∨ k = 3) as Hc by lia.
  assert (k' = 0 ∨ k' = 1 ∨ k' = 2 ∨ k' = 3) as Hc' by lia.
  destruct Hc as [-> | [-> | [-> | ->]]], Hc' as [-> | [-> | [-> | ->]]];
    (destruct (decide _) as [? | ?]; [try lia | try done]);
    change (256 ^ 0) with 1; change (256 ^ 1) with 256;
    change (256 ^ 2) with 65536; change (256 ^ 3) with 16777216;
    change (2 ^ 32) with 4294967296; lia.
Qed.

Lemma char_word_range ptr i : 0 ≤ i → ptr + i - 3 ≤ char_word ptr i ≤ ptr + i.
Proof. unfold char_word, WSIZE. lia. Qed.

Lemma GET_CHAR_run ptr i s :
  in_heap s (char_word ptr i) → GET_CHAR ptr i s = Done (char_of (mem s) ptr i) s.
Proof.
  intros Hin. unfold GET_CHAR. by rewrite (bind_Done _ _ _ _ _ (GET_run _ _ Hin)).
Qed.

Lemma PUT_CHAR_run ptr i c s :
  in_heap s (char_word ptr i) →
  PUT_CHAR ptr i c s =
    Done tt (set_mem (<[char_word ptr i :=
                          to_uint (set_byte (word (mem s) (char_word ptr i))
                                     (i mod WSIZE) c)]> (mem s)) s).
Proof.
  intros Hin. unfold PUT_CHAR. rewrite (bind_Done _ _ _ _ _ (GET_run _ _ Hin)).
  by apply PUT_run.
Qed.

(** One byte changes under [PUT_CHAR], the others stay. *)
Lemma char_of_insert m ptr i c j :
  0 ≤ i → 0 ≤ j →
  char_of (<[char_word ptr i :=
               to_uint (set_byte (word m (char_word ptr i)) (i mod WSIZE) c)]> m) ptr j =
  if decide (i = j) then c mod 256 else char_of m ptr j.
Proof.
  intros Hi Hj. unfold char_of.
  destruct (decide (char_word ptr i = char_word ptr j)) as [Heq | Hne].
  - rewrite word_insert_eq by done.
    rewrite get_set_byte by (unfold WSIZE; lia). rewrite <- Heq.
    unfold char_word, WSIZE in Heq.
    destruct (decide (i = j)) as [-> | ?].
    + by rewrite decide_True.
    + rewrite decide_False by (unfold WSIZE; lia). done.
  - rewrite word_insert_ne by done.
    rewrite decide_False; [done |]. by intros ->.
Qed.

(** The loop that fills the array. *)
Lemma put_chars_run ptr (f : Z → Z) : ∀ (n : nat) i0 s,
  0 ≤ i0 → lo s ≤ ptr + i0 - 3 → ptr + i0 + Z.of_nat n + 3 ≤ brk s →
  ∃ m',
    for_loop n i0 (λ i _, PUT_CHAR ptr i (f i)) tt s = Done tt (set_mem m' s) ∧
    (∀ j, i0 ≤ j < i0 + Z.of_nat n → char_of m' ptr j = f j mod 256) ∧
    (∀ j, 0 ≤ j < i0 → char_of m' ptr j = char_of (mem s) ptr j) ∧
    (∀ q, q < ptr + i0 - 3 ∨ ptr + i0 + Z.of_nat n ≤ q → word m' q = word (mem s) q).
Proof.
  induction n as [| n IH]; intros i0 s Hi Hlo Hhi.
  - exists (mem s). simpl. rewrite set_mem_id. split_and!; [done | lia | done | done].
  - pose proof (char_word_range ptr i0 Hi) as Hr.
    assert (Hin : in_heap s (char_word ptr i0)) by (unfold in_heap, WSIZE; lia).
    cbn [for_loop]. rewrite (bind_Done _ _ _ _ _ (PUT_CHAR_run ptr i0 (f i0) s Hin)).
    set (m1 := <[char_word ptr i0 := _]> (mem s)).
    destruct (IH (i0 + 1) (set_mem m1 s)) as (m' & Hrun & Hch & Hbefore & Hfr);
      [ lia | proj; lia | proj; lia | ].
    change (mem (set_mem m1 s)) with m1 in Hbefore, Hfr.
    exists m'. rewrite Hrun, set_mem_set_mem. split_and!; [done | | |].
    + intros j Hj. destruct (decide (j = i0)) as [-> | Hne]; [| apply Hch; lia].
      rewrite Hbefore by lia. subst m1.
      rewrite char_of_insert by lia. by rewrite decide_True.
    + intros j Hj. rewrite Hbefore by lia. subst m1.
      rewrite char_of_insert by lia. by rewrite decide_False by lia.
    + intros q Hq. rewrite Hfr by lia.
      subst m1. rewrite word_insert_ne by lia. done.
Qed.

(** The loop that prints the array. *)
Lemma get_chars_run ptr : ∀ (n : nat) i0 s acc,
  0 ≤ i0 → lo s ≤ ptr + i0 - 3 → ptr + i0 + Z.of_nat n + 3 ≤ brk s →
  for_loop n i0 (λ i out, c ← GET_CHAR ptr i; mret (out ++ [c])) acc s =
    Done (acc ++ (char_of (mem s) ptr <$> seqZ i0 (Z.of_nat n))) s.
Proof.
  induction n as [| n IH]; intros i0 s acc Hi Hlo Hhi.
  - simpl. by rewrite app_nil_r.
  - pose proof (char_word_range ptr i0 Hi) as Hr.
    assert (Hin : in_heap s (char_word ptr i0)) by (unfold in_heap, WSIZE; lia).
    assert (Hbody : (c ← GET_CHAR ptr i0; mret (acc ++ [c])) s =
                    Done (acc ++ [char_of (mem s) ptr i0]) s).
    { by rewrite (bind_Done _ _ _ _ _ (GET_CHAR_run ptr i0 s Hin)). }
    cbn [for_loop]. rewrite (bind_Done _ _ _ _ _ Hbody).
    rewrite IH by lia.
    rewrite Nat2Z.inj_succ, (seqZ_cons i0) by lia. rewrite fmap_cons.
    rewrite <- app_assoc. cbn [app].
    replace (Z.succ i0) with (i0 + 1) by lia.
    by replace (Z.pred (Z.succ (Z.of_nat n))) with (Z.of_nat n) by lia.
Qed.

(** A chain depends on the words of its tags only. *)
Lemma blocks_agree m m' bp bs :
  blocks m bp bs →
  (∀ q, bp - 4 ≤ q < bp + span bs - 4 → word m' q = word m q) →
  blocks m' bp bs.
Proof.
  revert bp. induction bs as [| b bs IH]; intros bp; [done |].
  intros (? & ? & [Hh Hf] & Hbs) Hsame.
  pose proof (blocks_span_nonneg _ _ _ Hbs). cbn [span] in Hsame.
  split_and!; try done.
  - split; rewrite Hsame by lia; done.
  - apply IH; [done |]. intros q Hq. apply Hsame. lia.
Qed.

(** Writing into the payload of a block leaves the heap well formed. *)
Lemma heap_shape_payload s m' pre b post :
  heap_shape s (pre ++ b :: post) →
  (∀ q, q ≤ heap_ptr s + span pre - 4 ∨ heap_ptr s + span pre + b.1 - 8 ≤ q →
        word m' q = word (mem s) q) →
  heap_shape (set_mem m' s) (pre ++ b :: post).
Proof.
  intros Hs Hsame. pose proof Hs as [_ _ Hpro Hbs Hend Hepi].
  apply (heap_shape_update s _ _ _ Hs); [done | done | |].
  - apply blocks_app in Hbs as [Hpre (? & ? & [Hh Hf] & Hpost)].
    pose proof (blocks_span_nonneg _ _ _ Hpre).
    pose proof (blocks_span_nonneg _ _ _ Hpost).
    apply blocks_app. split; [| split_and!; try done].
    + eapply blocks_agree; [done |]. intros q Hq. apply Hsame. lia.
    + split; rewrite Hsame by lia; done.
    + eapply blocks_agree; [done |]. intros q Hq. apply Hsame. lia.
  - rewrite Hsame; [done |]. rewrite span_app in Hend.
    apply blocks_app in Hbs as [_ (? & ? & _ & Hpost)].
    apply blocks_span_nonneg in Hpost. unfold WSIZE in *. cbn [span] in *. lia.
Qed.

Lemma main_text :
  (λ i, (char_code "a" + i mod 26) mod 256) <$> seqZ 0 48 =
  text_bytes "abcdefghijklmnopqrstuvwxyzabcdefghijklmnopqrstuv".
Proof. reflexivity. Qed.

(** * The claims of the specification *)

Lemma demo_env_ok : env_ok demo_boot.
Proof. unfold env_ok, demo_boot, boot, UINT_MOD. simpl. lia. Qed.

Lemma demo_init : mm_init demo_boot = Done 0 demo_heap.
Proof. vm_compute. reflexivity. Qed.

Lemma demo_heap_ok : heap_ok demo_heap [(DSIZE, true); (CHUNKSIZE, false)].
Proof. apply (mm_init_ok demo_boot demo_heap demo_env_ok demo_init). Qed.

(** ** C10: the codec round trip *)

Lemma codec_words size (a : Z) :
  0 ≤ size < UINT_MOD → size mod DSIZE = 0 → a = 0 ∨ a = 1 →
  size_bits (to_uint (PACK size a)) = size ∧
  alloc_bit (to_uint (PACK size a)) = a.
Proof.
  unfold DSIZE. intros Hr Hm Ha.
  assert (Hb : a = Z.b2z (bool_decide (a = 1))).
  { destruct Ha as [-> | ->]; reflexivity. }
  rewrite Hb at 1 2. rewrite !to_uint_PACK by done.
  rewrite size_bits_tag, alloc_bit_tag by done. by rewrite <- Hb.
Qed.

(** C10. For every size that is a multiple of the alignment unit and fits
    the 32-bit word, and every flag [a] in {0, 1}: after storing
    [PACK(size, a)] at an address [p] of the heap, [GET_SIZE(p)] is [size]
    and [GET_ALLOC(p)] is [a]. *)
Theorem codec_round_trip s p size a :
  in_heap s p →
  0 ≤ size < UINT_MOD → size mod DSIZE = 0 → a = 0 ∨ a = 1 →
  (PUT p (PACK size a);; GET_SIZE p) s =
    Done size (set_mem (<[p := to_uint (PACK size a)]> (mem s)) s) ∧
  (PUT p (PACK size a);; GET_ALLOC p) s =
    Done a (set_mem (<[p := to_uint (PACK size a)]> (mem s)) s).
Proof.
  intros Hp Hr Hm Ha. destruct (codec_words size a Hr Hm Ha) as [Hsz Hal].
  split.
  - rewrite (bind_Done _ _ _ _ _ (PUT_run p _ _ s Hp eq_refl)).
    apply GET_SIZE_run; [done |]. proj. by rewrite word_insert_eq.
  - rewrite (bind_Done _ _ _ _ _ (PUT_run p _ _ s Hp eq_refl)).
    apply GET_ALLOC_run; [done |]. proj. by rewrite word_insert_eq.
Qed.

Lemma codec_round_trip_witness :
  (PUT 4100 (PACK 4096 1);; GET_SIZE 4100) demo_heap =
    Done 4096 (set_mem (<[4100 := to_uint (PACK 4096 1)]> (mem demo_heap)) demo_heap) ∧
  (PUT 4100 (PACK 4096 1);; GET_ALLOC 4100) demo_heap =
    Done 1 (set_mem (<[4100 := to_uint (PACK 4096 1)]> (mem demo_heap)) demo_heap).
Proof.
  apply (codec_round_trip demo_heap 4100 4096 1).
  - vm_compute. split; discriminate.
  - vm_compute. split; [discriminate | reflexivity].
  - reflexivity.
  - right. reflexivity.
Defined.

(** ** C7: first fit *)

Lemma first_fit_all_unfit size bp bs :
  Forall (λ b : block, b.2 = true ∨ b.1 < size) bs → first_fit size bp bs = NULL.
Proof.
  revert bp. induction bs as [| [sz a] bs IH]; intros bp Hall; [done |].
  apply Forall_cons in Hall as [Hb Hall]. cbn [first_fit fst snd] in *.
  destruct Hb as [-> | Hlt]; [by apply IH |].
  rewrite bool_decide_false by lia. rewrite andb_false_r. by apply IH.
Qed.

(** C7. In a well-formed heap whose blocks behind the prologue are [tl],
    [find_fit size] returns, without changing the heap, the first block in
    address order that is free and of size at least [size]: every block
    before it is allocated or too small.  It returns [NULL] exactly when no
    block before the epilogue is free and large enough. *)
Theorem find_fit_first_fit s tl size :
  heap_shape s ((DSIZE, true) :: tl) →
  find_fit size s = Done (first_fit size (heap_ptr s + DSIZE) tl) s ∧
  (first_fit size (heap_ptr s + DSIZE) tl = NULL ↔
   Forall (λ b : block, b.2 = true ∨ b.1 < size) tl) ∧
  (first_fit size (heap_ptr s + DSIZE) tl ≠ NULL →
   ∃ pre fs post,
     tl = pre ++ (fs, false) :: post ∧
     first_fit size (heap_ptr s + DSIZE) tl = heap_ptr s + DSIZE + span pre ∧
     size ≤ fs ∧ Forall (λ b : block, b.2 = true ∨ b.1 < size) pre).
Proof.
  intros Hs. rewrite (find_fit_shape s _ size Hs).
  destruct Hs as [Hlo _ _ Hbs _ _]. unfold DSIZE in *.
  destruct Hbs as (_ & _ & _ & Htl). cbn [fst snd] in Htl.
  assert (Hpos : ∀ b, b ∈ tl → 0 < b.1) by (intros b; by eapply blocks_pos).
  split_and!.
  - reflexivity.
  - split; [| apply first_fit_all_unfit].
    intros Hnull. eapply first_fit_none; [done | lia | done].
  - intros Hne. apply first_fit_found; [done | lia | done].
Qed.

Lemma find_fit_first_fit_witness :
  find_fit 48 demo_heap = Done (first_fit 48 (heap_ptr demo_heap + DSIZE) [(CHUNKSIZE, false)]) demo_heap.
Proof.
  apply (find_fit_first_fit demo_heap [(CHUNKSIZE, false)] 48).
  apply demo_heap_ok.
Defined.

(** ** C6: placement and splitting *)

(** C6. For a free block of size [fs] in a well-formed heap and a requested
    size [asize] that is a block size (a multiple of the alignment unit, at
    least one double word) with [asize ≤ fs]: [place] splits exactly when
    [fs - asize] is at least the minimum block size, leaving an allocated
    block of size [asize] followed by a free block of size [fs - asize];
    otherwise it marks the whole block of size [fs] allocated.  Every free
    block that placement produces has at least the minimum block size. *)
Theorem place_splits s pre fs post asize :
  heap_shape s (pre ++ (fs, false) :: post) →
  DSIZE ≤ asize ≤ fs → asize mod DSIZE = 0 →
  ∃ s',
    place (heap_ptr s + span pre) asize s = Done tt s' ∧
    (2 * DSIZE ≤ fs - asize →
     heap_shape s' (pre ++ (asize, true) :: (fs - asize, false) :: post)) ∧
    (fs - asize < 2 * DSIZE → heap_shape s' (pre ++ (fs, true) :: post)) ∧
    heap_shape s' (pre ++ placed fs asize ++ post) ∧
    Forall (λ b : block, b.2 = false → 2 * DSIZE ≤ b.1) (placed fs asize).
Proof.
  unfold DSIZE. intros Hs Ha Hm.
  destruct (place_shape s pre fs post asize Hs Ha Hm) as (m' & Hrun & Hs').
  exists (set_mem m' s). split; [done |].
  unfold placed, DSIZE in *. case_bool_decide; cbn [app] in *.
  - split_and!; [done | lia | done |]. repeat constructor; simpl; [done | lia].
  - split_and!; [lia | done | done |]. by repeat constructor.
Qed.

Lemma place_splits_witness :
  ∃ s',
    place (heap_ptr demo_heap + span [(DSIZE, true)]) 56 demo_heap = Done tt s' ∧
    heap_shape s' ([(DSIZE, true)] ++ (56, true) :: (CHUNKSIZE - 56, false) :: []).
Proof.
  destruct (place_splits demo_heap [(DSIZE, true)] CHUNKSIZE [] 56)
    as (s' & Hrun & Hsplit & _).
  - apply demo_heap_ok.
  - vm_compute. split; discriminate.
  - reflexivity.
  - exists s'. split; [exact Hrun |]. apply Hsplit. vm_compute. discriminate.
Defined.

(** ** C5: the four cases of coalescing *)

Lemma heap_shape_tagged s pre b post :
  heap_shape s (pre ++ b :: post) → tagged (mem s) (heap_ptr s + span pre) b.
Proof.
  intros [_ _ _ Hbs _ _]. apply blocks_app in Hbs as [_ Hbs].
  by destruct Hbs as (_ & _ & ? & _).
Qed.

(** C5, for heaps of less than 4 GiB.  In a well-formed heap, which
    [heap_shape] keeps below 4 GiB so that every sum of neighbouring sizes
    fits the 32-bit header word, for a block at [bp] of size [sz] whose
    predecessor has size [s1] and flag [a1] and whose successor is the first
    of [post] (the epilogue when [post] is empty), [coalesce bp]:
    - returns [bp] and changes nothing when both neighbours are allocated;
    - when only the successor, of size [s2], is free: returns [bp], and the
      header of [bp] and the footer of the successor hold [sz + s2], free;
    - when only the predecessor is free: returns the predecessor's address,
      and the predecessor's header and the footer of [bp] hold [s1 + sz], free;
    - when both are free: returns the predecessor's address, and the
      predecessor's header and the successor's footer hold [s1 + sz + s2],
      free.
    In each case the heap is again well formed, with the merged block in
    place of the blocks it was made of. *)
Theorem coalesce_four_cases s pre s1 a1 sz a0 post :
  heap_shape s (pre ++ (s1, a1) :: (sz, a0) :: post) →
  let bp := heap_ptr s + span pre + s1 in
  (a1 = true → (post = [] ∨ ∃ s2 t, post = (s2, true) :: t) →
   coalesce bp s = Done bp s) ∧
  (a1 = true → ∀ s2 t, post = (s2, false) :: t →
   ∃ s', coalesce bp s = Done bp s' ∧
         word (mem s') (HDRP bp) = tag (sz + s2) false ∧
         word (mem s') (bp + (sz + s2) - DSIZE) = tag (sz + s2) false ∧
         heap_shape s' (pre ++ (s1, true) :: (sz + s2, false) :: t)) ∧
  (a1 = false → (post = [] ∨ ∃ s2 t, post = (s2, true) :: t) →
   ∃ s', coalesce bp s = Done (bp - s1) s' ∧
         word (mem s') (HDRP (bp - s1)) = tag (s1 + sz) false ∧
         word (mem s') (bp + sz - DSIZE) = tag (s1 + sz) false ∧
         heap_shape s' (pre ++ (s1 + sz, false) :: post)) ∧
  (a1 = false → ∀ s2 t, post = (s2, false) :: t →
   ∃ s', coalesce bp s = Done (bp - s1) s' ∧
         word (mem s') (HDRP (bp - s1)) = tag (s1 + sz + s2) false ∧
         word (mem s') (bp + sz + s2 - DSIZE) = tag (s1 + sz + s2) false ∧
         heap_shape s' (pre ++ (s1 + sz + s2, false) :: t)).
Proof.
  intros Hs bp.
  destruct (coalesce_shape_any s pre (s1, a1) sz a0 post Hs)
    as (m' & Hrun & Hs' & Hsame).
  cbn [fst snd] in *. fold bp in Hrun. unfold HDRP, WSIZE, DSIZE.
  split_and!.
  - intros -> Hpost. rewrite Hrun, (Hsame eq_refl Hpost), set_mem_id.
    f_equal; subst bp; lia.
  - intros -> s2 t ->. exists (set_mem m' s).
    unfold coalesced_chain, merged in Hs'. cbn [fst snd] in Hs'.
    pose proof (heap_shape_tagged _ (pre ++ [(s1, true)]) _ t
                  ltac:(rewrite <- app_assoc; exact Hs')) as [Hh Hf].
    rewrite span_app in Hh, Hf. cbn [span fst snd heap_ptr set_mem] in Hh, Hf.
    split_and!; [ rewrite Hrun; f_equal; subst bp; lia
                | same_word Hh | same_word Hf | done ].
  - intros -> Hpost. exists (set_mem m' s).
    assert (Hm : coalesced_chain (s1, false) (sz, a0) post = (s1 + sz, false) :: post).
    { destruct Hpost as [-> | (s2 & t & ->)]; reflexivity. }
    rewrite Hm in Hs'. pose proof (heap_shape_tagged _ _ _ _ Hs') as [Hh Hf].
    cbn [span fst snd heap_ptr set_mem] in Hh, Hf.
    split_and!; [ rewrite Hrun; f_equal; subst bp; lia
                | same_word Hh | same_word Hf | done ].
  - intros -> s2 t ->. exists (set_mem m' s).
    unfold coalesced_chain, merged in Hs'. cbn [fst snd] in Hs'.
    pose proof (heap_shape_tagged _ _ _ _ Hs') as [Hh Hf].
    cbn [span fst snd heap_ptr set_mem] in Hh, Hf.
    split_and!; [ rewrite Hrun; f_equal; subst bp; lia
                | same_word Hh | same_word Hf | done ].
Qed.

Ltac concrete :=
  vm_compute; repeat split; try discriminate; try reflexivity.

Lemma demo_heap1_shape :
  heap_shape demo_heap1 ([] ++ (8, true) :: (56, true) :: [(4040, false)]).
Proof. split; [concrete .. ]. by eexists. Qed.

Lemma coalesce_four_cases_witness :
  ∃ s', coalesce 4112 demo_heap1 = Done 4112 s' ∧
        word (mem s') (HDRP 4112) = tag (56 + 4040) false ∧
        word (mem s') (4112 + (56 + 4040) - DSIZE) = tag (56 + 4040) false ∧
        heap_shape s' ([] ++ (8, true) :: (56 + 4040, false) :: []).
Proof.
  destruct (coalesce_four_cases demo_heap1 [] 8 true 56 true [(4040, false)]
              demo_heap1_shape) as (_ & Hcase & _).
  exact (Hcase eq_refl 4040 [] eq_refl).
Defined.

(** C5 as stated fails on a heap of 4 GiB or more.  With [2^40] bytes to
    grant, two blocks of 2 GiB are handed out and the first is released: the
    heap is a chain of blocks whose headers and footers agree, a free block
    of [2^31 + 8] bytes at [a], an allocated one of the same size at [b], and
    a free rest of 4112 bytes, closed by the epilogue.  [coalesce b] returns
    the predecessor's address [a], but the header there then holds 4128, the
    sum of the three sizes cut to 32 bits, and not that sum [2^32 + 4128];
    the scan of the heap then finds a block of 4128 bytes followed by a free
    word of size zero. *)
Lemma coalesce_sum_truncated :
  ∃ a b s s',
    (mm_init;; a ← mm_malloc (2 ^ 31); b ← mm_malloc (2 ^ 31); mm_free a;;
     mret (a, b)) (boot 4096 (2 ^ 40)) = Done (a, b) s ∧
    blocks (mem s) (heap_ptr s)
      [(DSIZE, true); (2 ^ 31 + 8, false); (2 ^ 31 + 8, true); (4112, false)] ∧
    heap_ptr s + span [(DSIZE, true); (2 ^ 31 + 8, false); (2 ^ 31 + 8, true);
                       (4112, false)] = brk s ∧
    word (mem s) (brk s - WSIZE) = tag 0 true ∧
    a = heap_ptr s + DSIZE ∧ b = a + (2 ^ 31 + 8) ∧
    coalesce b s = Done a s' ∧
    word (mem s') (HDRP a) = tag 4128 false ∧
    word (mem s') (HDRP a) ≠ tag ((2 ^ 31 + 8) + (2 ^ 31 + 8) + 4112) false ∧
    heap_walk s' = Done [(DSIZE, true); (4128, false); (0, false)] s'.
Proof.
  eexists _, _, _, _.
  split; [vm_compute; reflexivity |].
  split; [concrete |].
  split; [vm_compute; reflexivity |].
  split; [vm_compute; reflexivity |].
  split; [vm_compute; reflexivity |].
  split; [vm_compute; reflexivity |].
  split; [vm_compute; reflexivity |].
  split; [vm_compute; reflexivity |].
  split; [by vm_compute | vm_compute; reflexivity].
Qed.

(** ** C8: failure of [mm_init] *)

Lemma extend_heap_chunk s0 :
  0 ≤ lo s0 ≤ brk s0 → brk s0 + 16 + 4096 ≤ lim s0 →
  extend_heap (CHUNKSIZE / WSIZE) (sentinels s0) = Done (brk s0 + 16) (initial_heap s0).
Proof.
  intros. unfold extend_heap. rewrite extend_bytes_chunk.
  rewrite (bind_Done _ _ _ _ _ (sbrk_ok (sentinels s0) 4096 ltac:(lia)
             ltac:(unfold sentinels; cbn [lo brk]; lia)
             ltac:(unfold sentinels; cbn [lim brk]; lia))).
  unfold sentinels at 1. cbn [brk].
  rewrite bool_decide_false by (unfold SBRK_FAILED; lia).
  unfold sentinels. put. step FTRP_run. put. step NEXT_BLKP_run. put.
  rewrite !set_mem_set_mem.
  erewrite (coalesce_run _ (brk s0 + 16) 8 true 4096 false 0 true);
    proj; unfold HDRP, WSIZE; try lia; try done;
    try (rd_word; first [ reflexivity | f_equal; lia ]).
  unfold coalesced, initial_heap, sentinels. same_state.
Qed.

Lemma mm_init_success s0 :
  0 ≤ lo s0 ≤ brk s0 → brk s0 + 16 + 4096 ≤ lim s0 →
  mm_init s0 = Done 0 (initial_heap s0).
Proof.
  intros. rewrite mm_init_sentinels by lia.
  rewrite (bind_Done _ _ _ _ _ (extend_heap_chunk s0 ltac:(lia) ltac:(lia))).
  by rewrite bool_decide_false by (unfold NULL; lia).
Qed.

(** C8, as the code has it.  [mm_init] returns -1 exactly when the
    environment does not grant the 16 bytes of the sentinels or, after them,
    the default chunk; otherwise it returns 0.  A failure leaves a trace in
    the heap state: when the first request fails, [heap_ptr] holds the failure
    value of [sbrk] (break and memory are as before); when the chunk fails,
    the 16 bytes stay obtained, the sentinels are written and [heap_ptr]
    points behind the prologue header. *)
Theorem mm_init_failure s0 :
  0 ≤ lo s0 ≤ brk s0 →
  ∃ r s',
    mm_init s0 = Done r s' ∧ (r = 0 ∨ r = -1) ∧
    (r = -1 ↔
     sbrk (4 * WSIZE) s0 = Done SBRK_FAILED s0 ∨
     sbrk (extend_bytes (CHUNKSIZE / WSIZE)) (sentinels s0)
       = Done SBRK_FAILED (sentinels s0)) ∧
    (sbrk (4 * WSIZE) s0 = Done SBRK_FAILED s0 →
     s' = set_heap_ptr SBRK_FAILED s0) ∧
    (sbrk (4 * WSIZE) s0 ≠ Done SBRK_FAILED s0 → r = -1 → s' = sentinels s0) ∧
    (r = 0 → s' = initial_heap s0).
Proof.
  intros Hlo.
  assert (Hfirst : sbrk (4 * WSIZE) s0 = Done SBRK_FAILED s0 ↔ lim s0 < brk s0 + 16).
  { unfold sbrk. change (to_intptr (4 * WSIZE)) with 16. case_decide.
    - split; [| lia]. intros [=Hb]. unfold SBRK_FAILED in Hb. lia.
    - split; [lia | done]. }
  assert (Hsecond : sbrk (extend_bytes (CHUNKSIZE / WSIZE)) (sentinels s0)
                      = Done SBRK_FAILED (sentinels s0) ↔
                    lim s0 < brk s0 + 16 + 4096).
  { unfold sbrk. change (to_intptr (extend_bytes (CHUNKSIZE / WSIZE))) with 4096.
    unfold sentinels. cbn [lo brk lim]. case_decide.
    - split; [| lia]. intros [=Hb]. unfold SBRK_FAILED in Hb. lia.
    - split; [lia | done]. }
  destruct (decide (lim s0 < brk s0 + 16)) as [Hno | Hyes].
  - exists (-1), (set_heap_ptr SBRK_FAILED s0).
    rewrite mm_init_no_memory by lia.
    split_and!; rewrite ?Hfirst, ?Hsecond; try done; try lia; auto.
  - destruct (decide (lim s0 < brk s0 + 16 + 4096)) as [Hno2 | Hyes2].
    + exists (-1), (sentinels s0).
      rewrite mm_init_no_chunk by lia.
      split_and!; rewrite ?Hfirst, ?Hsecond; try done; try lia; auto.
    + exists 0, (initial_heap s0).
      rewrite mm_init_success by lia.
      split_and!; rewrite ?Hfirst, ?Hsecond; try done; try lia; auto.
Qed.

Lemma mm_init_failure_witness :
  ∃ r s', mm_init demo_boot = Done r s' ∧ (r = 0 ∨ r = -1).
Proof.
  destruct (mm_init_failure demo_boot) as (r & s' & Hrun & Hr & _).
  - vm_compute. split; discriminate.
  - exists r, s'. split; [exact Hrun | exact Hr].
Defined.

(** C8 as stated fails: with room for the sentinels but not for the chunk,
    [mm_init] fails after it has moved the break, written the sentinels and
    set [heap_ptr]; with no room at all it still overwrites [heap_ptr]. *)
Lemma mm_init_failure_commits :
  (∃ s', mm_init (boot 4096 4200) = Done (-1) s' ∧ s' ≠ boot 4096 4200 ∧
         brk s' = 4112 ∧ heap_ptr s' = 4104 ∧
         word (mem s') 4100 = to_uint (PACK DSIZE 1)) ∧
  (∃ s', mm_init (boot 4096 4100) = Done (-1) s' ∧ s' ≠ boot 4096 4100 ∧
         heap_ptr s' = SBRK_FAILED).
Proof.
  split.
  - eexists. split; [vm_compute; reflexivity |]. split_and!; try reflexivity.
    intros [=].
  - eexists. split; [vm_compute; reflexivity |]. split_and!; try reflexivity.
    intros [=].
Qed.

(** ** C3: how far the heap grows *)

Lemma find_fit_null_first_fit s bs size :
  heap_shape s bs → find_fit size s = Done NULL s →
  first_fit size (heap_ptr s) bs = NULL.
Proof.
  intros Hs Hrun. rewrite (find_fit_shape s bs size Hs) in Hrun.
  by injection Hrun.
Qed.

(** C3, as the code has it.  When [find_fit] fails for a request [n] in
    range, [mm_malloc n] asks the environment for [CHUNKSIZE / WSIZE] words
    if the adjusted size is at most [CHUNKSIZE], and else for the adjusted
    size in words plus two: one double word more than the adjusted size.
    If the environment grants them, the break moves up by exactly that many
    words and the call succeeds; if not, the call returns [NULL] and the heap
    stays as it was. *)
Theorem malloc_extension_size s bs n :
  heap_ok s bs → 0 < n ≤ REQUEST_MAX →
  find_fit (adjusted_size n) s = Done NULL s →
  let words := if bool_decide (CHUNKSIZE < adjusted_size n)
               then adjusted_size n / WSIZE + 2 else CHUNKSIZE / WSIZE in
  extend_bytes (extend_words (adjusted_size n)) = words * WSIZE ∧
  ∃ p s',
    mm_malloc n s = Done p s' ∧
    (brk s + words * WSIZE ≤ lim s →
     p ≠ NULL ∧ brk s' = brk s + words * WSIZE) ∧
    (lim s < brk s + words * WSIZE → p = NULL ∧ s' = s).
Proof.
  intros Hok Hn Hnofit words.
  destruct (adjusted_size_sane n Hn) as (_ & Ha16 & Ham & _ & Hahi).
  pose proof (extend_bytes_words _ (conj Ha16 Hahi) Ham) as Hext.
  assert (Hw : extend_bytes (extend_words (adjusted_size n)) = words * WSIZE).
  { subst words. unfold WSIZE. change CHUNKSIZE with 4096 in *. rewrite Hext.
    case_bool_decide; lia. }
  split; [done |]. rewrite <- Hw.
  pose proof (find_fit_null_first_fit s bs _ (ok_shape _ _ Hok) Hnofit) as Hff.
  destruct (mm_malloc_ok s bs n Hok Hn) as (p & s' & bs' & Hrun & Hout & Hok').
  exists p, s'. split; [done |].
  destruct (malloc_outcome_facts _ _ _ _ _ _ Hok Hout Hok') as (_ & _ & _ & _ & _ & Hp).
  destruct Hok as [[[] _ _ _ _ _] _ _]. unfold DSIZE, NULL in *.
  destruct Hp as [(_ & ? & -> & -> & _) | (Hge & _ & _ & [[Hfit _] | (_ & ? & ?)])].
  - split; [lia | done].
  - lia.
  - split; [| lia]. intros _. split; [lia | done].
Qed.

Lemma malloc_extension_size_witness :
  ∃ p s',
    mm_malloc 5000 demo_heap = Done p s' ∧
    (brk demo_heap + (adjusted_size 5000 / WSIZE + 2) * WSIZE ≤ lim demo_heap →
     p ≠ NULL ∧ brk s' = brk demo_heap + (adjusted_size 5000 / WSIZE + 2) * WSIZE).
Proof.
  destruct (malloc_extension_size demo_heap _ 5000 demo_heap_ok)
    as (_ & p & s' & Hrun & Hgrow & _).
  - vm_compute. split; [reflexivity | discriminate].
  - vm_compute. reflexivity.
  - exists p, s'. split; [exact Hrun | exact Hgrow].
Defined.

(** C3 as stated fails: for a request of 5000 bytes in the fresh heap no
    block fits, and the heap grows by 1254 words, two more than the 1252
    words of the adjusted size, which here is the larger of adjusted size
    and default chunk. *)
Lemma malloc_extension_overshoots :
  find_fit (adjusted_size 5000) demo_heap = Done NULL demo_heap ∧
  Z.max (adjusted_size 5000 / WSIZE) (CHUNKSIZE / WSIZE) = 1252 ∧
  ∃ p s', mm_malloc 5000 demo_heap = Done p s' ∧ p ≠ NULL ∧
          brk s' - brk demo_heap = 1254 * WSIZE.
Proof.
  split_and!; [vm_compute; reflexivity | reflexivity |].
  eexists _, _. split; [vm_compute; reflexivity |]. by split.
Qed.

(** ** C1: containment and alignment *)

(** C1, for requests in range.  In every heap reachable from an environment
    whose first break is aligned to [DSIZE], for every request [n] with
    [0 < n ≤ REQUEST_MAX]: the adjusted size is
    [max (2 * DSIZE, DSIZE * ceil ((n + DSIZE) / DSIZE))]; [mm_malloc n] runs to
    completion, and if it returns a pointer other than [NULL], the pointer is
    aligned to [DSIZE] and the size in its header is at least the adjusted
    size, which leaves at least [n] bytes after the [DSIZE] bytes of header
    and footer. *)
Theorem malloc_containment s0 s live n :
  env_ok s0 → brk s0 mod DSIZE = 0 → reachable s0 s live →
  0 < n ≤ REQUEST_MAX →
  adjusted_size n = Z.max (2 * DSIZE) (DSIZE * ((n + DSIZE + (DSIZE - 1)) / DSIZE)) ∧
  ∃ p s',
    mm_malloc n s = Done p s' ∧
    (p ≠ NULL →
     p mod DSIZE = 0 ∧
     ∃ size, GET_SIZE (HDRP p) s' = Done size s' ∧
             adjusted_size n ≤ size ∧ n ≤ size - DSIZE).
Proof.
  intros Henv Halign Hreach Hn.
  destruct (adjusted_size_sane n Hn) as (Hadj & _ & _ & Han & _).
  split; [done |].
  destruct (reachable_invariant _ _ _ Henv Hreach) as (bs & Hok & _ & Hhp & _).
  destruct (mm_malloc_ok s bs n Hok Hn) as (p & s' & bs' & Hrun & Hout & Hok').
  exists p, s'. split; [done |]. intros Hp.
  destruct (malloc_outcome_facts _ _ _ _ _ _ Hok Hout Hok')
    as (Hhp' & _ & _ & _ & _ & Hcase).
  destruct Hcase as [(_ & _ & ? & _) | (_ & _ & (pre & sz & post & -> & -> & Hsz) & _)];
    [done |].
  destruct Hok' as [Hs' _ _].
  pose proof (heap_shape_span _ _ Hs') as Hspan.
  pose proof (heap_shape_tagged _ _ _ _ Hs') as [Hh _].
  destruct Hs' as [Hlo' _ _ Hbs' Hend' _].
  rewrite span_app in Hend', Hspan.
  apply blocks_app in Hbs' as [Hpre Hblk].
  pose proof (blocks_span_mod _ _ _ Hpre). pose proof (blocks_span_nonneg _ _ _ Hpre).
  destruct Hblk as (? & ? & _ & Hpost). apply blocks_span_nonneg in Hpost.
  rewrite Hhp' in *. unfold DSIZE, WSIZE in *. cbn [fst snd span] in *.
  split; [lia |]. exists sz. split; [| lia].
  apply GET_SIZE_run; [inb |].
  unfold HDRP, WSIZE. rewrite Hh. apply size_bits_tag. valid.
Qed.

Lemma demo_reachable : reachable demo_boot demo_heap ∅.
Proof. apply reach_init, demo_init. Qed.

Lemma malloc_containment_witness :
  ∃ p s',
    mm_malloc 48 demo_heap = Done p s' ∧
    (p ≠ NULL →
     p mod DSIZE = 0 ∧
     ∃ size, GET_SIZE (HDRP p) s' = Done size s' ∧
             adjusted_size 48 ≤ size ∧ 48 ≤ size - DSIZE).
Proof.
  apply (malloc_containment demo_boot demo_heap ∅ 48).
  - exact demo_env_ok.
  - reflexivity.
  - exact demo_reachable.
  - vm_compute. split; [reflexivity | discriminate].
Defined.

(** C1 as stated fails for requests near the top of [size_t]: the adjusted
    size of [2^64 - 1] wraps around to 8, and in the fresh heap [mm_malloc]
    returns a block of size 8, which has no payload at all. *)
Lemma malloc_huge_request_undersized :
  0 < 2 ^ 64 - 1 < SIZE_MOD ∧
  adjusted_size (2 ^ 64 - 1) ≠
    Z.max (2 * DSIZE) (DSIZE * ((2 ^ 64 - 1 + DSIZE + (DSIZE - 1)) / DSIZE)) ∧
  ∃ p s',
    mm_malloc (2 ^ 64 - 1) demo_heap = Done p s' ∧ p ≠ NULL ∧
    GET_SIZE (HDRP p) s' = Done 8 s' ∧ 8 - DSIZE < 2 ^ 64 - 1.
Proof.
  split_and!; [reflexivity | reflexivity | by vm_compute |].
  eexists _, _. split; [vm_compute; reflexivity |].
  split_and!; [done | vm_compute; reflexivity | reflexivity].
Qed.

(** ** C2: no two adjacent free blocks *)

(** C2, for requests in range.  In an environment that grants less than
    4 GiB, after a successful [mm_init] and any sequence of [mm_malloc] calls
    with requests up to [REQUEST_MAX] and [mm_free] calls on live pointers,
    the scan of the heap from the prologue to the epilogue finds no two
    neighbouring blocks that are both free.  This holds after every call,
    so in particular after every [mm_free]. *)
Theorem no_adjacent_free_blocks s0 s live :
  env_ok s0 → reachable s0 s live →
  ∃ bs, heap_walk s = Done bs s ∧ no_adj_free bs = true.
Proof.
  intros Henv Hreach.
  destruct (reachable_invariant _ _ _ Henv Hreach) as (bs & [Hs _ Hnaf] & _).
  exists (bs ++ [(0, true)]). split; [by apply heap_walk_shape |].
  by rewrite no_adj_free_epilogue.
Qed.

Lemma demo_reachable2 : reachable demo_boot demo_heap2 (({[4112]} ∪ ∅) ∖ {[4112]}).
Proof.
  apply (reach_free demo_boot demo_heap1 ({[4112]} ∪ ∅) 4112 demo_heap2).
  - apply (reach_malloc demo_boot demo_heap ∅ 48 4112 demo_heap1 demo_reachable).
    + vm_compute. split; discriminate.
    + vm_compute. reflexivity.
  - apply elem_of_union_l, elem_of_singleton. reflexivity.
  - vm_compute. reflexivity.
Qed.

Lemma no_adjacent_free_blocks_witness :
  ∃ bs, heap_walk demo_heap2 = Done bs demo_heap2 ∧ no_adj_free bs = true.
Proof.
  exact (no_adjacent_free_blocks demo_boot demo_heap2 _ demo_env_ok demo_reachable2).
Defined.

(** C2 as stated fails in two ways.  When a request near the top of
    [size_t] is allowed: for [2^64 - 20] the byte count handed to [sbrk]
    wraps to 0, [mm_malloc] returns the address behind the epilogue header,
    and releasing that pointer leaves the last block and the epilogue both
    marked free.  And when the environment grants 4 GiB or more: two blocks
    of 2 GiB are handed out and released, the sum of the sizes of the three
    neighbouring free blocks does not fit the 32-bit header, and the scan
    finds a free block of 4128 bytes followed by a free block of size zero
    in the middle of the heap. *)
Lemma no_adjacent_free_fails :
  (0 < 2 ^ 64 - 20 < SIZE_MOD ∧
   ∃ s1 p s2 s3,
     mm_init demo_boot = Done 0 s1 ∧
     mm_malloc (2 ^ 64 - 20) s1 = Done p s2 ∧ p ≠ NULL ∧
     mm_free p s2 = Done tt s3 ∧
     heap_walk s3 = Done [(DSIZE, true); (CHUNKSIZE, false); (0, false)] s3 ∧
     no_adj_free [(DSIZE, true); (CHUNKSIZE, false); (0, false)] = false) ∧
  (∃ s1 a s2 b s3 s4 s5,
     mm_init (boot 4096 (2 ^ 40)) = Done 0 s1 ∧
     mm_malloc (2 ^ 31) s1 = Done a s2 ∧ mm_malloc (2 ^ 31) s2 = Done b s3 ∧
     a ≠ NULL ∧ b ≠ NULL ∧ a ≠ b ∧
     mm_free a s3 = Done tt s4 ∧ mm_free b s4 = Done tt s5 ∧
     heap_walk s5 = Done [(DSIZE, true); (4128, false); (0, false)] s5 ∧
     no_adj_free [(DSIZE, true); (4128, false); (0, false)] = false).
Proof.
  split.
  - split; [split; reflexivity |].
    eexists _, _, _, _.
    split; [vm_compute; reflexivity |].
    split; [vm_compute; reflexivity |].
    split; [done |].
    split; [vm_compute; reflexivity |].
    split; [vm_compute; reflexivity | reflexivity].
  - eexists _, _, _, _, _, _, _.
    split; [vm_compute; reflexivity |].
    split; [vm_compute; reflexivity |].
    split; [vm_compute; reflexivity |].
    split_and!; [done | done | done | vm_compute; reflexivity
                | vm_compute; reflexivity | vm_compute; reflexivity | reflexivity].
Qed.

(** ** C4: the sentinels *)

(** C4, as the code has it.  In every reachable heap (requests up to
    [REQUEST_MAX], less than 4 GiB granted) the prologue header and footer
    hold [PACK(DSIZE, 1)], one double word, which is half the minimum block
    size [2 * DSIZE]; the word below the break is the epilogue header
    [PACK(0, 1)]; the scan of the heap starts with the prologue and ends with
    the epilogue; and no live pointer, so no pointer [mm_malloc] returned, is
    the prologue or the epilogue: each lies behind the prologue and at least
    a minimum block below the break. *)
Theorem sentinel_invariant s0 s live :
  env_ok s0 → reachable s0 s live →
  word (mem s) (HDRP (heap_ptr s)) = to_uint (PACK DSIZE 1) ∧
  word (mem s) (heap_ptr s) = to_uint (PACK DSIZE 1) ∧
  FTRP (heap_ptr s) s = Done (heap_ptr s) s ∧
  word (mem s) (HDRP (brk s)) = to_uint (PACK 0 1) ∧
  (∃ tl, heap_walk s = Done ((DSIZE, true) :: tl ++ [(0, true)]) s ∧
         Forall (λ b : block, 2 * DSIZE ≤ b.1) tl) ∧
  (∀ p, p ∈ live →
        heap_ptr s + DSIZE ≤ p ∧ p + 2 * DSIZE ≤ brk s ∧
        p ≠ heap_ptr s ∧ p ≠ brk s).
Proof.
  intros Henv Hreach.
  destruct (reachable_invariant _ _ _ Henv Hreach)
    as (bs & [Hs Hmin _] & Hlive & _).
  pose proof (heap_walk_shape _ _ Hs) as Hwalk.
  pose proof Hs as [Hlo _ [tl ->] Hbs Hend Hepi].
  pose proof Hbs as (_ & _ & [Hh Hf] & Htl).
  pose proof (blocks_span_nonneg _ _ _ Htl) as Htl0.
  unfold HDRP, DSIZE, WSIZE in *. cbn [fst snd span] in *.
  change (to_uint (PACK 8 1)) with (tag 8 true).
  change (to_uint (PACK 0 1)) with (tag 0 true).
  split_and!; try done.
  - same_word Hf.
  - rewrite (FTRP_run (heap_ptr s) s 8); [f_equal; lia | inb | ].
    rewrite Hh. apply size_bits_tag. valid.
  - by exists tl.
  - intros p Hp. destruct (Hlive p Hp) as [Hin Hne].
    apply elem_of_allocated in Hin as (pre & sz & post & Heq & ->).
    destruct pre as [| q pre]; [simpl in Hne; lia |].
    simpl in Heq. injection Heq as <- ->.
    rewrite span_app in Hend. apply blocks_app in Htl as [Hpre Hblk].
    apply blocks_span_nonneg in Hpre. destruct Hblk as (_ & _ & _ & Hpost).
    apply blocks_span_nonneg in Hpost.
    unfold min_ok in Hmin. cbn [tail] in Hmin.
    apply Forall_app in Hmin as [_ Hmin]. apply Forall_cons in Hmin as [Hsz _].
    unfold DSIZE in Hsz. cbn [span fst snd] in *. lia.
Qed.

Lemma sentinel_invariant_witness :
  word (mem demo_heap2) (HDRP (heap_ptr demo_heap2)) = to_uint (PACK DSIZE 1) ∧
  word (mem demo_heap2) (HDRP (brk demo_heap2)) = to_uint (PACK 0 1).
Proof.
  destruct (sentinel_invariant demo_boot demo_heap2 _ demo_env_ok demo_reachable2)
    as (Hh & _ & _ & He & _).
  exact (conj Hh He).
Defined.

(** C4 as stated fails on the size of the prologue: right after [mm_init]
    the prologue header and footer encode 8 bytes, while the floor that
    [mm_malloc] applies to requests is 16 bytes.  It also fails when a
    request near the top of [size_t] is allowed: [mm_malloc (2^64 - 20)]
    returns the address of the epilogue. *)
Lemma prologue_is_not_minimum_block :
  reachable demo_boot demo_heap ∅ ∧
  adjusted_size 1 = 2 * DSIZE ∧
  GET_SIZE (HDRP (heap_ptr demo_heap)) demo_heap = Done DSIZE demo_heap ∧
  word (mem demo_heap) (HDRP (heap_ptr demo_heap)) ≠ to_uint (PACK (2 * DSIZE) 1) ∧
  word (mem demo_heap) (heap_ptr demo_heap) ≠ to_uint (PACK (2 * DSIZE) 1) ∧
  ∃ s', mm_malloc (2 ^ 64 - 20) demo_heap = Done (brk demo_heap) s' ∧
        brk s' = brk demo_heap.
Proof.
  split_and!; [exact demo_reachable | reflexivity | vm_compute; reflexivity
              | by vm_compute | by vm_compute |].
  eexists. split; [vm_compute; reflexivity | reflexivity].
Qed.

(** ** C9: when [mm_malloc] returns [NULL] *)

Lemma extend_request_range n :
  0 ≤ n ≤ REQUEST_MAX →
  16 ≤ extend_bytes (extend_words (adjusted_size n)) < 2 ^ 63.
Proof.
  intros Hn. destruct (decide (n = 0)) as [-> | Hn0]; [by vm_compute |].
  destruct (adjusted_size_sane n ltac:(lia)) as (_ & Ha16 & Ham & _ & Hahi).
  rewrite (extend_bytes_words _ (conj Ha16 Hahi) Ham).
  change CHUNKSIZE with 4096. case_bool_decide; lia.
Qed.

(** [sbrk] refuses an increment exactly when the limit lies below the new
    break. *)
Lemma sbrk_refuses s bs size :
  heap_shape s bs → 0 ≤ size < 2 ^ 63 →
  sbrk size s = Done SBRK_FAILED s ↔ lim s < brk s + size.
Proof.
  intros Hs Hsize. pose proof (heap_shape_span _ _ Hs) as Hspan.
  destruct Hs as [Hlo _ _ _ Hend _]. unfold DSIZE in *.
  unfold sbrk. rewrite to_intptr_small by done.
  destruct (decide _) as [Hroom | Hfull].
  - split; [| lia]. intros [= Hb _]. unfold SBRK_FAILED in Hb. lia.
  - split; [lia | done].
Qed.

(** [find_fit] returns [NULL] exactly when no block of the heap is free and
    large enough. *)
Lemma find_fit_none s bs size :
  heap_shape s bs →
  find_fit size s = Done NULL s ↔
  Forall (λ b : block, b.2 = true ∨ b.1 < size) bs.
Proof.
  intros Hs. rewrite (find_fit_shape s bs size Hs).
  pose proof Hs as [Hlo _ _ Hbs _ _]. unfold DSIZE in *.
  split.
  - intros [= Hnone]. eapply first_fit_none; [done | lia |].
    intros b. by eapply blocks_pos.
  - intros Hall. by rewrite first_fit_all_unfit.
Qed.

(** C9, for requests in range.  For every size [n] up to [REQUEST_MAX], in a
    heap that satisfies the invariant, [mm_malloc n] returns, and it returns
    [NULL] exactly when [n] is zero or no fit exists and the environment
    cannot supply more memory: [find_fit] finds no block for the adjusted
    size, which is the case exactly when every block of the heap is
    allocated or smaller than the adjusted size, and [sbrk] refuses the
    extension, which is the case exactly when the limit lies below the break
    plus the byte count of the extension.  Whenever the call returns [NULL],
    the heap is as it was before the call. *)
Theorem malloc_null_iff s bs n :
  heap_ok s bs → 0 ≤ n ≤ REQUEST_MAX →
  ∃ p s',
    mm_malloc n s = Done p s' ∧
    (p = NULL ↔
     n = 0 ∨
     find_fit (adjusted_size n) s = Done NULL s ∧
     sbrk (extend_bytes (extend_words (adjusted_size n))) s = Done SBRK_FAILED s) ∧
    (find_fit (adjusted_size n) s = Done NULL s ↔
     Forall (λ b : block, b.2 = true ∨ b.1 < adjusted_size n) bs) ∧
    (sbrk (extend_bytes (extend_words (adjusted_size n))) s = Done SBRK_FAILED s ↔
     lim s < brk s + extend_bytes (extend_words (adjusted_size n))) ∧
    (p = NULL → s' = s).
Proof.
  intros Hok Hn. pose proof (ok_shape _ _ Hok) as Hs.
  pose proof (find_fit_none s bs (adjusted_size n) Hs) as Hfit.
  pose proof (extend_request_range n Hn) as Hext.
  assert (Hsbrk := sbrk_refuses s bs (extend_bytes (extend_words (adjusted_size n))) Hs
                     ltac:(lia)).
  destruct (decide (n = 0)) as [-> | Hn0].
  { exists NULL, s. split; [apply mm_malloc_zero |]. split_and!; try done.
    split; [by left | done]. }
  pose proof (find_fit_shape s bs (adjusted_size n) Hs) as Hff.
  pose proof Hs as [Hlo _ _ Hbs _ _]. unfold DSIZE in Hlo.
  destruct (mm_malloc_cases s bs n Hok ltac:(lia))
    as [(pre & fs & post & m' & -> & Hfirst & _ & _ & Hrun & _)
       | [(Hnone & Hfull & Hrun)
         | (Hnone & Hroom & pre0 & p0 & m' & -> & _ & Hrun & _)]].
  - apply blocks_app in Hbs as [Hpre%blocks_span_nonneg _].
    eexists _, _. split; [exact Hrun |].
    assert (Hp : heap_ptr s + span pre ≠ NULL) by (unfold NULL; lia).
    split_and!; try done.
    split; [done |]. intros [? | [Hnull _]]; [done |].
    rewrite Hff, Hfirst in Hnull. by injection Hnull.
  - exists NULL, s. split; [exact Hrun |]. split_and!; try done.
    split; [| done]. intros _. right. split; [by rewrite Hff, Hnone | by apply Hsbrk].
  - apply blocks_app in Hbs as [Hpre%blocks_span_nonneg Hp0].
    destruct Hp0 as (Hp0 & _).
    eexists _, _. split; [exact Hrun |].
    assert (Hp : heap_ptr s + span (if p0.2 then pre0 ++ [p0] else pre0) ≠ NULL).
    { unfold NULL. destruct p0.2; rewrite ?span_app; cbn [span]; lia. }
    split_and!; try done.
    split; [done |]. intros [? | [_ Hfail]]; [done |]. apply Hsbrk in Hfail.
    clear -Hfail Hroom. lia.
Qed.

Lemma malloc_null_iff_witness :
  ∃ p s', mm_malloc 48 demo_heap = Done p s' ∧ (p = NULL → s' = demo_heap).
Proof.
  destruct (malloc_null_iff demo_heap _ 48 demo_heap_ok)
    as (p & s' & Hrun & _ & _ & _ & Hsame).
  - vm_compute. split; discriminate.
  - exists p, s'. exact (conj Hrun Hsame).
Defined.

(** C9 as stated fails for sizes near the top of [size_t], in two ways.
    For [2^64 - 8] the adjusted size wraps to 0: in the fresh heap no block
    can hold the request and the environment cannot supply that much memory,
    yet [mm_malloc] returns a pointer that is not [NULL]; [find_fit] takes the
    free chunk for a block of size 0, and [place] overwrites the prologue's
    footer and leaves the header of the returned block marked free.  For
    [2^64 - 20], in an environment that has no memory left at all,
    [find_fit] finds no block, but the byte count of the extension wraps to
    0, [sbrk(0)] succeeds, and [mm_malloc] returns the old break, having
    overwritten the footer of the last block. *)
Lemma malloc_not_null_without_memory :
  (0 < 2 ^ 64 - 8 < SIZE_MOD ∧
   Forall (λ b : block, b.2 = true ∨ b.1 < 2 ^ 64 - 8)
          [(DSIZE, true); (CHUNKSIZE, false)] ∧
   lim demo_heap < brk demo_heap + (2 ^ 64 - 8) ∧
   adjusted_size (2 ^ 64 - 8) = 0 ∧
   ∃ p s', mm_malloc (2 ^ 64 - 8) demo_heap = Done p s' ∧ p ≠ NULL ∧
           GET_ALLOC (HDRP p) s' = Done 0 s' ∧
           word (mem demo_heap) (heap_ptr demo_heap) = to_uint (PACK DSIZE 1) ∧
           word (mem s') (heap_ptr s') = to_uint (PACK 0 1)) ∧
  (0 < 2 ^ 64 - 20 < SIZE_MOD ∧
   ∃ s p s',
     mm_init (boot 4096 (4096 + 16 + 4096)) = Done 0 s ∧
     heap_ok s [(DSIZE, true); (CHUNKSIZE, false)] ∧ brk s = lim s ∧
     find_fit (adjusted_size (2 ^ 64 - 20)) s = Done NULL s ∧
     extend_bytes (extend_words (adjusted_size (2 ^ 64 - 20))) = 0 ∧
     mm_malloc (2 ^ 64 - 20) s = Done p s' ∧ p ≠ NULL ∧ brk s' = brk s ∧
     word (mem s) (brk s - DSIZE) = tag CHUNKSIZE false ∧
     word (mem s') (brk s - DSIZE) = to_uint (PACK 0 1)).
Proof.
  split.
  - split; [split; reflexivity |].
    split; [repeat constructor; by left || (right; reflexivity) |].
    split; [reflexivity |]. split; [reflexivity |].
    eexists _, _. split; [vm_compute; reflexivity |].
    split; [done |]. split_and!; vm_compute; reflexivity.
  - split; [split; reflexivity |].
    eexists _, _, _. split; [vm_compute; reflexivity |].
    split.
    { eapply (mm_init_ok (boot 4096 (4096 + 16 + 4096))); [| vm_compute; reflexivity].
      concrete. }
    split; [reflexivity |].
    split; [vm_compute; reflexivity |]. split; [reflexivity |].
    split; [vm_compute; reflexivity |].
    split; [done |]. split_and!; vm_compute; reflexivity.
Qed.

(** Beyond [REQUEST_MAX] a call need not return: for [2^64 - 28] the byte
    count handed to [sbrk] is -8 as an [intptr_t], the break moves down by
    8 bytes (staying above [lo]), and the header of the new block is written
    above it. *)
Example malloc_shrinks_the_break :
  to_intptr (extend_bytes (extend_words (adjusted_size (2 ^ 64 - 28)))) = -8 ∧
  mm_malloc (2 ^ 64 - 28) demo_heap = Fault.
Proof. split; vm_compute; reflexivity. Qed.

(** The example of the source's [main]: a block is handed out, released, and
    handed out again at the same address. *)
Example reuse_after_free :
  (mm_init;; a ← mm_malloc 48; mm_free a;; b ← mm_malloc 48; mret (a, b)) demo_boot
  = Done (4112, 4112) demo_heap1.
Proof. vm_compute. reflexivity. Qed.

(** Why the reachable heaps start from a single [mm_init]: a second call
    that finds the environment exhausted overwrites [heap_ptr] with the
    failure value of [sbrk], and the next request reads outside the heap. *)
Example second_init_loses_heap :
  ∃ s1 s2,
    mm_init (boot 4096 (4096 + 16 + 4096)) = Done 0 s1 ∧
    mm_init s1 = Done (-1) s2 ∧ heap_ptr s2 = SBRK_FAILED ∧
    mm_malloc 1 s2 = Fault.
Proof.
  eexists _, _. split; [vm_compute; reflexivity |].
  split; [vm_compute; reflexivity |]. split; vm_compute; reflexivity.
Qed.

(** * Further properties of the allocator and of its example program *)

(** Concrete heaps for the examples below: [demo_heap1] holds one block of
    56 bytes at 4112, [demo_heap3] a second one of 112 bytes at 4168. *)
Lemma demo_heap1_ok : heap_ok demo_heap1 [(8, true); (56, true); (4040, false)].
Proof.
  split; [exact demo_heap1_shape | | reflexivity].
  unfold min_ok. cbn [tail]. repeat constructor; simpl; unfold DSIZE; lia.
Qed.

Lemma demo_malloc1 : mm_malloc 48 demo_heap = Done 4112 demo_heap1.
Proof. vm_compute. reflexivity. Qed.

Lemma demo_free1 : mm_free 4112 demo_heap1 = Done tt demo_heap2.
Proof. vm_compute. reflexivity. Qed.

Lemma demo_malloc3 : mm_malloc 100 demo_heap1 = Done 4168 demo_heap3.
Proof. vm_compute. reflexivity. Qed.

Lemma demo_reachable1 : reachable demo_boot demo_heap1 ({[4112]} ∪ ∅).
Proof.
  apply (reach_malloc demo_boot demo_heap ∅ 48 4112 demo_heap1 demo_reachable).
  - vm_compute. split; discriminate.
  - exact demo_malloc1.
Qed.

Lemma demo_reachable3 :
  reachable demo_boot demo_heap3 ({[4168]} ∪ ({[4112]} ∪ ∅)).
Proof.
  apply (reach_malloc demo_boot demo_heap1 _ 100 4168 demo_heap3 demo_reachable1).
  - vm_compute. split; discriminate.
  - exact demo_malloc3.
Qed.

(** X1. The navigation macros on two neighbouring blocks of a well-formed
    heap: [NEXT_BLKP] of the first is the second, [PREV_BLKP] of the second
    is the first again, [FTRP] of the first is the word just below the header
    of the second, and the footer that [FTRP] finds holds the same word as
    the header. *)
Theorem block_navigation s pre b1 b2 post :
  heap_shape s (pre ++ b1 :: b2 :: post) →
  let bp := heap_ptr s + span pre in
  let nb := bp + b1.1 in
  NEXT_BLKP bp s = Done nb s ∧
  PREV_BLKP nb s = Done bp s ∧
  FTRP bp s = Done (HDRP nb - WSIZE) s ∧
  (f ← FTRP bp; GET f) s = GET (HDRP bp) s.
Proof.
  intros Hs bp nb. pose proof (heap_shape_span _ _ Hs) as Hspan.
  destruct Hs as [Hlo _ _ Hbs Hend _]. unfold DSIZE in *.
  rewrite span_app in Hend, Hspan.
  apply blocks_app in Hbs as [Hpre (? & ? & [Hh Hf] & ? & ? & _ & Hpost)].
  apply blocks_span_nonneg in Hpre, Hpost. cbn [span fst snd] in *.
  fold bp in Hh, Hf.
  assert (Hsz : size_bits (word (mem s) (bp - 4)) = b1.1).
  { rewrite Hh. apply size_bits_tag. valid. }
  assert (Hsz' : size_bits (word (mem s) (nb - 8)) = b1.1).
  { subst nb. rewrite Hf. apply size_bits_tag. valid. }
  split_and!.
  - apply NEXT_BLKP_run; [subst bp; inb | done].
  - rewrite (PREV_BLKP_run nb s b1.1); [f_equal; subst nb; lia | subst nb bp; inb | done].
  - rewrite (FTRP_run bp s b1.1); [f_equal; subst nb; addr | subst bp; inb | done].
  - rewrite (bind_Done _ _ _ _ _ (FTRP_run bp s b1.1 ltac:(subst bp; inb) Hsz)).
    rewrite !GET_run by (subst bp; inb). unfold HDRP, WSIZE. by rewrite Hh, Hf.
Qed.

Lemma block_navigation_witness :
  NEXT_BLKP 4112 demo_heap1 = Done 4168 demo_heap1 ∧
  PREV_BLKP 4168 demo_heap1 = Done 4112 demo_heap1.
Proof.
  destruct (block_navigation demo_heap1 [(8, true)] (56, true) (4040, false) []
              demo_heap1_shape) as (Hn & Hp & _).
  exact (conj Hn Hp).
Defined.

(** X2. What the codec does to a size that does not fit the 32-bit word:
    for every multiple [size] of the alignment unit, however large, and every
    flag [a] in {0, 1}, after [PUT(p, PACK(size, a))] the macro [GET_SIZE(p)]
    reads [size mod 2^32], the high bits being lost, and [GET_ALLOC(p)] still
    reads [a]. *)
Theorem codec_truncates s p size a :
  in_heap s p → 0 ≤ size → size mod DSIZE = 0 → a = 0 ∨ a = 1 →
  ∃ s', PUT p (PACK size a) s = Done tt s' ∧
        GET_SIZE p s' = Done (size mod UINT_MOD) s' ∧
        GET_ALLOC p s' = Done a s'.
Proof.
  unfold DSIZE, UINT_MOD. intros Hp Hsize Hm Ha.
  assert (Hw : to_uint (PACK size a) = size mod 2 ^ 32 + a).
  { assert (a = Z.b2z (bool_decide (a = 1))) as ->
      by (destruct Ha as [-> | ->]; reflexivity).
    rewrite PACK_tag by done. unfold tag, to_uint, UINT_MOD.
    destruct (bool_decide _); simpl; lia. }
  exists (set_mem (<[p := size mod 2 ^ 32 + a]> (mem s)) s).
  split; [by apply PUT_run |].
  split; [apply GET_SIZE_run | apply GET_ALLOC_run]; try done;
    proj; rewrite word_insert_eq by done.
  - rewrite size_bits_eq. lia.
  - rewrite alloc_bit_eq. lia.
Qed.

Lemma codec_truncates_witness :
  ∃ s', PUT 4100 (PACK (2 ^ 32 + 16) 1) demo_heap = Done tt s' ∧
        GET_SIZE 4100 s' = Done 16 s' ∧ GET_ALLOC 4100 s' = Done 1 s'.
Proof.
  apply (codec_truncates demo_heap 4100 (2 ^ 32 + 16) 1).
  - vm_compute. split; discriminate.
  - vm_compute. discriminate.
  - reflexivity.
  - right. reflexivity.
Defined.

(** X3. [mm_free] on an allocated block [p] of a heap that satisfies the
    invariant runs to completion and keeps the invariant; break and
    [heap_ptr] stay; the bytes of [p] end up inside one free block; and every
    other allocated block is a block of the new heap, at the same address
    and of the same size, with header, payload and footer word for word as
    before. *)
Theorem mm_free_releases_block s bs p sz :
  heap_ok s bs → block_at (heap_ptr s) bs p (sz, true) → p ≠ heap_ptr s →
  ∃ s' bs',
    mm_free p s = Done tt s' ∧ heap_ok s' bs' ∧
    heap_ptr s' = heap_ptr s ∧ brk s' = brk s ∧
    (∃ r fs, block_at (heap_ptr s) bs' r (fs, false) ∧ r ≤ p ∧ p + sz ≤ r + fs) ∧
    (∀ q b, block_at (heap_ptr s) bs q (b, true) → q ≠ p →
       block_at (heap_ptr s) bs' q (b, true) ∧
       same_words (mem s) (mem s') (q - WSIZE) (q + b - WSIZE)).
Proof.
  intros Hok Hat Hne.
  assert (Hin : p ∈ allocated (heap_ptr s) bs) by (apply elem_of_allocated_at; eauto).
  destruct (mm_free_ok_frame s bs p Hok Hin Hne)
    as (m' & pre & b0 & sz' & post & -> & Hp & Hrun & Hok' & Hfr).
  pose proof (shape_blocks _ _ (ok_shape _ _ Hok)) as Hbs.
  assert (sz' = sz) as ->.
  { assert (Hat' : block_at (heap_ptr s) (pre ++ b0 :: (sz', true) :: post) p (sz', true)).
    { exists (pre ++ [b0]), post. rewrite <- app_assoc, span_app. simpl.
      split; [done | lia]. }
    destruct (block_at_disjoint _ _ _ _ _ _ _ Hbs Hat Hat') as [[_ [=]] | Hd]; [done |].
    destruct (block_at_bounds _ _ _ _ _ Hbs Hat) as (_ & _ & ? & _).
    destruct (block_at_bounds _ _ _ _ _ Hbs Hat') as (_ & _ & ? & _).
    simpl in *. lia. }
  exists (set_mem m' s), (pre ++ merged b0 sz post).
  split_and!; try done.
  - eexists _, _. split; [apply merged_free_block |].
    assert (0 ≤ free_head post).
    { apply blocks_app in Hbs as [_ (_ & _ & _ & _ & _ & _ & Hpost)].
      destruct post as [| [s2 [|]] t]; simpl in *; lia. }
    apply blocks_app in Hbs as [_ (? & _)]. destruct b0 as [s1 [|]]; simpl in *; lia.
  - intros q b Hq Hqp.
    destruct (block_at_merged _ _ _ _ _ _ _ _ Hbs Hq ltac:(lia)) as [Hq' Hout].
    split; [done |]. intros r Hr. apply Hfr. unfold WSIZE in *. lia.
Qed.

Lemma mm_free_releases_block_witness :
  ∃ s' bs', mm_free 4112 demo_heap1 = Done tt s' ∧ heap_ok s' bs' ∧
            brk s' = brk demo_heap1.
Proof.
  destruct (mm_free_releases_block demo_heap1 _ 4112 56 demo_heap1_ok)
    as (s' & bs' & Hrun & Hok & _ & Hbrk & _).
  - exists [(8, true)], [(4040, false)]. split; reflexivity.
  - vm_compute. discriminate.
  - exists s', bs'. exact (conj Hrun (conj Hok Hbrk)).
Defined.

(** X4. [mm_malloc] for a request in range, on a heap that satisfies the
    invariant, runs to completion and keeps the invariant; every block that
    was allocated before is still one, at the same address and of the same
    size, with header, payload and footer word for word as before; and a
    pointer other than [NULL] that it returns is an allocated block of the
    new heap whose size is at least the adjusted size and exceeds it by less
    than the minimum block size, and which overlaps none of the blocks that
    were allocated before. *)
Theorem mm_malloc_fresh_block s bs n :
  heap_ok s bs → 0 < n ≤ REQUEST_MAX →
  ∃ p s' bs',
    mm_malloc n s = Done p s' ∧ heap_ok s' bs' ∧ heap_ptr s' = heap_ptr s ∧
    (∀ q b, block_at (heap_ptr s) bs q (b, true) →
       block_at (heap_ptr s) bs' q (b, true) ∧
       same_words (mem s) (mem s') (q - WSIZE) (q + b - WSIZE)) ∧
    (p ≠ NULL →
     ∃ b, block_at (heap_ptr s) bs' p (b, true) ∧
          adjusted_size n ≤ b < adjusted_size n + 2 * DSIZE ∧
          ∀ q b0, block_at (heap_ptr s) bs q (b0, true) → q + b0 ≤ p ∨ p + b ≤ q).
Proof.
  intros Hok Hn.
  pose proof (shape_blocks _ _ (ok_shape _ _ Hok)) as Hbs.
  destruct (mm_malloc_cases s bs n Hok Hn)
    as [(pre & fs & post & m' & -> & _ & Hfs & _ & Hrun & Hok' & Hfr)
       | [(_ & _ & Hrun)
         | (_ & _ & pre0 & p0 & m' & -> & Hfs & Hrun & Hok' & Hfr)]].
  - exists (heap_ptr s + span pre), (set_mem m' s), (pre ++ placed fs (adjusted_size n) ++ post).
    split_and!; try done.
    + intros q b Hq.
      destruct (block_at_placed _ _ _ _ (adjusted_size n) _ _ _ Hbs Hq) as [Hq' Hout].
      split; [done |]. intros r Hr. apply Hfr. unfold WSIZE in *. lia.
    + intros _. destruct (placed_block (heap_ptr s) pre fs (adjusted_size n) post Hfs)
        as (b & Hb & Hsz & Hle).
      exists b. split; [done |]. split; [lia |]. intros q b0 Hq.
      destruct (block_at_placed _ _ _ _ (adjusted_size n) _ _ _ Hbs Hq) as [_ Hout].
      lia.
  - exists NULL, s, bs. by split_and!.
  - cbv zeta in Hfs, Hrun, Hok', Hfr.
    set (a := adjusted_size n) in *.
    set (ext := extend_bytes (extend_words a)) in *.
    set (pre := if p0.2 then pre0 ++ [p0] else pre0) in *.
    set (fs := if p0.2 then ext else p0.1 + ext) in *.
    assert (Hold : ∀ q b, block_at (heap_ptr s) (pre0 ++ [p0]) q (b, true) →
              block_at (heap_ptr s) pre q (b, true) ∧ q + b ≤ heap_ptr s + span pre).
    { intros q b Hq. subst pre. destruct p0 as [s1 [|]]; cbn [snd].
      - split; [done |]. destruct (block_at_bounds _ _ _ _ _ Hbs Hq) as (_ & ? & _).
        simpl in *. lia.
      - apply block_at_app in Hq as [Hq | Hq].
        + split; [done |]. apply blocks_app in Hbs as [Hpre _].
          destruct (block_at_bounds _ _ _ _ _ Hpre Hq) as (_ & ? & _). simpl in *. lia.
        + apply block_at_cons in Hq as [[_ [=]] | Hq].
          by destruct Hq as ([|??] & ? & ? & _). }
    exists (heap_ptr s + span pre), (set_mem m' (set_brk (brk s + ext) s)),
      (pre ++ placed fs a).
    split_and!; try done.
    + intros q b Hq. destruct (Hold q b Hq) as [Hq' Hout].
      split; [apply block_at_app; by left |].
      intros r Hr. apply Hfr. unfold WSIZE in *. lia.
    + intros _. destruct (placed_block (heap_ptr s) pre fs a [] Hfs) as (b & Hb & Hsz & _).
      rewrite app_nil_r in Hb.
      exists b. split; [done |]. split; [lia |]. intros q b0 Hq.
      destruct (Hold q b0 Hq) as [_ Hout]. by left.
Qed.

Lemma mm_malloc_fresh_block_witness :
  ∃ p s' bs', mm_malloc 100 demo_heap1 = Done p s' ∧ heap_ok s' bs'.
Proof.
  destruct (mm_malloc_fresh_block demo_heap1 _ 100 demo_heap1_ok)
    as (p & s' & bs' & Hrun & Hok & _).
  - vm_compute. split; [reflexivity | discriminate].
  - exists p, s', bs'. exact (conj Hrun Hok).
Defined.

(** X5. First fit, seen from [mm_malloc]: when some free block of the heap
    is large enough for the adjusted size, [mm_malloc] does not move the
    break, and the pointer it returns is a free block of the old heap that is
    large enough and lies at or below every other such block. *)
Theorem mm_malloc_lowest_fit s bs n p s' q fs :
  heap_ok s bs → 0 < n ≤ REQUEST_MAX →
  mm_malloc n s = Done p s' →
  block_at (heap_ptr s) bs q (fs, false) → adjusted_size n ≤ fs →
  brk s' = brk s ∧ p ≤ q ∧
  ∃ fs', block_at (heap_ptr s) bs p (fs', false) ∧ adjusted_size n ≤ fs'.
Proof.
  intros Hok Hn Hrun Hq Hfs.
  pose proof (ok_shape _ _ Hok) as Hs.
  pose proof (shape_blocks _ _ Hs) as Hbs.
  assert (Hpos : ∀ b, b ∈ bs → 0 < b.1) by (intros b; by eapply blocks_pos).
  assert (Hhp : 0 < heap_ptr s).
  { destruct Hs as [[] _ _ _ _ _]. unfold DSIZE in *. lia. }
  assert (Hfit : first_fit (adjusted_size n) (heap_ptr s) bs ≠ NULL).
  { intros Hnone. pose proof (first_fit_none _ _ _ Hnone Hhp Hpos) as Hall.
    rewrite Forall_forall in Hall.
    destruct (Hall _ (block_at_elem _ _ _ _ Hq)) as [? | ?]; simpl in *; [done | lia]. }
  destruct (mm_malloc_cases s bs n Hok Hn)
    as [(pre & fs0 & post & m' & -> & _ & Hfs0 & Hunfit & Hrun' & _)
       | [(? & _) | (? & _)]]; [| done ..].
  rewrite Hrun' in Hrun. injection Hrun as <- <-.
  split; [done |]. split.
  - apply block_at_app in Hq as [Hq | Hq].
    + rewrite Forall_forall in Hunfit.
      destruct (Hunfit _ (block_at_elem _ _ _ _ Hq)) as [? | ?]; simpl in *; [done | lia].
    + apply blocks_app in Hbs as [_ Hbs].
      destruct (block_at_bounds _ _ _ _ _ Hbs Hq) as (? & _). lia.
  - exists fs0. split; [| done]. apply block_at_app. right. apply block_at_cons. by left.
Qed.

Lemma mm_malloc_lowest_fit_witness :
  brk demo_heap3 = brk demo_heap1 ∧ 4168 ≤ 4168.
Proof.
  destruct (mm_malloc_lowest_fit demo_heap1 _ 100 4168 demo_heap3 4168 4040
              demo_heap1_ok) as (Hbrk & Hle & _).
  - vm_compute. split; [reflexivity | discriminate].
  - exact demo_malloc3.
  - exists [(8, true); (56, true)], []. split; reflexivity.
  - vm_compute. discriminate.
  - exact (conj Hbrk Hle).
Defined.

(** X6. A block that is handed out and released at once leaves the chain of
    blocks as it was before the request; when the heap had to grow for the
    request, the chain is the old one with the new bytes as free space at its
    end, joined to a free last block. *)
Theorem malloc_free_round_trip s bs n p s1 :
  heap_ok s bs → 0 < n ≤ REQUEST_MAX →
  mm_malloc n s = Done p s1 → p ≠ NULL →
  ∃ s2 bs2,
    mm_free p s1 = Done tt s2 ∧ heap_ok s2 bs2 ∧ brk s2 = brk s1 ∧
    (brk s1 = brk s → bs2 = bs) ∧
    (brk s1 ≠ brk s →
     ∃ pre0 p0, bs = pre0 ++ [p0] ∧ bs2 = pre0 ++ merged p0 (brk s1 - brk s) []).
Proof.
  intros Hok Hn Hrun Hp.
  destruct (malloc_free_chain s bs n p s1 Hok Hn Hrun Hp)
    as (m2 & bs2 & Hfree & Hok2 & _ & _ & Hcase).
  exists (set_mem m2 s1), bs2. split_and!; try done.
  - intros Hb. destruct Hcase as [[_ ?] | [? _]]; [done | lia].
  - intros Hb. destruct Hcase as [[? _] | [_ ?]]; done.
Qed.

Lemma malloc_free_round_trip_witness :
  ∃ s2 bs2, mm_free 4112 demo_heap1 = Done tt s2 ∧ heap_ok s2 bs2 ∧
            (brk demo_heap1 = brk demo_heap → bs2 = [(DSIZE, true); (CHUNKSIZE, false)]).
Proof.
  destruct (malloc_free_round_trip demo_heap _ 48 4112 demo_heap1 demo_heap_ok)
    as (s2 & bs2 & Hrun & Hok & _ & Hsame & _).
  - vm_compute. split; [reflexivity | discriminate].
  - exact demo_malloc1.
  - vm_compute. discriminate.
  - exists s2, bs2. exact (conj Hrun (conj Hok Hsame)).
Defined.

(** X7. The same request, repeated right after its block was released,
    gets the same block again, and the heap does not grow for it. *)
Theorem malloc_reuses_released_block s bs n p s1 s2 :
  heap_ok s bs → 0 < n ≤ REQUEST_MAX →
  mm_malloc n s = Done p s1 → p ≠ NULL →
  mm_free p s1 = Done tt s2 →
  ∃ s3, mm_malloc n s2 = Done p s3 ∧ brk s3 = brk s1.
Proof.
  intros Hok Hn Hrun Hp Hfree.
  destruct (malloc_free_chain s bs n p s1 Hok Hn Hrun Hp)
    as (m2 & bs2 & Hfree' & Hok2 & Hhp & Hff & _).
  rewrite Hfree' in Hfree. injection Hfree as <-.
  destruct (mm_malloc_cases _ bs2 n Hok2 Hn)
    as [(pre & fs & post & m' & -> & Hff' & _ & _ & Hrun' & _)
       | [(Hnone & _) | (Hnone & _)]];
    change (heap_ptr (set_mem m2 s1)) with (heap_ptr s1) in *; rewrite Hhp in *.
  - exists (set_mem m' (set_mem m2 s1)). split; [| done].
    rewrite Hrun'. f_equal. congruence.
  - congruence.
  - congruence.
Qed.

Lemma malloc_reuses_released_block_witness :
  ∃ s3, mm_malloc 48 demo_heap2 = Done 4112 s3 ∧ brk s3 = brk demo_heap1.
Proof.
  apply (malloc_reuses_released_block demo_heap _ 48 4112 demo_heap1 demo_heap2
           demo_heap_ok).
  - vm_compute. split; [reflexivity | discriminate].
  - exact demo_malloc1.
  - vm_compute. discriminate.
  - exact demo_free1.
Defined.

(** X8. In every reachable heap two different live pointers are blocks
    whose headers say allocated, each of the minimum block size at least, and
    the two blocks do not overlap. *)
Theorem live_blocks_disjoint s0 s live p q :
  env_ok s0 → reachable s0 s live → p ∈ live → q ∈ live → p ≠ q →
  ∃ sp sq,
    GET_SIZE (HDRP p) s = Done sp s ∧ GET_ALLOC (HDRP p) s = Done 1 s ∧
    GET_SIZE (HDRP q) s = Done sq s ∧ GET_ALLOC (HDRP q) s = Done 1 s ∧
    2 * DSIZE ≤ sp ∧ 2 * DSIZE ≤ sq ∧
    (p + sp ≤ q ∨ q + sq ≤ p).
Proof.
  intros Henv Hreach Hp Hq Hne.
  destruct (reachable_invariant _ _ _ Henv Hreach) as (bs & Hok & Hlive & _).
  pose proof (ok_shape _ _ Hok) as Hs.
  destruct (Hlive p Hp) as [[sp Hpat]%elem_of_allocated_at Hp0].
  destruct (Hlive q Hq) as [[sq Hqat]%elem_of_allocated_at Hq0].
  destruct (block_at_read _ _ _ _ Hs Hpat) as [Hps Hpa].
  destruct (block_at_read _ _ _ _ Hs Hqat) as [Hqs Hqa].
  exists sp, sq. split_and!; try done.
  - apply (block_at_min _ _ _ _ Hok Hpat Hp0).
  - apply (block_at_min _ _ _ _ Hok Hqat Hq0).
  - destruct (block_at_disjoint _ _ _ _ _ _ _ (shape_blocks _ _ Hs) Hpat Hqat)
      as [[? _] | Hd]; [done | exact Hd].
Qed.

Lemma live_blocks_disjoint_witness :
  ∃ sp sq,
    GET_SIZE (HDRP 4112) demo_heap3 = Done sp demo_heap3 ∧
    GET_SIZE (HDRP 4168) demo_heap3 = Done sq demo_heap3 ∧
    (4112 + sp ≤ 4168 ∨ 4168 + sq ≤ 4112).
Proof.
  destruct (live_blocks_disjoint demo_boot demo_heap3 _ 4112 4168
              demo_env_ok demo_reachable3)
    as (sp & sq & Hp & _ & Hq & _ & _ & _ & Hd).
  - apply elem_of_union_r, elem_of_union_l, elem_of_singleton. reflexivity.
  - apply elem_of_union_l, elem_of_singleton. reflexivity.
  - vm_compute. discriminate.
  - exists sp, sq. exact (conj Hp (conj Hq Hd)).
Defined.

(** X9. In every reachable heap the words of a live block, from its header
    to its footer, are the same after any [mm_malloc] with a request in
    range and after any [mm_free] of another live pointer: the allocator
    never writes into a block that is in use. *)
Theorem live_blocks_survive s0 s live p sp :
  env_ok s0 → reachable s0 s live → p ∈ live →
  GET_SIZE (HDRP p) s = Done sp s →
  (∀ n r s', 0 ≤ n ≤ REQUEST_MAX → mm_malloc n s = Done r s' →
     same_words (mem s) (mem s') (p - WSIZE) (p + sp - WSIZE)) ∧
  (∀ q s', q ∈ live → q ≠ p → mm_free q s = Done tt s' →
     same_words (mem s) (mem s') (p - WSIZE) (p + sp - WSIZE)).
Proof.
  intros Henv Hreach Hp Hsp.
  destruct (reachable_invariant _ _ _ Henv Hreach) as (bs & Hok & Hlive & _).
  destruct (Hlive p Hp) as [[b Hpat]%elem_of_allocated_at _].
  destruct (block_at_read _ _ _ _ (ok_shape _ _ Hok) Hpat) as [Hps _].
  rewrite Hps in Hsp. injection Hsp as <-. cbn [fst].
  split.
  - intros n r s' Hn Hrun. destruct (decide (n = 0)) as [-> | Hn0].
    + rewrite mm_malloc_zero in Hrun. injection Hrun as _ <-. by intros q Hq.
    + by apply (mm_malloc_frame s bs n r s' p b Hok ltac:(lia) Hrun).
  - intros q s' Hq Hne Hrun. destruct (Hlive q Hq) as [Hqin Hq0].
    by apply (mm_free_frame s bs q s' p b Hok Hqin Hq0 Hrun).
Qed.

Lemma live_blocks_survive_witness :
  ∃ s', mm_free 4168 demo_heap3 = Done tt s' ∧
        same_words (mem demo_heap3) (mem s') (4112 - WSIZE) (4112 + 56 - WSIZE).
Proof.
  destruct (live_blocks_survive demo_boot demo_heap3 _ 4112 56
              demo_env_ok demo_reachable3) as [_ Hfree].
  - apply elem_of_union_r, elem_of_union_l, elem_of_singleton. reflexivity.
  - vm_compute. reflexivity.
  - eexists. split; [vm_compute; reflexivity |].
    apply (Hfree 4168).
    + apply elem_of_union_l, elem_of_singleton. reflexivity.
    + vm_compute. discriminate.
    + vm_compute. reflexivity.
Defined.

(** X10. When every pointer that [mm_malloc] handed out has been released,
    the heap is the prologue, one free block that takes all the bytes up to
    the epilogue, and the epilogue: coalescing leaves no fragments. *)
Theorem all_released_one_free_block s0 s :
  env_ok s0 → reachable s0 s ∅ →
  heap_walk s =
    Done [(DSIZE, true); (brk s - heap_ptr s - DSIZE, false); (0, true)] s.
Proof.
  intros Henv Hreach.
  destruct (reachable_invariant_exact _ _ _ Henv Hreach)
    as (bs & [Hs _ Hnaf] & _ & Hhp & _ & _ & Hexact & Hbrk).
  rewrite (heap_walk_shape _ _ Hs).
  pose proof Hs as [_ _ [tl ->] Hbs Hend _].
  change CHUNKSIZE with 4096 in *. unfold DSIZE in *.
  assert (Hfree : ∀ q, q ∈ allocated (heap_ptr s + 8) tl → q ≤ heap_ptr s).
  { intros q Hq. destruct (Hexact q) as [-> | Hq']; [| done | by apply elem_of_empty in Hq'].
    cbn [allocated fst snd app]. by right. }
  destruct Hbs as (_ & _ & _ & Htl). cbn [fst snd span] in *.
  destruct tl as [| [x a] tl]; [simpl in *; lia |].
  destruct a.
  { specialize (Hfree (heap_ptr s + 8)). cbn [allocated snd app] in Hfree.
    specialize (Hfree ltac:(by left)). lia. }
  destruct tl as [| [y a] tl].
  { cbn [span fst] in Hend. cbn [app]. do 4 f_equal. lia. }
  destruct a; [| by destruct tl].
  destruct Htl as (? & _). cbn [fst] in *.
  specialize (Hfree (heap_ptr s + 8 + x)). cbn [allocated fst snd app] in Hfree.
  specialize (Hfree ltac:(by left)). lia.
Qed.

Lemma all_released_one_free_block_witness :
  heap_walk demo_heap2 =
    Done [(DSIZE, true); (brk demo_heap2 - heap_ptr demo_heap2 - DSIZE, false);
          (0, true)] demo_heap2.
Proof.
  apply (all_released_one_free_block demo_boot demo_heap2 demo_env_ok).
  exact demo_reachable2.
Defined.

(** X11. [find_fit] on any state at all, whatever the memory holds: the
    scan ends (every step moves up by a double word at least and reads below
    the break); if it returns, the state is untouched, and the result is
    [NULL] or a block whose header says free and at least as large as
    asked. *)
Theorem find_fit_any_heap s size :
  find_fit size s ≠ Timeout ∧
  ∀ r s', find_fit size s = Done r s' →
    s' = s ∧
    (r = NULL ∨
     GET_ALLOC (HDRP r) s = Done 0 s ∧
     ∃ sz, GET_SIZE (HDRP r) s = Done sz s ∧ 0 < sz ∧ size ≤ sz).
Proof.
  split; [apply find_fit_no_timeout |]. intros r s' Hrun.
  destruct (find_fit_sound s size) as [Hf | (r' & Hrun' & Hr)]; [congruence |].
  rewrite Hrun' in Hrun. by injection Hrun as <- <-.
Qed.

(** X12. [mm_free] never gives memory back to the environment: whatever
    pointer it is applied to and whatever the heap holds, if it returns then
    the break, its bounds and [heap_ptr] are as before; only words of memory
    can have changed. *)
Theorem mm_free_keeps_break s p s' :
  mm_free p s = Done tt s' →
  brk s' = brk s ∧ heap_ptr s' = heap_ptr s ∧ lo s' = lo s ∧ lim s' = lim s.
Proof. intros Hrun. destruct (mem_only_mm_free p s tt s' Hrun) as (? & ? & ? & ?). done. Qed.

Lemma mm_free_keeps_break_witness :
  brk demo_heap2 = brk demo_heap1 ∧ heap_ptr demo_heap2 = heap_ptr demo_heap1.
Proof.
  destruct (mm_free_keeps_break demo_heap1 4112 demo_heap2 demo_free1)
    as (Hb & Hh & _).
  exact (conj Hb Hh).
Defined.

(** X13. [mm_free] does not check its argument: it reads the word before
    the pointer first, so for a pointer whose header lies outside the break,
    [NULL] included, the call is an access outside the heap. *)
Theorem mm_free_outside_heap s p :
  ¬ in_heap s (HDRP p) → mm_free p s = Fault.
Proof.
  intros Hout. unfold mm_free, GET_SIZE. do 2 apply bind_Fault.
  unfold GET. by rewrite decide_False.
Qed.

Lemma mm_free_outside_heap_witness : mm_free NULL demo_heap = Fault.
Proof.
  apply (mm_free_outside_heap demo_heap NULL).
  vm_compute. intros [H _]. exact (H eq_refl).
Defined.

(** X14. [mm_malloc] relies on [mm_init]: for a request other than 0, when
    the word before [heap_ptr] lies outside the break, as it does before
    [mm_init] ([heap_ptr] is [NULL]) and after an [mm_init] that failed at
    once ([heap_ptr] is [(void * )-1]), the scan of [find_fit] starts with an
    access outside the heap. *)
Theorem mm_malloc_without_heap s n :
  n ≠ 0 → ¬ in_heap s (HDRP (heap_ptr s)) → mm_malloc n s = Fault.
Proof.
  intros Hn Hout. unfold mm_malloc. rewrite bool_decide_false by done.
  by apply bind_Fault, find_fit_Fault.
Qed.

Lemma mm_malloc_without_heap_witness : mm_malloc 48 demo_boot = Fault.
Proof.
  apply (mm_malloc_without_heap demo_boot 48).
  - vm_compute. discriminate.
  - vm_compute. intros [H _]. exact (H eq_refl).
Defined.

(** X15. [extend_heap words], for a word count that does not wrap, on a
    well-formed heap without adjacent free blocks and with last block [p]:
    the byte count is [words] rounded up to an even number of words.  When
    the environment refuses it, the result is [NULL] and nothing changes.
    When it grants it, the break moves up by exactly that many bytes, the
    heap is well formed again and still without adjacent free blocks, the
    result is the old break, or the address of [p] when [p] was free, and
    is a free block that ends at the new break; the words below that block
    are as before. *)
Theorem extend_heap_appends s pre p words :
  heap_shape s (pre ++ [p]) → no_adj_free (pre ++ [p]) = true →
  0 < words < 2 ^ 61 - 1 →
  let size := WSIZE * (words + words mod 2) in
  let bp := if p.2 then brk s else brk s - p.1 in
  extend_bytes words = size ∧
  (lim s < brk s + size → extend_heap words s = Done NULL s) ∧
  (brk s + size ≤ lim s →
   ∃ s', extend_heap words s = Done bp s' ∧
         brk s' = brk s + size ∧ heap_ptr s' = heap_ptr s ∧
         heap_shape s' (pre ++ merged p size []) ∧
         no_adj_free (pre ++ merged p size []) = true ∧
         block_at (heap_ptr s) (pre ++ merged p size []) bp (brk s' - bp, false) ∧
         ∀ q, q < bp - WSIZE → word (mem s') q = word (mem s) q).
Proof.
  intros Hs Hnaf Hw size bp.
  assert (Hsize : extend_bytes words = size).
  { subst size. unfold extend_bytes, to_size, SIZE_MOD, WSIZE.
    case_bool_decide; rewrite ?(Z.mod_small (words + 1)) by lia;
      rewrite Z.mod_small by lia; lia. }
  assert (8 ≤ size < 2 ^ 63 ∧ size mod 8 = 0) as (Hr & Hm).
  { unfold size, WSIZE. lia. }
  split; [done |]. split.
  - intros Hfull. apply extend_heap_fail. rewrite Hsize, to_intptr_small by lia. lia.
  - intros Hroom.
    destruct (extend_heap_shape_frame s pre p words size Hs Hsize)
      as (m' & Hrun & Hs' & Hfr); try done; try lia.
    pose proof (shape_end _ _ Hs) as Hend. rewrite span_app in Hend.
    cbn [span] in Hend.
    assert (Hbp : heap_ptr s + span pre + (if p.2 then p.1 else 0) = bp).
    { subst bp. destruct p.2; lia. }
    rewrite Hbp in *.
    exists (set_mem m' (set_brk (brk s + size) s)). split_and!; try done.
    + by apply no_adj_free_merged.
    + proj. pose proof (merged_free_block (heap_ptr s) pre p size []) as Hat.
      rewrite Hbp in Hat. cbn [free_head] in Hat.
      replace (brk s + size - bp) with ((if p.2 then 0 else p.1) + size + 0); [done |].
      subst bp. destruct p.2; lia.
Qed.

Lemma extend_heap_appends_witness :
  extend_bytes 3 = 16 ∧
  ∃ s', extend_heap 3 demo_heap = Done (brk demo_heap - CHUNKSIZE) s' ∧
        brk s' = brk demo_heap + 16.
Proof.
  destruct (extend_heap_appends demo_heap [(DSIZE, true)] (CHUNKSIZE, false) 3)
    as (Hsize & _ & Hgrow).
  - apply demo_heap_ok.
  - reflexivity.
  - vm_compute. split; reflexivity.
  - split; [exact Hsize |].
    destruct Hgrow as (s' & Hrun & Hbrk & _).
    + vm_compute. discriminate.
    + exists s'. exact (conj Hrun Hbrk).
Defined.

(** X16. After a successful [mm_init], a request of up to
    [CHUNKSIZE - DSIZE] bytes is served from the first chunk: [mm_malloc]
    returns the address one double word behind the prologue and does not
    move the break. *)
Theorem first_allocation s0 s n :
  env_ok s0 → mm_init s0 = Done 0 s → 0 < n ≤ CHUNKSIZE - DSIZE →
  ∃ s', mm_malloc n s = Done (brk s0 + 2 * DSIZE) s' ∧ brk s' = brk s.
Proof.
  intros Henv Hinit Hn.
  destruct (mm_init_ok s0 s Henv Hinit) as (Hok & Hhp & _).
  change CHUNKSIZE with 4096 in *. unfold DSIZE in *.
  assert (Hn' : 0 < n ≤ REQUEST_MAX) by (unfold REQUEST_MAX; lia).
  destruct (adjusted_size_sane n Hn') as (Ha & Ha16 & _).
  assert (Hle : adjusted_size n ≤ 4096) by (unfold DSIZE in *; lia).
  assert (Hff : first_fit (adjusted_size n) (heap_ptr s) [(8, true); (4096, false)]
                = heap_ptr s + 8).
  { cbn [first_fit fst snd negb andb]. by rewrite bool_decide_true. }
  destruct (mm_malloc_cases s _ n Hok Hn')
    as [(pre & fs & post & m' & _ & Hff' & _ & _ & Hrun & _)
       | [(Hnone & _) | (Hnone & _)]].
  - exists (set_mem m' s). split; [| done]. rewrite Hrun. f_equal. lia.
  - rewrite Hff in Hnone. destruct Henv. unfold NULL in *. lia.
  - rewrite Hff in Hnone. destruct Henv. unfold NULL in *. lia.
Qed.

Lemma first_allocation_witness :
  ∃ s', mm_malloc 48 demo_heap = Done (brk demo_boot + 2 * DSIZE) s' ∧
        brk s' = brk demo_heap.
Proof.
  apply (first_allocation demo_boot demo_heap 48 demo_env_ok demo_init).
  vm_compute. split; [reflexivity | discriminate].
Defined.

(** X17. [main], in an environment that grants the sentinels and the first
    chunk: it writes the 48 characters
    [abcdefghijklmnopqrstuvwxyzabcdefghijklmnopqrstuv] and a newline to the
    standard output and returns 0, and it leaves a heap that satisfies the
    invariant and is one free block of [CHUNKSIZE] bytes again. *)
Theorem main_prints_alphabet s0 :
  env_ok s0 → brk s0 + 2 * DSIZE + CHUNKSIZE ≤ lim s0 →
  ∃ s',
    main s0 =
      Done (text_bytes "abcdefghijklmnopqrstuvwxyzabcdefghijklmnopqrstuv"
              ++ [char_code "010"], 0) s' ∧
    heap_ok s' [(DSIZE, true); (CHUNKSIZE, false)] ∧
    brk s' = brk s0 + 2 * DSIZE + CHUNKSIZE.
Proof.
  intros Henv Hroom. pose proof Henv as (Hlo0 & Hlo & Hcap).
  change CHUNKSIZE with 4096 in *. unfold DSIZE in *.
  pose proof (mm_init_success s0 ltac:(lia) ltac:(lia)) as Hinit.
  destruct (mm_init_ok s0 _ Henv Hinit) as (Hok1 & Hhp1 & Hlo1 & _ & Hbrk1).
  set (s1 := initial_heap s0) in *.
  change CHUNKSIZE with 4096 in *. unfold DSIZE in *.
  unfold main. rewrite (bind_Done _ _ _ _ _ Hinit).
  destruct (mm_malloc_cases s1 _ 48 Hok1 ltac:(by vm_compute))
    as [(pre & fs & post & m2 & Heq & _ & _ & _ & Hrun2 & Hok2 & _)
       | [(Hnone & _) | (Hnone & _)]];
    [ | revert Hnone; cbn [first_fit fst snd negb andb];
        rewrite bool_decide_true by (by vm_compute); unfold NULL; lia .. ].
  assert (pre = [(8, true)] ∧ fs = 4096 ∧ post = []) as (-> & -> & ->).
  { destruct pre as [| b0 [| b1 pre]]; simplify_eq/=; try done.
    by destruct pre. }
  change (adjusted_size 48) with 56 in *.
  change (placed 4096 56) with [(56, true); (4040, false)] in Hok2.
  cbn [app span fst] in *.
  rewrite (bind_Done _ _ _ _ _ Hrun2).
  set (s2 := set_mem m2 s1) in *. set (ptr := heap_ptr s1 + (8 + 0)).
  pose proof (shape_end _ _ (ok_shape _ _ Hok2)) as Hend2. cbn [span fst] in Hend2.
  assert (Hhp2 : heap_ptr s2 = heap_ptr s1) by done.
  assert (Hlo2 : lo s2 = lo s1) by done.
  destruct (put_chars_run ptr (λ i, char_code "a" + i mod 26) 48 0 s2)
    as (m3 & Hrun3 & Hch & _ & Hfr3); [lia | subst ptr; lia | subst ptr; lia |].
  rewrite (bind_Done _ _ _ _ _ Hrun3).
  set (s3 := set_mem m3 s2) in *.
  rewrite (bind_Done _ _ _ _ _ (get_chars_run ptr 48 0 s3 []
             ltac:(lia) ltac:(subst ptr s3; proj; lia) ltac:(subst ptr s3; proj; lia))).
  cbv zeta. cbn [app].
  assert (Hout : char_of (mem s3) ptr <$> seqZ 0 (Z.of_nat 48) =
                 text_bytes "abcdefghijklmnopqrstuvwxyzabcdefghijklmnopqrstuv").
  { rewrite <- main_text. apply Forall_fmap_ext_1, Forall_forall.
    intros j Hj%elem_of_seqZ. apply Hch. lia. }
  rewrite Hout.
  assert (Hok3 : heap_ok s3 ([] ++ (8, true) :: (56, true) :: [(4040, false)])).
  { destruct Hok2 as [Hs2 Hmin2 Hnaf2]. split; [| done | done].
    apply (heap_shape_payload s2 m3 [(8, true)] (56, true) [(4040, false)] Hs2).
    intros q Hq. apply Hfr3. cbn [span fst] in Hq. subst ptr. lia. }
  destruct (mm_free_ok_at s3 [] (8, true) 56 [(4040, false)] Hok3)
    as (m4 & Hrun4 & Hok4 & _).
  replace (heap_ptr s3 + span [] + (8, true).1) with ptr in Hrun4
    by (subst ptr; simpl; lia).
  rewrite (bind_Done _ _ _ _ _ Hrun4).
  eexists. split; [reflexivity |]. split; [exact Hok4 |].
  change (brk s1 = brk s0 + 2 * 8 + 4096). lia.
Qed.

Lemma main_prints_alphabet_witness :
  ∃ s',
    main demo_boot =
      Done (text_bytes "abcdefghijklmnopqrstuvwxyzabcdefghijklmnopqrstuv"
              ++ [char_code "010"], 0) s'.
Proof.
  destruct (main_prints_alphabet demo_boot demo_env_ok) as (s' & Hrun & _).
  - vm_compute. discriminate.
  - exists s'. exact Hrun.
Defined.

(** X18. [main] looks neither at the result of [mm_init] nor at the pointer
    from [mm_malloc]: in an environment that does not grant the sentinels and
    the first chunk (and in which address 0 is not part of the heap), it
    runs into an access outside the heap. *)
Theorem main_needs_memory s0 :
  0 < lo s0 ≤ brk s0 → lim s0 < brk s0 + 2 * DSIZE + CHUNKSIZE →
  main s0 = Fault.
Proof.
  intros Hlo Hfull. change CHUNKSIZE with 4096 in *. unfold DSIZE in *.
  unfold main. destruct (decide (lim s0 < brk s0 + 16)) as [Hnone | Hsome].
  - rewrite (bind_Done _ _ _ _ _ (mm_init_no_memory s0 ltac:(lia) Hnone)).
    apply bind_Fault. unfold mm_malloc. rewrite bool_decide_false by done.
    apply bind_Fault, find_fit_Fault.
    unfold in_heap, HDRP, WSIZE, SBRK_FAILED. proj. lia.
  - rewrite (bind_Done _ _ _ _ _ (mm_init_no_chunk s0 ltac:(lia) ltac:(lia) Hfull)).
    assert (Hok : heap_ok (sentinels s0) [(DSIZE, true)]).
    { split; [apply sentinels_shape; lia | by constructor | done]. }
    destruct (mm_malloc_cases _ _ 48 Hok ltac:(by vm_compute))
      as [(pre & fs & post & m2 & Heq & _) | [(_ & _ & Hrun) | (_ & Hroom & _)]].
    + by destruct pre as [| ? [| ??]].
    + rewrite (bind_Done _ _ _ _ _ Hrun). apply bind_Fault.
      cbn [for_loop]. apply bind_Fault. unfold PUT_CHAR. apply bind_Fault.
      unfold GET. rewrite decide_False; [done |].
      unfold in_heap, char_word, NULL, WSIZE, sentinels. cbn [lo]. lia.
    + revert Hroom. change (extend_bytes (extend_words (adjusted_size 48))) with 4096.
      unfold sentinels. cbn [brk lim]. lia.
Qed.

Lemma main_needs_memory_witness : main (boot 4096 4200) = Fault.
Proof.
  apply (main_needs_memory (boot 4096 4200)).
  - vm_compute. split; [reflexivity | discriminate].
  - vm_compute. reflexivity.
Defined.
